(** * BanditPAM k-medoids: a shallow embedding of [kmedoids_algorithm.cpp]

    The development follows the C++ class [km::KMedoids]:

    - [double] values are idealised: a finite double is a real number
      (rounding, overflow and underflow are not modelled) and the IEEE
      special values that the code writes or can produce by subtraction
      are explicit constructors; the data matrix holds finite values and
      a distance is a real. Two results of the loss functions are not
      reals, the NaN of [cos] on a zero column and the error that
      Armadillo raises for the norm with [p = 0]: the statements about
      values computed from distances exclude them ([loss_is_number]);
    - [arma::mat] is a column-major store, [arma::rowvec]/[arma::vec] are
      lists updated by index;
    - member functions that mutate the object, print or throw run in a small
      state-and-exception monad over the object and the standard output;
    - the numeric kernels ([build_sigma], [calc_best_distances_swap],
      [swap_sigma], [calc_loss]) take [this] and return the vectors they
      were handed by reference;
    - the [omp parallel for] loops of [build_sigma] and [swap_sigma]
      write the buffer [sample], which is declared before the loop and
      so is shared by the threads: these two loops are run by a team of
      threads whose steps interleave, the interleaving being an input.
      The loop of [calc_best_distances_swap] keeps its temporaries
      inside the loop body and writes slot [i] only in iteration [i]; it
      is run in index order. *)

From Stdlib Require Import Reals Lra Lia ZArith String Ascii.
From Stdlib Require Import Sorting.Sorted Sorting.Permutation.
From stdpp Require Import list.

Local Open Scope R_scope.

(** * Part I: the model *)

(** ** Doubles *)

Inductive double : Type :=
| Finite (x : R)
| PosInf
| NegInf
| NaN.

#[global] Instance double_inhabited : Inhabited double := populate (Finite 0).
#[global] Instance R_inhabited : Inhabited R := populate 0.

(** [std::numeric_limits<double>::infinity()] *)
Definition infinity : double := PosInf.

(** [a < b] on doubles; every comparison with a NaN is false. *)
Definition dlt (a b : double) : bool :=
  match a, b with
  | Finite x, Finite y => if Rlt_dec x y then true else false
  | Finite _, PosInf => true
  | NegInf, Finite _ => true
  | NegInf, PosInf => true
  | _, _ => false
  end.

(** [a + b] *)
Definition dadd (a b : double) : double :=
  match a, b with
  | NaN, _ | _, NaN => NaN
  | Finite x, Finite y => Finite (x + y)
  | PosInf, NegInf | NegInf, PosInf => NaN
  | PosInf, _ | _, PosInf => PosInf
  | NegInf, _ | _, NegInf => NegInf
  end.

(** [- a] *)
Definition dneg (a : double) : double :=
  match a with
  | Finite x => Finite (- x)
  | PosInf => NegInf
  | NegInf => PosInf
  | NaN => NaN
  end.

(** [a - b] *)
Definition dsub (a b : double) : double := dadd a (dneg b).

Definition is_finite (a : double) : Prop := exists x, a = Finite x.

(** The order of the extended reals, used to state results. *)
Definition dle (a b : double) : Prop :=
  match a, b with
  | Finite x, Finite y => x <= y
  | Finite _, PosInf => True
  | PosInf, PosInf => True
  | NegInf, (Finite _ | PosInf | NegInf) => True
  | _, _ => False
  end.

(** All entries of a vector as reals, when all are finite. *)
Fixpoint finite_values (v : list double) : option (list R) :=
  match v with
  | [] => Some []
  | Finite x :: v' =>
      match finite_values v' with
      | Some xs => Some (x :: xs)
      | None => None
      end
  | _ :: _ => None
  end.

(** ** Armadillo *)

(** [arma::Mat<A>]: [n_rows * n_cols] elements stored column by column. *)
Record mat (A : Type) : Type := Mat {
  n_rows : nat;
  n_cols : nat;
  mem : list A
}.

Arguments Mat {A} _ _ _.
Arguments n_rows {A} _.
Arguments n_cols {A} _.
Arguments mem {A} _.

Definition wf_mat {A : Type} (X : mat A) : Prop :=
  length (mem X) = (n_rows X * n_cols X)%nat.

(** [X.col(c)]; Armadillo raises when [c >= n_cols]. *)
Definition col {A : Type} (X : mat A) (c : nat) : list A :=
  take (n_rows X) (drop (c * n_rows X) (mem X)).

(** [X(r, c)] read; Armadillo raises when [r >= n_rows] or [c >= n_cols]. *)
Definition mat_at {A : Type} `{Inhabited A} (X : mat A) (r c : nat) : A :=
  mem X !!! (r + c * n_rows X)%nat.

(** [X(r, c) = v] *)
Definition mat_set {A : Type} (X : mat A) (r c : nat) (v : A) : mat A :=
  Mat (n_rows X) (n_cols X) (<[(r + c * n_rows X)%nat := v]> (mem X)).

(** A matrix given by its columns, each of [d] entries. *)
Definition mat_of_cols {A : Type} (d : nat) (cols : list (list A)) : mat A :=
  Mat d (length cols) (concat cols).

Module arma.

(** [a - b], element by element *)
Definition minus (a b : list R) : list R := zip_with Rminus a b.

(** [arma::abs(v)] *)
Definition abs (v : list R) : list R := map Rabs v.

(** [arma::accu(v)]: the sum of all elements *)
Definition accu (v : list R) : R := foldr Rplus 0 v.

(** [arma::dot(a, b)] *)
Definition dot (a b : list R) : R := accu (zip_with Rmult a b).

(** [arma::max(v)]; Armadillo raises on an object without elements. *)
Definition max (v : list R) : R :=
  match v with
  | [] => 0
  | x :: v' => fold_left Rmax v' x
  end.

(** [std::pow(x, 1.0 / p)] for [x >= 0] *)
Definition root (p : nat) (x : R) : R :=
  if Req_dec_T x 0 then 0 else Rpower x (/ INR p).

(** [arma::norm(v, p)]: the p-norm of a vector, (sum |v_i|^p)^(1/p).
    Armadillo raises an error for [p = 0], where this function has the
    value 1; the statements leave [p = 0] out. *)
Definition norm (v : list R) (p : nat) : R :=
  root p (accu (map (fun x => Rabs x ^ p) v)).

(** [arma::mean] *)
Definition mean (v : list R) : R := accu v / INR (length v).

(** [arma::var] with the default normalisation by [N - 1]; a vector
    with fewer than two elements has variance 0. *)
Definition var (v : list R) : R :=
  if (length v <? 2)%nat then 0
  else accu (map (fun x => (x - mean v) ^ 2) v) / INR (length v - 1).

(** [arma::stddev(v)] on reals *)
Definition stddev_R (v : list R) : R := sqrt (var v).

(** [arma::stddev(v)] on doubles: a non-finite entry poisons the result. *)
Definition stddev (v : list double) : double :=
  if (length v <? 2)%nat then Finite 0
  else match finite_values v with
       | Some xs => Finite (stddev_R xs)
       | None => NaN
       end.

(** The outcomes of [arma::randperm(N, M)]: [M] distinct indices below
    [N]. The draw is an input of the functions that make it. *)
Definition randperm (N M : nat) (refs : list nat) : Prop :=
  length refs = M /\ NoDup refs /\ Forall (fun r => (r < N)%nat) refs.

End arma.

(** ** Strings and [std::regex] *)

Local Open Scope string_scope.

(** [std::isdigit] in the C locale *)
Definition isdigit (c : ascii) : bool :=
  (48 <=? nat_of_ascii c)%nat && (nat_of_ascii c <=? 57)%nat.

(** [std::isspace] in the C locale *)
Definition isspace (c : ascii) : bool :=
  (nat_of_ascii c =? 32)%nat
  || ((9 <=? nat_of_ascii c)%nat && (nat_of_ascii c <=? 13)%nat).

(** The regular expressions the code and the loss-name grammar need. *)
Inductive regex : Type :=
| re_none
| re_eps
| re_char (c : ascii)
| re_digit
| re_cat (r1 r2 : regex)
| re_alt (r1 r2 : regex)
| re_star (r : regex).

Fixpoint nullable (r : regex) : bool :=
  match r with
  | re_none => false
  | re_eps => true
  | re_char _ => false
  | re_digit => false
  | re_cat r1 r2 => nullable r1 && nullable r2
  | re_alt r1 r2 => nullable r1 || nullable r2
  | re_star _ => true
  end.

(** The derivative of [r] by the character [c]. *)
Fixpoint deriv (c : ascii) (r : regex) : regex :=
  match r with
  | re_none => re_none
  | re_eps => re_none
  | re_char c' => if Ascii.eqb c c' then re_eps else re_none
  | re_digit => if isdigit c then re_eps else re_none
  | re_cat r1 r2 =>
      if nullable r1
      then re_alt (re_cat (deriv c r1) r2) (deriv c r2)
      else re_cat (deriv c r1) r2
  | re_alt r1 r2 => re_alt (deriv c r1) (deriv c r2)
  | re_star r' => re_cat (deriv c r') (re_star r')
  end.

(** [std::regex_match(s, r)]: the whole of [s] matches [r]. *)
Fixpoint regex_match (s : string) (r : regex) : bool :=
  match s with
  | EmptyString => nullable r
  | String c s' => regex_match s' (deriv c r)
  end.

(** The words of a regular expression. *)
Inductive matches : regex -> string -> Prop :=
| m_eps : matches re_eps ""
| m_char c : matches (re_char c) (String c "")
| m_digit c : isdigit c = true -> matches re_digit (String c "")
| m_cat r1 r2 s1 s2 :
    matches r1 s1 -> matches r2 s2 -> matches (re_cat r1 r2) (s1 ++ s2)
| m_alt_l r1 r2 s : matches r1 s -> matches (re_alt r1 r2) s
| m_alt_r r1 r2 s : matches r2 s -> matches (re_alt r1 r2) s
| m_star_nil r : matches (re_star r) ""
| m_star_cons r s1 s2 :
    matches r s1 -> matches (re_star r) s2 -> matches (re_star r) (s1 ++ s2).

(** A literal word *)
Fixpoint re_lit (s : string) : regex :=
  match s with
  | EmptyString => re_eps
  | String c s' => re_cat (re_char c) (re_lit s')
  end.

(** [std::regex("L\\d*")] *)
Definition re_L_digits : regex := re_cat (re_char "L") (re_star re_digit).

(** The loss-name grammar of the specification,
    [manhattan | cos | inf | L?<digit>+]. *)
Definition loss_grammar : regex :=
  re_alt (re_lit "manhattan")
    (re_alt (re_lit "cos")
      (re_alt (re_lit "inf")
        (re_cat (re_alt (re_char "L") re_eps)
                (re_cat re_digit (re_star re_digit))))).

Fixpoint skip_spaces (s : string) : string :=
  match s with
  | String c s' => if isspace c then skip_spaces s' else s
  | EmptyString => s
  end.

(** The value of the longest prefix of decimal digits. *)
Fixpoint digits_value (acc : Z) (s : string) : Z :=
  match s with
  | String c s' =>
      if isdigit c
      then digits_value (10 * acc + (Z.of_nat (nat_of_ascii c) - 48))%Z s'
      else acc
  | EmptyString => acc
  end.

(** [strtol(s, NULL, 10)]: blanks, an optional sign, then digits; a
    value outside the range of [long] is replaced by the nearest bound. *)
Definition strtol (s : string) : Z :=
  let v :=
    match skip_spaces s with
    | String "-" s' => (- digits_value 0 s')%Z
    | String "+" s' => digits_value 0 s'
    | s' => digits_value 0 s'
    end in
  Z.max (- 2 ^ 63) (Z.min (2 ^ 63 - 1) v).

(** The conversion of a [long] to [int]: its low 32 bits, read as a
    signed number. *)
Definition int_of_long (v : Z) : Z := ((v + 2 ^ 31) mod 2 ^ 32 - 2 ^ 31)%Z.

(** [atoi(s.c_str())]. The C standard defines the value only while it
    fits an [int]; the C library computes [(int) strtol(s, NULL, 10)]. *)
Definition atoi (s : string) : Z := int_of_long (strtol s).

(** ** The object and its effects *)

(** The targets of the member pointer [lossFn]. *)
Inductive loss_fn : Type := fn_LP | fn_LINF | fn_cos | fn_manhattan.

(** The targets of the member pointer [fitFn]. *)
Inductive fit_fn : Type := fn_fit_bpam | fn_fit_naive.

(** The vectors of [LogHelper] that this file touches. *)
Record LogHelper : Type := {
  sigma_build : list string;
  sigma_swap : list string;
  loss_swap : list double
}.

Record KMedoids : Type := {
  n_medoids : nat;
  algorithm : string;
  max_iter : nat;
  labels : list nat;
  medoid_indices_build : list nat;
  medoid_indices_final : list nat;
  lossFn : loss_fn;
  fitFn : fit_fn;
  logHelper : LogHelper;
  steps : nat;
  buildConfidence : nat;
  swapConfidence : nat;
  verbosity : nat;
  logFilename : string;
  lp : nat
}.

Definition set_lossFn (f : loss_fn) (o : KMedoids) : KMedoids :=
  {| n_medoids := n_medoids o; algorithm := algorithm o;
     max_iter := max_iter o; labels := labels o;
     medoid_indices_build := medoid_indices_build o;
     medoid_indices_final := medoid_indices_final o;
     lossFn := f; fitFn := fitFn o; logHelper := logHelper o;
     steps := steps o; buildConfidence := buildConfidence o;
     swapConfidence := swapConfidence o; verbosity := verbosity o;
     logFilename := logFilename o; lp := lp o |}.

Definition set_lp (p : nat) (o : KMedoids) : KMedoids :=
  {| n_medoids := n_medoids o; algorithm := algorithm o;
     max_iter := max_iter o; labels := labels o;
     medoid_indices_build := medoid_indices_build o;
     medoid_indices_final := medoid_indices_final o;
     lossFn := lossFn o; fitFn := fitFn o; logHelper := logHelper o;
     steps := steps o; buildConfidence := buildConfidence o;
     swapConfidence := swapConfidence o; verbosity := verbosity o;
     logFilename := logFilename o; lp := p |}.

Definition set_fitFn (f : fit_fn) (o : KMedoids) : KMedoids :=
  {| n_medoids := n_medoids o; algorithm := algorithm o;
     max_iter := max_iter o; labels := labels o;
     medoid_indices_build := medoid_indices_build o;
     medoid_indices_final := medoid_indices_final o;
     lossFn := lossFn o; fitFn := f; logHelper := logHelper o;
     steps := steps o; buildConfidence := buildConfidence o;
     swapConfidence := swapConfidence o; verbosity := verbosity o;
     logFilename := logFilename o; lp := lp o |}.

Definition set_algorithm (a : string) (o : KMedoids) : KMedoids :=
  {| n_medoids := n_medoids o; algorithm := a;
     max_iter := max_iter o; labels := labels o;
     medoid_indices_build := medoid_indices_build o;
     medoid_indices_final := medoid_indices_final o;
     lossFn := lossFn o; fitFn := fitFn o; logHelper := logHelper o;
     steps := steps o; buildConfidence := buildConfidence o;
     swapConfidence := swapConfidence o; verbosity := verbosity o;
     logFilename := logFilename o; lp := lp o |}.

Definition set_logHelper (l : LogHelper) (o : KMedoids) : KMedoids :=
  {| n_medoids := n_medoids o; algorithm := algorithm o;
     max_iter := max_iter o; labels := labels o;
     medoid_indices_build := medoid_indices_build o;
     medoid_indices_final := medoid_indices_final o;
     lossFn := lossFn o; fitFn := fitFn o; logHelper := l;
     steps := steps o; buildConfidence := buildConfidence o;
     swapConfidence := swapConfidence o; verbosity := verbosity o;
     logFilename := logFilename o; lp := lp o |}.

Definition set_n_medoids (n : nat) (o : KMedoids) : KMedoids :=
  {| n_medoids := n; algorithm := algorithm o;
     max_iter := max_iter o; labels := labels o;
     medoid_indices_build := medoid_indices_build o;
     medoid_indices_final := medoid_indices_final o;
     lossFn := lossFn o; fitFn := fitFn o; logHelper := logHelper o;
     steps := steps o; buildConfidence := buildConfidence o;
     swapConfidence := swapConfidence o; verbosity := verbosity o;
     logFilename := logFilename o; lp := lp o |}.

Definition set_verbosity (v : nat) (o : KMedoids) : KMedoids :=
  {| n_medoids := n_medoids o; algorithm := algorithm o;
     max_iter := max_iter o; labels := labels o;
     medoid_indices_build := medoid_indices_build o;
     medoid_indices_final := medoid_indices_final o;
     lossFn := lossFn o; fitFn := fitFn o; logHelper := logHelper o;
     steps := steps o; buildConfidence := buildConfidence o;
     swapConfidence := swapConfidence o; verbosity := v;
     logFilename := logFilename o; lp := lp o |}.

Definition set_max_iter (n : nat) (o : KMedoids) : KMedoids :=
  {| n_medoids := n_medoids o; algorithm := algorithm o;
     max_iter := n; labels := labels o;
     medoid_indices_build := medoid_indices_build o;
     medoid_indices_final := medoid_indices_final o;
     lossFn := lossFn o; fitFn := fitFn o; logHelper := logHelper o;
     steps := steps o; buildConfidence := buildConfidence o;
     swapConfidence := swapConfidence o; verbosity := verbosity o;
     logFilename := logFilename o; lp := lp o |}.

Definition set_buildConfidence (n : nat) (o : KMedoids) : KMedoids :=
  {| n_medoids := n_medoids o; algorithm := algorithm o;
     max_iter := max_iter o; labels := labels o;
     medoid_indices_build := medoid_indices_build o;
     medoid_indices_final := medoid_indices_final o;
     lossFn := lossFn o; fitFn := fitFn o; logHelper := logHelper o;
     steps := steps o; buildConfidence := n;
     swapConfidence := swapConfidence o; verbosity := verbosity o;
     logFilename := logFilename o; lp := lp o |}.

Definition set_swapConfidence (n : nat) (o : KMedoids) : KMedoids :=
  {| n_medoids := n_medoids o; algorithm := algorithm o;
     max_iter := max_iter o; labels := labels o;
     medoid_indices_build := medoid_indices_build o;
     medoid_indices_final := medoid_indices_final o;
     lossFn := lossFn o; fitFn := fitFn o; logHelper := logHelper o;
     steps := steps o; buildConfidence := buildConfidence o;
     swapConfidence := n; verbosity := verbosity o;
     logFilename := logFilename o; lp := lp o |}.

Definition set_logFilename (f : string) (o : KMedoids) : KMedoids :=
  {| n_medoids := n_medoids o; algorithm := algorithm o;
     max_iter := max_iter o; labels := labels o;
     medoid_indices_build := medoid_indices_build o;
     medoid_indices_final := medoid_indices_final o;
     lossFn := lossFn o; fitFn := fitFn o; logHelper := logHelper o;
     steps := steps o; buildConfidence := buildConfidence o;
     swapConfidence := swapConfidence o; verbosity := verbosity o;
     logFilename := f; lp := lp o |}.

(** What a [throw] carries. *)
Inductive exn : Type :=
| thrown_c_string (msg : string)
| invalid_argument (what : string)
| out_of_range.

(** The object and the text written to [std::cout]. *)
Record world : Type := World {
  this : KMedoids;
  cout : list string
}.

(** A member function: it may change the object, print, and either
    return or leave by an exception; changes made before a [throw] stay. *)
Definition M (A : Type) : Type := world -> (exn + A) * world.

#[global] Instance M_ret : MRet M := fun A x w => (inr x, w).

#[global] Instance M_bind : MBind M := fun A B f m w =>
  match m w with
  | (inl e, w') => (inl e, w')
  | (inr a, w') => f a w'
  end.

Definition throw {A : Type} (e : exn) : M A := fun w => (inl e, w).

Definition get_this : M KMedoids := fun w => (inr (this w), w).

Definition modify_this (f : KMedoids -> KMedoids) : M unit :=
  fun w => (inr tt, World (f (this w)) (cout w)).

(** [std::cout << s << std::endl] *)
Definition print_line (s : string) : M unit :=
  fun w => (inr tt, World (this w) (cout w ++ [s])).

(** [try { body } catch (std::invalid_argument& e) { handler(e.what()) }] *)
Definition try_catch_invalid_argument
  (body : M unit) (handler : string -> M unit) : M unit :=
  fun w =>
    match body w with
    | (inl (invalid_argument what), w') => handler what w'
    | r => r
    end.

(** [s.at(0)] *)
Definition at0 (s : string) : M ascii :=
  match s with
  | EmptyString => throw out_of_range
  | String c _ => mret c
  end.

(** [s.substr(1)]: the library raises when the position exceeds the size. *)
Definition substr1 (s : string) : M string :=
  match s with
  | EmptyString => throw out_of_range
  | String _ s' => mret s'
  end.

(** ** OpenMP *)

Section omp.

(** The memory that the threads of a team share. *)
Variable shared : Type.

(** A statement of a thread, as what it does to the shared memory. *)
Definition statement : Type := shared -> shared.

(** Thread [t] runs the next of the statements it has left, if any. *)
Definition omp_step (st : shared * list (list statement)) (t : nat)
  : shared * list (list statement) :=
  match st.2 !! t with
  | Some (stmt :: rest) => (stmt st.1, <[t := rest]> st.2)
  | _ => st
  end.

(** The statements of a thread that is handed [iterations], iteration
    [i] being the statements [body i]. *)
Definition omp_thread (body : nat -> list statement) (iterations : list nat)
  : list statement :=
  concat (map body iterations).

(** [#pragma omp parallel for]: thread [t] of the team is handed the
    iterations [team !!! t] and runs them in order; the threads take
    their steps in the order [schedule], and behind it every thread runs
    what it has left, since the loop ends when all iterations are done. *)
Definition omp_parallel_for (body : nat -> list statement)
  (team : list (list nat)) (schedule : list nat) (s : shared) : shared :=
  let st := fold_left omp_step schedule (s, map (omp_thread body) team) in
  fold_left (fun s stmt => stmt s) (concat st.2) st.1.

End omp.

Arguments omp_step {shared} _ _.
Arguments omp_thread {shared} _ _.
Arguments omp_parallel_for {shared} _ _ _ _.

(** The ways of handing the iterations [0 .. N-1] to a team: every
    iteration goes to one thread. *)
Definition omp_team (N : nat) (team : list (list nat)) : Prop :=
  Permutation (concat team) (seq 0 N).

Module km.

(** [km::KMedoids::checkAlgorithm] *)
Definition checkAlgorithm (algorithm : string) : M unit :=
  if String.eqb algorithm "BanditPAM" then modify_this (set_fitFn fn_fit_bpam)
  else if String.eqb algorithm "naive" then modify_this (set_fitFn fn_fit_naive)
  else throw (thrown_c_string "unrecognized algorithm").

(** The constructor: the members of the initialiser list are set; the
    others keep whatever the storage of the object held. *)
Definition KMedoids_ctor
  (n_medoids : nat) (algorithm : string) (verbosity max_iter : nat)
  (buildConfidence swapConfidence : nat) (logFilename : string) : M unit :=
  modify_this (fun storage =>
    {| n_medoids := n_medoids; algorithm := algorithm;
       max_iter := max_iter; labels := labels storage;
       medoid_indices_build := medoid_indices_build storage;
       medoid_indices_final := medoid_indices_final storage;
       lossFn := lossFn storage; fitFn := fitFn storage;
       logHelper := logHelper storage; steps := steps storage;
       buildConfidence := buildConfidence;
       swapConfidence := swapConfidence; verbosity := verbosity;
       logFilename := logFilename; lp := lp storage |}) ;;
  checkAlgorithm algorithm.

(** [km::KMedoids::setAlgorithm] *)
Definition setAlgorithm (new_alg : string) : M unit :=
  modify_this (set_algorithm new_alg).

(** The read-only getters *)
Definition getMedoidsFinal : M (list nat) :=
  o ← get_this ; mret (medoid_indices_final o).

Definition getMedoidsBuild : M (list nat) :=
  o ← get_this ; mret (medoid_indices_build o).

Definition getLabels : M (list nat) := o ← get_this ; mret (labels o).

Definition getSteps : M nat := o ← get_this ; mret (steps o).

(** The getters and setters of the constructor parameters; no setter
    checks its argument. *)
Definition getNMedoids : M nat := o ← get_this ; mret (n_medoids o).

Definition setNMedoids (new_num : nat) : M unit :=
  modify_this (set_n_medoids new_num).

Definition getAlgorithm : M string := o ← get_this ; mret (algorithm o).

Definition getVerbosity : M nat := o ← get_this ; mret (verbosity o).

Definition setVerbosity (new_ver : nat) : M unit :=
  modify_this (set_verbosity new_ver).

Definition getMaxIter : M nat := o ← get_this ; mret (max_iter o).

Definition setMaxIter (new_max : nat) : M unit :=
  modify_this (set_max_iter new_max).

Definition getbuildConfidence : M nat :=
  o ← get_this ; mret (buildConfidence o).

Definition setbuildConfidence (new_buildConfidence : nat) : M unit :=
  modify_this (set_buildConfidence new_buildConfidence).

Definition getswapConfidence : M nat :=
  o ← get_this ; mret (swapConfidence o).

Definition setswapConfidence (new_swapConfidence : nat) : M unit :=
  modify_this (set_swapConfidence new_swapConfidence).

Definition getLogfileName : M string := o ← get_this ; mret (logFilename o).

Definition setLogFilename (new_lname : string) : M unit :=
  modify_this (set_logFilename new_lname).

(** [km::KMedoids::setLossFn] *)
Definition setLossFn (loss : string) : M unit :=
  loss ← (if regex_match loss re_L_digits then substr1 loss else mret loss) ;
  try_catch_invalid_argument
    (if String.eqb loss "manhattan" then modify_this (set_lossFn fn_manhattan)
     else if String.eqb loss "cos" then modify_this (set_lossFn fn_cos)
     else if String.eqb loss "inf" then modify_this (set_lossFn fn_LINF)
     else
       c ← at0 loss ;
       if isdigit c then
         modify_this (set_lossFn fn_LP) ;;
         modify_this (set_lp (Z.to_nat (atoi loss mod 2 ^ 64)))
       else throw (invalid_argument "error: unrecognized loss function"))
    (fun what => print_line what).

Section fit.

(** The embedded-interpreter prelude of [fit] (which may end the
    process), the two fit functions and the writing of the log profile
    are not in this file's source. *)
Variable call_python : string -> string -> M unit.
Variables fit_bpam fit_naive : mat R -> M unit.
Variable write_profile : M unit.

(** [(this->*fitFn)(input_data)] *)
Definition invoke_fitFn (input_data : mat R) : M unit :=
  o ← get_this ;
  match fitFn o with
  | fn_fit_bpam => fit_bpam input_data
  | fn_fit_naive => fit_naive input_data
  end.

(** What [fit] does once the loss has been set. *)
Definition fit_after_setLossFn (input_data : mat R) : M unit :=
  (o ← get_this ; checkAlgorithm (algorithm o)) ;;
  invoke_fitFn input_data ;;
  o ← get_this ;
  if (0 <? verbosity o)%nat then write_profile else mret tt.

(** [km::KMedoids::fit] *)
Definition fit (input_data : mat R) (loss module dist_mat : string) : M unit :=
  call_python module dist_mat ;;
  setLossFn loss ;;
  fit_after_setLossFn input_data.

End fit.

Local Close Scope string_scope.

(** *** Loss functions *)

(** [km::KMedoids::LP] *)
Definition LP (o : KMedoids) (data : mat R) (i j : nat) : R :=
  arma.norm (arma.minus (col data i) (col data j)) (lp o).

(** [km::KMedoids::cos]; [arma::norm(v)] is the 2-norm. On a zero
    column the C++ quotient is a NaN; here it is the quotient of the
    reals, and the statements about [cos] assume non-zero columns. *)
Definition cos (o : KMedoids) (data : mat R) (i j : nat) : R :=
  arma.dot (col data i) (col data j)
  / (arma.norm (col data i) 2 * arma.norm (col data j) 2).

(** [km::KMedoids::manhattan] *)
Definition manhattan (o : KMedoids) (data : mat R) (i j : nat) : R :=
  arma.accu (arma.abs (arma.minus (col data i) (col data j))).

(** [km::KMedoids::LINF] *)
Definition LINF (o : KMedoids) (data : mat R) (i j : nat) : R :=
  arma.max (arma.abs (arma.minus (col data i) (col data j))).

(** [(this->*lossFn)(data, i, j)] *)
Definition invoke_lossFn (o : KMedoids) (data : mat R) (i j : nat) : R :=
  match lossFn o with
  | fn_LP => LP o data i j
  | fn_LINF => LINF o data i j
  | fn_cos => cos o data i j
  | fn_manhattan => manhattan o data i j
  end.

(** *** The numeric kernels

    Vectors are read with the total lookup [!!!] and written with
    [<[i := v]>]; Armadillo raises on an index out of range, and the
    statements below take every vector with the size its caller gives
    it. *)

(** The inner loop of [build_sigma] for candidate [i] when no other
    thread writes [sample] meanwhile: it fills the buffer slot by slot. *)
Definition build_sigma_sample (o : KMedoids) (data : mat R)
  (best_distances : list double) (tmp_refs : list nat) (batch_size : nat)
  (use_absolute : bool) (i : nat) (sample : list double) : list double :=
  fold_left (fun sample j =>
      let cost := Finite (invoke_lossFn o data i (tmp_refs !!! j)) in
      if use_absolute then <[j := cost]> sample
      else
        let sample :=
          <[j := if dlt cost (best_distances !!! (tmp_refs !!! j))
                 then cost
                 else best_distances !!! (tmp_refs !!! j)]> sample in
        <[j := dsub (sample !!! j) (best_distances !!! (tmp_refs !!! j))]>
          sample)
    (seq 0 batch_size) sample.

(** Iteration [i] of the loop of [build_sigma], statement by statement,
    on the shared [sigma] and [sample]: the assignments to [sample(j)]
    for each [j], then the assignment to [sigma(i)]. *)
Definition build_sigma_body (o : KMedoids) (data : mat R)
  (best_distances : list double) (tmp_refs : list nat) (batch_size : nat)
  (use_absolute : bool) (i : nat)
  : list (statement (list double * list double)) :=
  flat_map (fun j =>
      let cost := Finite (invoke_lossFn o data i (tmp_refs !!! j)) in
      if use_absolute then
        [fun '(sigma, sample) => (sigma, <[j := cost]> sample)]
      else
        [fun '(sigma, sample) =>
           (sigma,
            <[j := if dlt cost (best_distances !!! (tmp_refs !!! j))
                   then cost
                   else best_distances !!! (tmp_refs !!! j)]> sample);
         fun '(sigma, sample) =>
           (sigma,
            <[j := dsub (sample !!! j) (best_distances !!! (tmp_refs !!! j))]>
              sample)])
    (seq 0 batch_size)
  ++ [fun '(sigma, sample) => (<[i := arma.stddev sample]> sigma, sample)].

Section build_sigma.

(** The text of the summary line (minimum, quartiles, maximum and mean
    of [sigma], formatted by the stream library). *)
Variable sigma_summary : list double -> string.

(** [km::KMedoids::build_sigma]; [tmp_refs] is the draw of
    [arma::randperm(N, batch_size)], [team] and [schedule] are the run
    of the parallel loop. It returns [sigma] and the object with the
    summary pushed on [logHelper.sigma_build]. *)
Definition build_sigma (o : KMedoids) (data : mat R)
  (best_distances sigma : list double) (batch_size : nat)
  (use_absolute : bool) (tmp_refs : list nat)
  (team : list (list nat)) (schedule : list nat) : list double * KMedoids :=
  let sample := replicate batch_size (Finite 0) in
  let sigma :=
    fst (omp_parallel_for
           (build_sigma_body o data best_distances tmp_refs batch_size
              use_absolute)
           team schedule (sigma, sample)) in
  (sigma,
   set_logHelper
     {| sigma_build := sigma_build (logHelper o) ++ [sigma_summary sigma];
        sigma_swap := sigma_swap (logHelper o);
        loss_swap := loss_swap (logHelper o) |} o).

End build_sigma.

(** The loop over the medoids in [calc_best_distances_swap] for point
    [i]; the state is [best], [second] and the vector [assignments]. *)
Definition medoid_scan (o : KMedoids) (data : mat R)
  (medoid_indices : list nat) (i : nat)
  (st : double * double * list nat) : double * double * list nat :=
  fold_left (fun '(best, second, assignments) k =>
      let cost := Finite (invoke_lossFn o data (medoid_indices !!! k) i) in
      if dlt cost best then (cost, best, <[i := k]> assignments)
      else if dlt cost second then (best, cost, assignments)
      else (best, second, assignments))
    (seq 0 (length medoid_indices)) st.

(** [km::KMedoids::calc_best_distances_swap] *)
Definition calc_best_distances_swap (o : KMedoids) (data : mat R)
  (medoid_indices : list nat)
  (best_distances second_distances : list double) (assignments : list nat)
  : list double * list double * list nat :=
  fold_left (fun '(best_distances, second_distances, assignments) i =>
      let '(best, second, assignments) :=
        medoid_scan o data medoid_indices i (infinity, infinity, assignments) in
      (<[i := best]> best_distances, <[i := second]> second_distances,
       assignments))
    (seq 0 (n_cols data)) (best_distances, second_distances, assignments).

(** The inner loop of [swap_sigma] for the swap of medoid position [k]
    with point [n] when no other thread writes [sample] meanwhile. *)
Definition swap_sigma_sample (o : KMedoids) (data : mat R)
  (best_distances second_best_distances : list double)
  (assignments : list nat) (tmp_refs : list nat) (batch_size : nat)
  (n k : nat) (sample : list double) : list double :=
  fold_left (fun sample j =>
      let cost := Finite (invoke_lossFn o data n (tmp_refs !!! j)) in
      let sample :=
        if (k =? assignments !!! (tmp_refs !!! j))%nat then
          if dlt cost (second_best_distances !!! (tmp_refs !!! j))
          then <[j := cost]> sample
          else <[j := second_best_distances !!! (tmp_refs !!! j)]> sample
        else
          if dlt cost (best_distances !!! (tmp_refs !!! j))
          then <[j := cost]> sample
          else <[j := best_distances !!! (tmp_refs !!! j)]> sample in
      <[j := dsub (sample !!! j) (best_distances !!! (tmp_refs !!! j))]>
        sample)
    (seq 0 batch_size) sample.

(** Iteration [i] of the loop of [swap_sigma], statement by statement,
    on the shared [sigma] and [sample]; [K] is [sigma.n_rows]. *)
Definition swap_sigma_body (o : KMedoids) (data : mat R) (K : nat)
  (best_distances second_best_distances : list double)
  (assignments : list nat) (tmp_refs : list nat) (batch_size : nat) (i : nat)
  : list (statement (mat double * list double)) :=
  let n := (i / K)%nat in
  let k := (i mod K)%nat in
  flat_map (fun j =>
      let cost := Finite (invoke_lossFn o data n (tmp_refs !!! j)) in
      [fun '(sigma, sample) =>
         (sigma,
          if (k =? assignments !!! (tmp_refs !!! j))%nat then
            if dlt cost (second_best_distances !!! (tmp_refs !!! j))
            then <[j := cost]> sample
            else <[j := second_best_distances !!! (tmp_refs !!! j)]> sample
          else
            if dlt cost (best_distances !!! (tmp_refs !!! j))
            then <[j := cost]> sample
            else <[j := best_distances !!! (tmp_refs !!! j)]> sample);
       fun '(sigma, sample) =>
         (sigma,
          <[j := dsub (sample !!! j) (best_distances !!! (tmp_refs !!! j))]>
            sample)])
    (seq 0 batch_size)
  ++ [fun '(sigma, sample) =>
        (mat_set sigma k n (arma.stddev sample), sample)].

(** [km::KMedoids::swap_sigma]; [tmp_refs] is the draw of
    [arma::randperm(N, batch_size)], [team] and [schedule] are the run
    of the parallel loop. *)
Definition swap_sigma (o : KMedoids) (data : mat R) (sigma : mat double)
  (batch_size : nat) (best_distances second_best_distances : list double)
  (assignments : list nat) (tmp_refs : list nat)
  (team : list (list nat)) (schedule : list nat) : mat double :=
  let K := n_rows sigma in
  let sample := replicate batch_size (Finite 0) in
  fst (omp_parallel_for
         (swap_sigma_body o data K best_distances second_best_distances
            assignments tmp_refs batch_size)
         team schedule (sigma, sample)).

(** [km::KMedoids::calc_loss] *)
Definition calc_loss (o : KMedoids) (data : mat R)
  (medoid_indices : list nat) : double :=
  fold_left (fun total i =>
      let cost :=
        fold_left (fun cost k =>
            let currCost :=
              Finite (invoke_lossFn o data (medoid_indices !!! k) i) in
            if dlt currCost cost then currCost else cost)
          (seq 0 (n_medoids o)) infinity in
      dadd total cost)
    (seq 0 (n_cols data)) (Finite 0).

Section sigma_log.

(** The text of the summary line, as for [build_sigma]. *)
Variable sigma_summary : list double -> string.

(** [km::KMedoids::sigma_log]: [sigma.as_row()] lists the matrix column
    by column; the summary is pushed on [logHelper.sigma_swap]. *)
Definition sigma_log (o : KMedoids) (sigma : mat double) : KMedoids :=
  let flat_sigma := mem sigma in
  set_logHelper
    {| sigma_build := sigma_build (logHelper o);
       sigma_swap := sigma_swap (logHelper o) ++ [sigma_summary flat_sigma];
       loss_swap := loss_swap (logHelper o) |} o.

End sigma_log.

End km.

Local Close Scope string_scope.

(** ** Vocabulary of the statements *)

(** The real value of a finite double. *)
Definition real_of (d : double) : R :=
  match d with
  | Finite x => x
  | _ => 0
  end.

(** The [k]-th entry of an ascending list of distances; +infinity when
    the list has no such entry. *)
Definition kth_smallest (sorted : list R) (k : nat) : double :=
  match sorted !! k with
  | Some x => Finite x
  | None => PosInf
  end.

(** The minimum of a list of reals; +infinity for the empty list. *)
Fixpoint list_min (l : list R) : double :=
  match l with
  | [] => PosInf
  | x :: l' =>
      match list_min l' with
      | Finite y => Finite (Rmin x y)
      | _ => Finite x
      end
  end.

(** The sum of a list of doubles. *)
Definition dsum (l : list double) : double := foldr dadd (Finite 0) l.

(** min(x, d) for a real [x] and a distance [d] that is finite or
    +infinity. *)
Definition min_with (x : R) (d : double) : R :=
  match d with
  | Finite y => Rmin x y
  | _ => x
  end.

(** A distance as [calc_best_distances_swap] stores it: finite or
    +infinity. *)
Definition is_distance (d : double) : Prop := is_finite d \/ d = PosInf.

(** The pairs of columns at which the loss of the object returns a
    number in the code, the one that [km.invoke_lossFn] gives:
    Armadillo's [norm] raises for [p = 0], and [cos] divides 0 by 0, a
    NaN, as soon as one of the two columns is zero. *)
Definition loss_is_number (o : KMedoids) (data : mat R) (i j : nat) : Prop :=
  match lossFn o with
  | fn_LP => (1 <= lp o)%nat
  | fn_cos =>
      Exists (fun x => x <> 0) (col data i)
      /\ Exists (fun x => x <> 0) (col data j)
  | fn_LINF | fn_manhattan => True
  end.

(** The dissimilarity 1 - (x.y)/(|x| |y|) of the specification. *)
Definition cosine_dissimilarity (data : mat R) (i j : nat) : R :=
  1 - arma.dot (col data i) (col data j)
      / (arma.norm (col data i) 2 * arma.norm (col data j) 2).

(** The BUILD reward sample of candidate [c] at reference point [j]. *)
Definition build_reward (o : KMedoids) (data : mat R) (d1 : list double)
  (use_absolute : bool) (c j : nat) : R :=
  if use_absolute then km.invoke_lossFn o data c j
  else Rmin (km.invoke_lossFn o data c j) (real_of (d1 !!! j))
       - real_of (d1 !!! j).

(** phi(j; k, n') of the SWAP reward. *)
Definition swap_phi (o : KMedoids) (data : mat R) (d1 d2 : list double)
  (a : list nat) (j k n' : nat) : R :=
  if (a !!! j =? k)%nat
  then min_with (km.invoke_lossFn o data n' j) (d2 !!! j)
  else Rmin (km.invoke_lossFn o data n' j) (real_of (d1 !!! j)).

(** The loop of [build_sigma] as a single thread runs it, one
    iteration after the other. *)
Definition build_sigma_serial (sigma_summary : list double -> string)
  (o : KMedoids) (data : mat R)
  (best_distances sigma : list double) (batch_size : nat)
  (use_absolute : bool) (tmp_refs : list nat) : list double * KMedoids :=
  let N := n_cols data in
  let sample := replicate batch_size (Finite 0) in
  let sigma :=
    fst (fold_left (fun '(sigma, sample) i =>
        let sample :=
          km.build_sigma_sample o data best_distances tmp_refs batch_size
            use_absolute i sample in
        (<[i := arma.stddev sample]> sigma, sample))
      (seq 0 N) (sigma, sample)) in
  (sigma,
   set_logHelper
     {| sigma_build := sigma_build (logHelper o) ++ [sigma_summary sigma];
        sigma_swap := sigma_swap (logHelper o);
        loss_swap := loss_swap (logHelper o) |} o).

(** The loop of [swap_sigma] as a single thread runs it. *)
Definition swap_sigma_serial (o : KMedoids) (data : mat R) (sigma : mat double)
  (batch_size : nat) (best_distances second_best_distances : list double)
  (assignments : list nat) (tmp_refs : list nat) : mat double :=
  let N := n_cols data in
  let K := n_rows sigma in
  let sample := replicate batch_size (Finite 0) in
  fst (fold_left (fun '(sigma, sample) i =>
      let n := (i / K)%nat in
      let k := (i mod K)%nat in
      let sample :=
        km.swap_sigma_sample o data best_distances second_best_distances
          assignments tmp_refs batch_size n k sample in
      (mat_set sigma k n (arma.stddev sample), sample))
    (seq 0 (K * N)) (sigma, sample)).


(** Insertion of [c] in an ascending list, before the first entry
    that is strictly greater. *)
Fixpoint insert_sorted (c : R) (l : list R) : list R :=
  match l with
  | [] => [c]
  | x :: l' => if Rlt_dec c x then c :: l else x :: insert_sorted c l'
  end.

(** What the loop over the medoids of [calc_best_distances_swap] has
    established for point [i] after [k] rounds: [best] and [second] are
    the two least of the first [k] distances [ds], and slot [i] of the
    assignments holds the first position of the least one. *)
Definition scan_invariant (ds : list R) (i : nat) (a0 : list nat) (k : nat)
  (st : double * double * list nat) : Prop :=
  let '(best, second, a) := st in
  (exists srt, Permutation srt (take k ds) /\ Sorted Rle srt
     /\ best = kth_smallest srt 0 /\ second = kth_smallest srt 1)
  /\ (k = 0%nat -> best = PosInf /\ a = a0)
  /\ ((0 < k)%nat -> exists p b,
        (p < k)%nat /\ best = Finite b /\ ds !! p = Some b
        /\ a = <[i := p]> a0
        /\ (forall q d, (q < k)%nat -> ds !! q = Some d -> b <= d)
        /\ (forall q d, (q < p)%nat -> ds !! q = Some d -> b < d)).

(** The loop over the medoids of [calc_best_distances_swap] on the list
    of the distances alone: the best, the second and the position of
    the best, if a position was written. *)
Definition point_scan (ds : list R) : double * double * option nat :=
  fold_left (fun '(best, second, pos) k =>
      let cost := Finite (ds !!! k) in
      if dlt cost best then (cost, best, Some k)
      else if dlt cost second then (best, cost, pos)
      else (best, second, pos))
    (seq 0 (length ds)) (PosInf, PosInf, None).

(** The distances from the medoids to point [i]. *)
Definition medoid_distances (o : KMedoids) (data : mat R)
  (medoids : list nat) (i : nat) : list R :=
  map (fun m => km.invoke_lossFn o data m i) medoids.

(** The three results of the scan of point [i]. *)
Definition point_best (o : KMedoids) (data : mat R) (medoids : list nat)
  (i : nat) : double :=
  (point_scan (medoid_distances o data medoids i)).1.1.

Definition point_second (o : KMedoids) (data : mat R) (medoids : list nat)
  (i : nat) : double :=
  (point_scan (medoid_distances o data medoids i)).1.2.

Definition point_position (o : KMedoids) (data : mat R) (medoids : list nat)
  (i : nat) : option nat :=
  (point_scan (medoid_distances o data medoids i)).2.

(** Slot [i] of the assignments after the scan of point [i]. *)
Definition write_position (pos : option nat) (i : nat) (a : list nat)
  : list nat :=
  match pos with
  | Some p => <[i := p]> a
  | None => a
  end.

(** A string of decimal digits only. *)
Fixpoint all_digits (s : string) : bool :=
  match s with
  | EmptyString => true
  | String c s' => isdigit c && all_digits s'
  end.

(** The first character of a string, if any, is not a digit. *)
Definition no_leading_digit (s : string) : bool :=
  match s with
  | EmptyString => true
  | String c _ => negb (isdigit c)
  end.

(** ** Sample inputs *)

#[local] Set Warnings "-abstract-large-number".

Definition log0 : LogHelper :=
  {| sigma_build := []; sigma_swap := []; loss_swap := [] |}.

(** An object as the default constructor arguments leave it. *)
Definition obj0 : KMedoids :=
  {| n_medoids := 2; algorithm := "BanditPAM"%string; max_iter := 1000;
     labels := []; medoid_indices_build := []; medoid_indices_final := [];
     lossFn := fn_manhattan; fitFn := fn_fit_bpam; logHelper := log0;
     steps := 0; buildConfidence := 1000; swapConfidence := 10000;
     verbosity := 0; logFilename := "KMedoidsLogfile"%string; lp := 1 |}.

Definition w0 : world := World obj0 [].

(** Two orthogonal points of the plane. *)
Definition X_unit : mat R := mat_of_cols 2 [[1; 0]; [0; 1]].

(** Three points on a line. *)
Definition X_line : mat R := mat_of_cols 1 [[0]; [1]; [3]].

(** * Part II: properties *)

(** ** Regular expressions: matching by derivatives is matching *)

Section regex_facts.

Local Open Scope string_scope.

Lemma append_empty_inv (s1 s2 : string) : s1 ++ s2 = "" -> s1 = "" /\ s2 = "".
Proof. destruct s1; simpl; [tauto | discriminate]. Qed.

Lemma append_cons_inv (s1 s2 s : string) (c : ascii) :
  s1 ++ s2 = String c s ->
  (s1 = "" /\ s2 = String c s) \/ (exists s1', s1 = String c s1' /\ s = s1' ++ s2).
Proof.
  destruct s1 as [|a s1']; simpl; intros E.
  - left; auto.
  - right. injection E as -> <-. eauto.
Qed.

Lemma matches_cat_inv (r1 r2 : regex) (s : string) :
  matches (re_cat r1 r2) s ->
  exists s1 s2, s = s1 ++ s2 /\ matches r1 s1 /\ matches r2 s2.
Proof. inversion 1; subst; eauto. Qed.

Lemma matches_alt_inv (r1 r2 : regex) (s : string) :
  matches (re_alt r1 r2) s -> matches r1 s \/ matches r2 s.
Proof. inversion 1; subst; auto. Qed.

Lemma matches_star_cons_inv (r : regex) (c : ascii) (s : string) :
  matches (re_star r) (String c s) ->
  exists s1 s2, s = s1 ++ s2 /\ matches r (String c s1) /\ matches (re_star r) s2.
Proof.
  intros H.
  remember (re_star r) as r' eqn:Er. remember (String c s) as s' eqn:Es.
  revert s Es.
  induction H as [| | | | | | |r0 s1 s2 H1 _ H2 IH2]; try discriminate.
  intros s Es. injection Er as ->.
  destruct (append_cons_inv _ _ _ _ Es) as [[-> ->]|(s1' & -> & ->)].
  - apply IH2; reflexivity.
  - eauto.
Qed.

Lemma nullable_matches (r : regex) : nullable r = true <-> matches r "".
Proof.
  split.
  - induction r; simpl; intros H; try discriminate.
    + constructor.
    + apply andb_true_iff in H as [H1 H2].
      change "" with ("" ++ ""). constructor; auto.
    + apply orb_true_iff in H as [H|H]; [apply m_alt_l | apply m_alt_r]; auto.
    + constructor.
  - intros H. remember "" as s eqn:Es.
    induction H; simpl; try discriminate; auto.
    + apply append_empty_inv in Es as [-> ->].
      rewrite IHmatches1, IHmatches2; auto.
    + rewrite IHmatches; auto.
    + rewrite IHmatches, orb_true_r; auto.
Qed.

Lemma deriv_matches (c : ascii) (r : regex) (s : string) :
  matches (deriv c r) s <-> matches r (String c s).
Proof.
  revert s. induction r as [| |c'| |r1 IH1 r2 IH2|r1 IH1 r2 IH2|r IH];
    intros s; simpl.
  - split; inversion 1.
  - split; inversion 1.
  - destruct (Ascii.eqb_spec c c') as [->|Hne]; split; inversion 1; subst;
      try constructor; congruence.
  - destruct (isdigit c) eqn:Hd; split; inversion 1; subst;
      try (constructor; assumption); congruence.
  - destruct (nullable r1) eqn:Hn.
    + split.
      * intros H. apply matches_alt_inv in H as [H|H].
        -- apply matches_cat_inv in H as (s1 & s2 & -> & H1 & H2).
           apply IH1 in H1.
           change (String c (s1 ++ s2)) with (String c s1 ++ s2).
           constructor; auto.
        -- apply IH2 in H. change (String c s) with ("" ++ String c s).
           constructor; auto. apply nullable_matches; auto.
      * intros H. apply matches_cat_inv in H as (s1 & s2 & E & H1 & H2).
        symmetry in E.
        destruct (append_cons_inv _ _ _ _ E) as [[-> ->]|(s1' & -> & ->)].
        -- apply m_alt_r, IH2; auto.
        -- apply m_alt_l. constructor; auto. apply IH1; auto.
    + split.
      * intros H. apply matches_cat_inv in H as (s1 & s2 & -> & H1 & H2).
        apply IH1 in H1.
        change (String c (s1 ++ s2)) with (String c s1 ++ s2).
        constructor; auto.
      * intros H. apply matches_cat_inv in H as (s1 & s2 & E & H1 & H2).
        symmetry in E.
        destruct (append_cons_inv _ _ _ _ E) as [[-> ->]|(s1' & -> & ->)].
        -- apply nullable_matches in H1. congruence.
        -- constructor; auto. apply IH1; auto.
  - split.
    + intros H. apply matches_alt_inv in H as [H|H];
        [apply m_alt_l, IH1 | apply m_alt_r, IH2]; auto.
    + intros H. apply matches_alt_inv in H as [H|H];
        [apply m_alt_l, IH1 | apply m_alt_r, IH2]; auto.
  - split.
    + intros H. apply matches_cat_inv in H as (s1 & s2 & -> & H1 & H2).
      apply IH in H1.
      change (String c (s1 ++ s2)) with (String c s1 ++ s2).
      constructor; auto.
    + intros H. apply matches_star_cons_inv in H as (s1 & s2 & -> & H1 & H2).
      constructor; auto. apply IH; auto.
Qed.

Lemma regex_match_matches (s : string) (r : regex) :
  regex_match s r = true <-> matches r s.
Proof.
  revert r. induction s as [|c s IH]; intros r; simpl.
  - apply nullable_matches.
  - rewrite IH. apply deriv_matches.
Qed.

(** The names accepted by [L\d*]: an L, then digits, possibly none. *)
Lemma re_L_digits_inv (s : string) :
  regex_match s re_L_digits = true ->
  exists ds, s = String "L" ds /\ matches (re_star re_digit) ds.
Proof.
  intros H. apply regex_match_matches in H.
  apply matches_cat_inv in H as (s1 & s2 & -> & H1 & H2).
  inversion H1; subst. simpl. eauto.
Qed.

(** An L followed by at least one digit is a name of the grammar. *)
Lemma L_digits_in_grammar (c : ascii) (ds : string) :
  matches (re_star re_digit) (String c ds) ->
  regex_match (String "L" (String c ds)) loss_grammar = true.
Proof.
  intros H. apply regex_match_matches.
  do 3 apply m_alt_r.
  change (String "L" (String c ds)) with (String "L" "" ++ String c ds).
  constructor.
  - apply m_alt_l. constructor.
  - apply matches_star_cons_inv in H as (s1 & s2 & -> & H1 & H2).
    inversion H1; subst. simpl.
    change (String c s2) with (String c "" ++ s2).
    constructor; [constructor |]; assumption.
Qed.

End regex_facts.

(** ** Selecting the algorithm and the loss *)

Section selection.

Local Open Scope string_scope.

Lemma bind_unfold {A B : Type} (m : M A) (f : A -> M B) (w : world) :
  (m ≫= f) w =
  match m w with
  | (inl e, w') => (inl e, w')
  | (inr a, w') => f a w'
  end.
Proof. reflexivity. Qed.

Example atoi_values :
  atoi "42" = 42%Z /\ atoi "7" = 7%Z /\ atoi "2x" = 2%Z
  /\ atoi " -12ab" = (-12)%Z /\ atoi "x" = 0%Z.
Proof. repeat split; reflexivity. Qed.

(** Beyond the range of [int] the value wraps. *)
Example atoi_wraps :
  atoi "2147483647" = 2147483647%Z /\ atoi "2147483648" = (-2147483648)%Z
  /\ atoi "4294967296" = 0%Z /\ atoi "99999999999999999999" = (-1)%Z
  /\ (atoi "2147483648" mod 2 ^ 64 = 2 ^ 64 - 2 ^ 31)%Z.
Proof. repeat split; vm_compute; reflexivity. Qed.

Example regex_match_values :
  regex_match "L" re_L_digits = true
  /\ regex_match "L27" re_L_digits = true
  /\ regex_match "27" re_L_digits = false
  /\ regex_match "L-1" re_L_digits = false
  /\ regex_match "L27" loss_grammar = true
  /\ regex_match "27" loss_grammar = true
  /\ regex_match "cos" loss_grammar = true
  /\ regex_match "L" loss_grammar = false
  /\ regex_match "" loss_grammar = false.
Proof. repeat split; reflexivity. Qed.

(** [setLossFn] never touches the member [algorithm]. *)
Lemma setLossFn_keeps_algorithm (loss : string) (w : world) :
  algorithm (this (snd (km.setLossFn loss w))) = algorithm (this w).
Proof.
  unfold km.setLossFn. rewrite bind_unfold.
  destruct (regex_match loss re_L_digits).
  - destruct loss as [|c0 loss']; simpl; [reflexivity|].
    unfold try_catch_invalid_argument.
    repeat (match goal with
            | |- context [if ?b then _ else _] => destruct b
            end; try reflexivity).
    destruct loss' as [|c s]; simpl; [reflexivity|].
    rewrite bind_unfold. simpl.
    destruct (isdigit c); reflexivity.
  - simpl. unfold try_catch_invalid_argument.
    repeat (match goal with
            | |- context [if ?b then _ else _] => destruct b
            end; try reflexivity).
    destruct loss as [|c s]; simpl; [reflexivity|].
    rewrite bind_unfold. simpl.
    destruct (isdigit c); reflexivity.
Qed.

(** C9. A name other than BanditPAM and naive makes [checkAlgorithm],
    hence the constructor and [fit] (which checks the stored name again
    once the loss is set), throw "unrecognized algorithm"; the two names
    of the set are accepted and select [fit_bpam] and [fit_naive]. *)
Theorem checkAlgorithm_unrecognized_throws
  (alg : string) (w : world) (n v mi bc sc : nat) (lf : string) :
  alg <> "BanditPAM" -> alg <> "naive" ->
  km.checkAlgorithm alg w = (inl (thrown_c_string "unrecognized algorithm"), w)
  /\ fst (km.KMedoids_ctor n alg v mi bc sc lf w)
     = inl (thrown_c_string "unrecognized algorithm")
  /\ (forall call_python fit_bpam fit_naive write_profile X loss m d w0 w1,
        call_python m d w0 = (inr tt, w1) ->
        fst (km.setLossFn loss w1) = inr tt ->
        algorithm (this w1) = alg ->
        km.fit call_python fit_bpam fit_naive write_profile X loss m d w0
        = (inl (thrown_c_string "unrecognized algorithm"),
           snd (km.setLossFn loss w1)))
  /\ km.checkAlgorithm "BanditPAM" w
     = (inr tt, World (set_fitFn fn_fit_bpam (this w)) (cout w))
  /\ km.checkAlgorithm "naive" w
     = (inr tt, World (set_fitFn fn_fit_naive (this w)) (cout w))
  /\ (exists w', km.KMedoids_ctor n "BanditPAM" v mi bc sc lf w = (inr tt, w')
                 /\ fitFn (this w') = fn_fit_bpam)
  /\ (exists w', km.KMedoids_ctor n "naive" v mi bc sc lf w = (inr tt, w')
                 /\ fitFn (this w') = fn_fit_naive).
Proof.
  intros H1 H2.
  assert (Hc : forall w', km.checkAlgorithm alg w'
            = (inl (thrown_c_string "unrecognized algorithm"), w')).
  { intros w'. unfold km.checkAlgorithm.
    destruct (String.eqb_spec alg "BanditPAM"); [congruence|].
    destruct (String.eqb_spec alg "naive"); [congruence|]. reflexivity. }
  repeat split.
  - apply Hc.
  - unfold km.KMedoids_ctor. rewrite bind_unfold. simpl. rewrite Hc. reflexivity.
  - intros cp fb fn wp X loss m d w0 w1 Hpy Hset Halg.
    unfold km.fit. rewrite bind_unfold, Hpy, bind_unfold.
    pose proof (setLossFn_keeps_algorithm loss w1) as Hk.
    destruct (km.setLossFn loss w1) as [[e|[]] w2]; simpl in *; [discriminate|].
    unfold km.fit_after_setLossFn. rewrite !bind_unfold. simpl.
    rewrite Hk, Halg, Hc. reflexivity.
  - eexists; split; reflexivity.
  - eexists; split; reflexivity.
Qed.

Lemma checkAlgorithm_unrecognized_throws_witness :
  "PAM" <> "BanditPAM" /\ "PAM" <> "naive"
  /\ km.checkAlgorithm "PAM" w0
     = (inl (thrown_c_string "unrecognized algorithm"), w0).
Proof.
  assert (H1 : "PAM" <> "BanditPAM") by discriminate.
  assert (H2 : "PAM" <> "naive") by discriminate.
  split; [exact H1 | split; [exact H2 |]].
  exact (proj1 (checkAlgorithm_unrecognized_throws
                  "PAM" w0 5 0 1000 1000 1000 "KMedoidsLogfile" H1 H2)).
Defined.

(** C2, as the code has it. A name outside the grammar whose first
    character is not a digit (and which is not the bare L) makes
    [setLossFn] print "error: unrecognized loss function" and return
    normally with the loss function unchanged, so [fit] carries on with
    [checkAlgorithm] and the fit function; the names L2, 2, manhattan,
    cos, inf and L7 select their loss function without an error. *)
Theorem setLossFn_unrecognized_is_printed
  (loss : string) (c : ascii) (rest : string) (w : world) :
  regex_match loss loss_grammar = false ->
  loss = String c rest -> isdigit c = false -> loss <> "L" ->
  km.setLossFn loss w
  = (inr tt, World (this w) (cout w ++ ["error: unrecognized loss function"]))
  /\ (forall call_python fit_bpam fit_naive write_profile X m d w0,
        call_python m d w0 = (inr tt, w) ->
        km.fit call_python fit_bpam fit_naive write_profile X loss m d w0
        = km.fit_after_setLossFn fit_bpam fit_naive write_profile X
            (World (this w) (cout w ++ ["error: unrecognized loss function"])))
  /\ km.setLossFn "L2" w
     = (inr tt, World (set_lp 2 (set_lossFn fn_LP (this w))) (cout w))
  /\ km.setLossFn "2" w
     = (inr tt, World (set_lp 2 (set_lossFn fn_LP (this w))) (cout w))
  /\ km.setLossFn "manhattan" w
     = (inr tt, World (set_lossFn fn_manhattan (this w)) (cout w))
  /\ km.setLossFn "cos" w
     = (inr tt, World (set_lossFn fn_cos (this w)) (cout w))
  /\ km.setLossFn "inf" w
     = (inr tt, World (set_lossFn fn_LINF (this w)) (cout w))
  /\ km.setLossFn "L7" w
     = (inr tt, World (set_lp 7 (set_lossFn fn_LP (this w))) (cout w)).
Proof.
  intros Hg Hc Hd HL.
  assert (Hset : km.setLossFn loss w
    = (inr tt, World (this w) (cout w ++ ["error: unrecognized loss function"]))).
  { assert (Hre : regex_match loss re_L_digits = false).
    { destruct (regex_match loss re_L_digits) eqn:E; [|reflexivity].
      apply re_L_digits_inv in E as (ds & -> & Hds).
      destruct ds as [|c' ds]; [congruence|].
      rewrite (L_digits_in_grammar _ _ Hds) in Hg. discriminate. }
    unfold km.setLossFn. rewrite bind_unfold, Hre. simpl.
    unfold try_catch_invalid_argument.
    destruct (String.eqb_spec loss "manhattan") as [->|_]; [discriminate Hg|].
    destruct (String.eqb_spec loss "cos") as [->|_]; [discriminate Hg|].
    destruct (String.eqb_spec loss "inf") as [->|_]; [discriminate Hg|].
    subst loss. simpl. rewrite bind_unfold. simpl. rewrite Hd. reflexivity. }
  split; [exact Hset|]. split.
  - intros cp fb fn wp X m d w1 Hpy.
    unfold km.fit. rewrite bind_unfold, Hpy, bind_unfold, Hset. reflexivity.
  - repeat split; reflexivity.
Qed.

Lemma setLossFn_unrecognized_is_printed_witness :
  regex_match "L-1" loss_grammar = false
  /\ "L-1" = String "L" "-1" /\ isdigit "L" = false /\ "L-1" <> "L"
  /\ km.setLossFn "L-1" w0
     = (inr tt, World obj0 ["error: unrecognized loss function"]).
Proof.
  assert (H1 : regex_match "L-1" loss_grammar = false) by reflexivity.
  assert (H2 : "L-1" = String "L" "-1") by reflexivity.
  assert (H3 : isdigit "L" = false) by reflexivity.
  assert (H4 : "L-1" <> "L") by discriminate.
  repeat (split; [assumption|]).
  exact (proj1 (setLossFn_unrecognized_is_printed "L-1" "L" "-1" w0 H1 H2 H3 H4)).
Defined.

(** C2 as stated fails: L-1 is outside the grammar, and [setLossFn]
    returns normally on it, so not every such name raises an error. *)
Lemma setLossFn_error_not_raised :
  ~ (forall (loss : string) (w : world),
       regex_match loss loss_grammar = false ->
       exists e, fst (km.setLossFn loss w) = inl e).
Proof.
  intros H. destruct (H "L-1" w0) as [e He]; [reflexivity|].
  vm_compute in He. discriminate He.
Qed.

(** A digit is none of the first letters of the named losses. *)
Lemma digit_not_letter (c : ascii) :
  isdigit c = true ->
  Ascii.eqb c "m" = false /\ Ascii.eqb c "c" = false /\ Ascii.eqb c "i" = false.
Proof.
  intros Hd. repeat split;
    match goal with
    | |- Ascii.eqb c ?x = false =>
        destruct (Ascii.eqb_spec c x) as [->|_]; [discriminate Hd | reflexivity]
    end.
Qed.

(** An L followed by at least one digit: the read of character 0 is in
    bounds and the name selects LP. *)
Lemma setLossFn_L_digits (c : ascii) (ds : string) (w : world) :
  regex_match (String "L" (String c ds)) re_L_digits = true ->
  km.setLossFn (String "L" (String c ds)) w
  = (inr tt,
     World (set_lp (Z.to_nat (atoi (String c ds) mod 2 ^ 64))
                   (set_lossFn fn_LP (this w)))
           (cout w)).
Proof.
  intros Hre.
  assert (Hd : isdigit c = true).
  { apply re_L_digits_inv in Hre as (ds' & E & Hds). injection E as <-.
    apply matches_star_cons_inv in Hds as (s1 & s2 & _ & H1 & _).
    inversion H1; subst; assumption. }
  destruct (digit_not_letter c Hd) as (Hm & Hc & Hi).
  unfold km.setLossFn. rewrite bind_unfold, Hre. simpl.
  unfold try_catch_invalid_argument. rewrite Hm, Hc, Hi.
  rewrite bind_unfold. simpl. rewrite Hd. reflexivity.
Qed.

(** A name that starts with a digit is taken for LP whatever follows
    the digits. *)
Example setLossFn_digit_prefix (w : world) :
  regex_match "2x" loss_grammar = false
  /\ km.setLossFn "2x" w
     = (inr tt, World (set_lp 2 (set_lossFn fn_LP (this w))) (cout w)).
Proof. split; reflexivity. Qed.

(** C10. The bare name L is accepted by [L\d*] and is not a name of the
    grammar; stripping the L leaves the empty string, the read of
    character 0 is out of bounds and [at] throws [std::out_of_range],
    which the handler for [std::invalid_argument] lets through. *)
Theorem setLossFn_bare_L_out_of_range (w : world) :
  regex_match "L" re_L_digits = true
  /\ regex_match "L" loss_grammar = false
  /\ km.setLossFn "L" w = (inl out_of_range, w).
Proof. repeat split; reflexivity. Qed.

End selection.

(** ** The loss functions *)

Example double_special_values :
  dadd PosInf NegInf = NaN /\ dadd (Finite 1) PosInf = PosInf
  /\ dsub PosInf PosInf = NaN /\ dsub (Finite 1) PosInf = NegInf
  /\ dlt NaN PosInf = false /\ dlt PosInf PosInf = false
  /\ dlt (Finite 1) PosInf = true.
Proof. repeat split; reflexivity. Qed.

Section losses.

Lemma accu_nonneg (v : list R) : Forall (fun x => 0 <= x) v -> 0 <= arma.accu v.
Proof.
  induction 1 as [|x v Hx _ IH]; simpl; [lra|].
  change (foldr Rplus 0 v) with (arma.accu v). lra.
Qed.

Lemma accu_abs_pow_nonneg (v : list R) (p : nat) :
  0 <= arma.accu (map (fun x => Rabs x ^ p) v).
Proof.
  apply accu_nonneg, Forall_forall. intros y Hy.
  apply list_elem_of_fmap in Hy as (x & -> & _).
  apply pow_le, Rabs_pos.
Qed.

Lemma accu_zeros (v : list R) : Forall (fun x => x = 0) v -> arma.accu v = 0.
Proof.
  induction 1 as [|x v Hx _ IH]; simpl; [reflexivity|].
  change (foldr Rplus 0 v) with (arma.accu v). lra.
Qed.

Lemma root_zero (p : nat) : arma.root p 0 = 0.
Proof. unfold arma.root. destruct (Req_dec_T 0 0); [reflexivity | lra]. Qed.

Lemma root_one (p : nat) : arma.root p 1 = 1.
Proof.
  unfold arma.root. destruct (Req_dec_T 1 0); [lra|].
  unfold Rpower. rewrite ln_1, Rmult_0_r. apply exp_0.
Qed.

(** The first root is the identity on the non-negative reals. *)
Lemma root_1 (x : R) : 0 <= x -> arma.root 1 x = x.
Proof.
  intros Hx. unfold arma.root. destruct (Req_dec_T x 0) as [->|Hne]; [reflexivity|].
  simpl. rewrite Rinv_1. apply Rpower_1. lra.
Qed.

(** The second root squares back. *)
Lemma root_2_square (x : R) : 0 < x -> arma.root 2 x * arma.root 2 x = x.
Proof.
  intros Hx. unfold arma.root. destruct (Req_dec_T x 0) as [->|Hne]; [lra|].
  rewrite <- Rpower_plus.
  replace (/ INR 2 + / INR 2) with 1 by (simpl; lra).
  apply Rpower_1; assumption.
Qed.

Lemma minus_self_zero (v : list R) : Forall (fun x => x = 0) (arma.minus v v).
Proof.
  unfold arma.minus. induction v as [|x v IH]; simpl; constructor; [lra | exact IH].
Qed.

Lemma abs_minus_sym (a b : list R) :
  arma.abs (arma.minus a b) = arma.abs (arma.minus b a).
Proof.
  unfold arma.abs, arma.minus. revert b.
  induction a as [|x a IH]; intros [|y b]; simpl; try reflexivity.
  rewrite IH. f_equal. apply Rabs_minus_sym.
Qed.

Lemma abs_pow_map (v : list R) (p : nat) :
  map (fun x => Rabs x ^ p) v = map (fun x => x ^ p) (arma.abs v).
Proof. unfold arma.abs. rewrite map_map. reflexivity. Qed.

Lemma max_zeros (v : list R) : Forall (fun x => x = 0) v -> arma.max v = 0.
Proof.
  intros H. destruct H as [|x v -> Hv]; simpl; [reflexivity|].
  induction Hv as [|y v -> _ IH]; simpl; [reflexivity|].
  rewrite Rmax_left by lra. exact IH.
Qed.

(** C8. With [lp = 1] the LP loss is the Manhattan loss, the sum of
    the absolute coordinate differences. *)
Theorem manhattan_is_LP_1 (o : KMedoids) (data : mat R) (i j : nat) :
  lp o = 1%nat ->
  km.manhattan o data i j = km.LP o data i j
  /\ km.manhattan o data i j
     = arma.accu (map Rabs (zip_with Rminus (col data i) (col data j))).
Proof.
  intros Hp. split; [|reflexivity].
  unfold km.manhattan, km.LP, arma.norm. rewrite Hp.
  rewrite root_1 by apply accu_abs_pow_nonneg.
  unfold arma.abs. f_equal. apply map_ext. intros x. simpl. lra.
Qed.

Lemma manhattan_is_LP_1_witness :
  lp obj0 = 1%nat /\ km.manhattan obj0 X_line 0 2 = km.LP obj0 X_line 0 2.
Proof.
  split; [reflexivity|].
  exact (proj1 (manhattan_is_LP_1 obj0 X_line 0 2 eq_refl)).
Defined.

Lemma manhattan_self (o : KMedoids) (data : mat R) (i : nat) :
  km.manhattan o data i i = 0.
Proof.
  unfold km.manhattan. apply accu_zeros.
  unfold arma.abs. apply Forall_forall. intros y Hy.
  apply list_elem_of_fmap in Hy as (x & -> & Hx).
  pose proof (minus_self_zero (col data i)) as Hz.
  rewrite Forall_forall in Hz. rewrite (Hz x Hx). apply Rabs_R0.
Qed.

Lemma manhattan_sym (o : KMedoids) (data : mat R) (i j : nat) :
  km.manhattan o data i j = km.manhattan o data j i.
Proof. unfold km.manhattan. rewrite abs_minus_sym. reflexivity. Qed.

Lemma LINF_self (o : KMedoids) (data : mat R) (i : nat) :
  km.LINF o data i i = 0.
Proof.
  unfold km.LINF. apply max_zeros.
  unfold arma.abs. apply Forall_forall. intros y Hy.
  apply list_elem_of_fmap in Hy as (x & -> & Hx).
  pose proof (minus_self_zero (col data i)) as Hz.
  rewrite Forall_forall in Hz. rewrite (Hz x Hx). apply Rabs_R0.
Qed.

Lemma LINF_sym (o : KMedoids) (data : mat R) (i j : nat) :
  km.LINF o data i j = km.LINF o data j i.
Proof. unfold km.LINF. rewrite abs_minus_sym. reflexivity. Qed.

Lemma LP_self (o : KMedoids) (data : mat R) (i : nat) :
  (1 <= lp o)%nat -> km.LP o data i i = 0.
Proof.
  intros Hp. unfold km.LP, arma.norm.
  rewrite accu_zeros; [apply root_zero|].
  apply Forall_forall. intros y Hy.
  apply list_elem_of_fmap in Hy as (x & -> & Hx).
  pose proof (minus_self_zero (col data i)) as Hz.
  rewrite Forall_forall in Hz. rewrite (Hz x Hx), Rabs_R0.
  apply pow_i. lia.
Qed.

Lemma LP_sym (o : KMedoids) (data : mat R) (i j : nat) :
  km.LP o data i j = km.LP o data j i.
Proof.
  unfold km.LP, arma.norm. rewrite !abs_pow_map, abs_minus_sym. reflexivity.
Qed.

Lemma dot_self_norm (v : list R) :
  arma.dot v v = arma.accu (map (fun x => Rabs x ^ 2) v).
Proof.
  unfold arma.dot, arma.accu. induction v as [|x v IH]; [reflexivity|].
  cbn [zip_with map foldr]. rewrite IH, pow2_abs. simpl. lra.
Qed.

Lemma accu_cons (x : R) (v : list R) : arma.accu (x :: v) = x + arma.accu v.
Proof. reflexivity. Qed.

Lemma dot_self_pos (v : list R) : Exists (fun x => x <> 0) v -> 0 < arma.dot v v.
Proof.
  intros H. rewrite dot_self_norm.
  induction H as [x v Hx|x v _ IH]; cbn [map]; rewrite accu_cons.
  - pose proof (accu_abs_pow_nonneg v 2) as Hv.
    assert (0 < Rabs x ^ 2) by (apply pow_lt, Rabs_pos_lt; exact Hx). lra.
  - assert (0 <= Rabs x ^ 2) by (apply pow_le, Rabs_pos). lra.
Qed.

(** On a non-zero column the cosine of a point with itself is 1. *)
Lemma cos_self (o : KMedoids) (data : mat R) (i : nat) :
  Exists (fun x => x <> 0) (col data i) -> km.cos o data i i = 1.
Proof.
  intros H. unfold km.cos, arma.norm.
  pose proof (dot_self_pos _ H) as Hpos.
  rewrite <- dot_self_norm.
  rewrite root_2_square by exact Hpos.
  field. lra.
Qed.

Lemma cosine_is_symmetric (o : KMedoids) (data : mat R) (i j : nat) :
  km.cos o data i j = km.cos o data j i.
Proof.
  unfold km.cos. f_equal; [|apply Rmult_comm].
  unfold arma.dot. f_equal. generalize (col data i) (col data j).
  induction l as [|x l IH]; intros [|y l']; simpl; try reflexivity.
  rewrite IH. f_equal. apply Rmult_comm.
Qed.

(** What holds of dist(i, i) and of symmetry, loss by loss. *)
Lemma distance_laws_by_loss (o : KMedoids) (data : mat R) (i j : nat) :
  (lossFn o = fn_manhattan -> km.invoke_lossFn o data i i = 0)
  /\ (lossFn o = fn_LINF -> km.invoke_lossFn o data i i = 0)
  /\ (lossFn o = fn_LP -> (1 <= lp o)%nat -> km.invoke_lossFn o data i i = 0)
  /\ (lossFn o = fn_cos -> Exists (fun x => x <> 0) (col data i) ->
      km.invoke_lossFn o data i i = 1)
  /\ km.invoke_lossFn o data i j = km.invoke_lossFn o data j i.
Proof.
  unfold km.invoke_lossFn. repeat split.
  - intros ->. apply manhattan_self.
  - intros ->. apply LINF_self.
  - intros -> Hp. apply LP_self, Hp.
  - intros -> Hc. apply cos_self, Hc.
  - destruct (lossFn o);
      [apply LP_sym | apply LINF_sym | apply cosine_is_symmetric | apply manhattan_sym].
Qed.

Lemma col_X_unit_0 : col X_unit 0 = [1; 0].
Proof. reflexivity. Qed.

Lemma col_X_unit_1 : col X_unit 1 = [0; 1].
Proof. reflexivity. Qed.

Lemma norm_X_unit_0 : arma.norm [1; 0] 2 = 1.
Proof.
  unfold arma.norm. simpl. rewrite Rabs_R1, Rabs_R0.
  replace (1 * (1 * 1) + (0 * (0 * 1) + 0)) with 1 by lra. apply root_one.
Qed.

Lemma norm_X_unit_1 : arma.norm [0; 1] 2 = 1.
Proof.
  unfold arma.norm. simpl. rewrite Rabs_R1, Rabs_R0.
  replace (0 * (0 * 1) + (1 * (1 * 1) + 0)) with 1 by lra. apply root_one.
Qed.

(** C1. [cos] returns the cosine similarity, that is, one minus the
    dissimilarity of the specification. On the orthogonal points (1,0)
    and (0,1) it returns 0 where the dissimilarity is 1, and on (1,0)
    with itself it returns 1 where the dissimilarity is 0. *)
Theorem cos_returns_similarity (o : KMedoids) :
  (forall data i j, km.cos o data i j = 1 - cosine_dissimilarity data i j)
  /\ km.cos o X_unit 0 1 = 0 /\ cosine_dissimilarity X_unit 0 1 = 1
  /\ km.cos o X_unit 0 0 = 1 /\ cosine_dissimilarity X_unit 0 0 = 0.
Proof.
  split; [intros; unfold km.cos, cosine_dissimilarity; lra|].
  unfold km.cos, cosine_dissimilarity.
  rewrite col_X_unit_0, col_X_unit_1, norm_X_unit_0, norm_X_unit_1.
  unfold arma.dot. simpl. repeat split; lra.
Qed.

(** C7. Under the cosine loss the distance of the point (1,0) to itself
    is 1, not 0. *)
Theorem cos_self_distance_is_one (o : KMedoids) :
  km.invoke_lossFn (set_lossFn fn_cos o) X_unit 0 0 = 1
  /\ km.invoke_lossFn (set_lossFn fn_cos o) X_unit 0 0 <> 0.
Proof.
  assert (H : km.invoke_lossFn (set_lossFn fn_cos o) X_unit 0 0 = 1).
  { unfold km.invoke_lossFn. simpl. apply cos_self.
    rewrite col_X_unit_0. left. lra. }
  split; [exact H | rewrite H; lra].
Qed.

End losses.

(** ** Loops and doubles *)

Section loops.

(** A [for (k = 0; k < n; k++)] loop keeps an invariant indexed by [k]. *)
Lemma for_loop_invariant_from {St : Type} (P : nat -> St -> Prop)
  (body : St -> nat -> St) (a n : nat) (s : St) :
  P a s ->
  (forall k s', (a <= k < a + n)%nat -> P k s' -> P (S k) (body s' k)) ->
  P (a + n)%nat (fold_left body (seq a n) s).
Proof.
  revert a s. induction n as [|n IH]; intros a s H0 Hstep; simpl.
  - rewrite Nat.add_0_r. exact H0.
  - replace (a + S n)%nat with (S a + n)%nat by lia.
    apply IH.
    + apply Hstep; [lia | exact H0].
    + intros k s' Hk. apply Hstep. lia.
Qed.

Lemma for_loop_invariant {St : Type} (P : nat -> St -> Prop)
  (body : St -> nat -> St) (n : nat) (s : St) :
  P 0%nat s ->
  (forall k s', (k < n)%nat -> P k s' -> P (S k) (body s' k)) ->
  P n (fold_left body (seq 0 n) s).
Proof.
  intros H0 Hstep. apply (for_loop_invariant_from P body 0 n s H0).
  intros k s' Hk. apply Hstep. lia.
Qed.

Lemma fold_left_body_ext {St B : Type} (f g : St -> B -> St) (l : list B) (s : St) :
  (forall s' b, f s' b = g s' b) -> fold_left f l s = fold_left g l s.
Proof.
  intros Hfg. revert s. induction l as [|b l IH]; intros s; simpl; [reflexivity|].
  rewrite Hfg. apply IH.
Qed.

Lemma dlt_finite (x y : R) : dlt (Finite x) (Finite y) = true <-> x < y.
Proof. simpl. destruct (Rlt_dec x y); split; intros; congruence. Qed.

Lemma dlt_finite_false (x y : R) : dlt (Finite x) (Finite y) = false <-> y <= x.
Proof. simpl. destruct (Rlt_dec x y); split; intros; try congruence; lra. Qed.

Lemma dadd_assoc (a b c : double) : dadd a (dadd b c) = dadd (dadd a b) c.
Proof. destruct a, b, c; simpl; try reflexivity. f_equal. lra. Qed.

Lemma dadd_0_l (a : double) : dadd (Finite 0) a = a.
Proof. destruct a; simpl; try reflexivity. f_equal. lra. Qed.

Lemma dadd_0_r (a : double) : dadd a (Finite 0) = a.
Proof. destruct a; simpl; try reflexivity. f_equal. lra. Qed.

(** Adding the terms one after the other gives their sum. *)
Lemma fold_left_dadd (f : nat -> double) (l : list nat) (a : double) :
  fold_left (fun total i => dadd total (f i)) l a = dadd a (dsum (map f l)).
Proof.
  revert a. induction l as [|i l IH]; intros a; simpl.
  - symmetry. apply dadd_0_r.
  - rewrite IH. symmetry. apply dadd_assoc.
Qed.

Lemma list_min_cases (l : list R) :
  (l = [] /\ list_min l = PosInf) \/ (l <> [] /\ is_finite (list_min l)).
Proof.
  destruct l as [|x l]; [left; auto | right]. split; [discriminate|].
  simpl. destruct (list_min l); eexists; reflexivity.
Qed.

(** [list_min] is the least element of a non-empty list. *)
Lemma list_min_least (l : list R) :
  l <> [] ->
  exists x, list_min l = Finite x /\ x ∈ l /\ forall y, y ∈ l -> x <= y.
Proof.
  induction l as [|x l IH]; [congruence|]. intros _.
  destruct l as [|x' l'].
  - exists x. simpl. repeat split; [constructor|].
    intros y Hy. apply list_elem_of_singleton in Hy. lra.
  - destruct IH as (m & Hm & Hin & Hle); [discriminate|].
    change (list_min (x :: x' :: l')) with
      (match list_min (x' :: l') with
       | Finite y => Finite (Rmin x y) | _ => Finite x end).
    rewrite Hm. exists (Rmin x m). split; [reflexivity|]. split.
    + unfold Rmin. destruct (Rle_dec x m); [left | right; exact Hin].
    + intros y Hy. apply elem_of_cons in Hy as [->|Hy].
      * apply Rmin_l.
      * pose proof (Hle y Hy). pose proof (Rmin_r x m). lra.
Qed.

(** One more element at the end: the comparison of the loop. *)
Lemma list_min_snoc (l : list R) (c : R) :
  list_min (l ++ [c])
  = if dlt (Finite c) (list_min l) then Finite c else list_min l.
Proof.
  induction l as [|x l IH]; [reflexivity|].
  change (list_min ((x :: l) ++ [c])) with
    (match list_min (l ++ [c]) with
     | Finite y => Finite (Rmin x y) | _ => Finite x end).
  change (list_min (x :: l)) with
    (match list_min l with
     | Finite y => Finite (Rmin x y) | _ => Finite x end).
  rewrite IH.
  destruct (list_min_cases l) as [[-> E]|[_ [m E]]]; rewrite E; simpl.
  - unfold Rmin. destruct (Rlt_dec c x), (Rle_dec x c); try reflexivity;
      try (f_equal; lra).
  - unfold Rmin.
    destruct (Rlt_dec c m), (Rle_dec x c), (Rle_dec x m);
      simpl; repeat (match goal with |- context [Rlt_dec ?a ?b] =>
                       destruct (Rlt_dec a b) end);
      try reflexivity; try (f_equal; lra); try lra.
Qed.

End loops.

(** ** [calc_loss] *)

Section calc_loss_facts.

Variables (o : KMedoids) (data : mat R) (medoids : list nat).

Lemma lookup_total_lookup {A : Type} `{Inhabited A} (l : list A) (k : nat) :
  (k < length l)%nat -> l !! k = Some (l !!! k).
Proof. intros Hk. apply list_lookup_lookup_total_lt, Hk. Qed.

(** The inner loop of [calc_loss] computes the least distance from the
    medoids to point [i]. *)
Lemma calc_loss_inner (i : nat) :
  fold_left (fun cost k =>
      let currCost := Finite (km.invoke_lossFn o data (medoids !!! k) i) in
      if dlt currCost cost then currCost else cost)
    (seq 0 (length medoids)) infinity
  = list_min (map (fun m => km.invoke_lossFn o data m i) medoids).
Proof.
  set (ds := map (fun m => km.invoke_lossFn o data m i) medoids).
  rewrite <- (firstn_all ds) at 1.
  replace (length ds) with (length medoids) by (unfold ds; rewrite length_map; reflexivity).
  apply (for_loop_invariant (fun k cost => cost = list_min (take k ds))).
  - reflexivity.
  - intros k cost Hk ->.
    assert (Hds : ds !! k = Some (km.invoke_lossFn o data (medoids !!! k) i)).
    { unfold ds. rewrite list_lookup_fmap, (lookup_total_lookup medoids k Hk). reflexivity. }
    rewrite (take_S_r _ _ _ Hds), list_min_snoc. reflexivity.
Qed.

End calc_loss_facts.

(** C6. [calc_loss] returns the sum, over the points, of the least
    distance from a medoid to the point; the least distance is attained
    at a medoid and is below the distance from every medoid. The
    distances from the medoids to the points are taken to be numbers:
    not the NaN of [cos] on a zero column, and not LP with [lp = 0]. *)
Theorem calc_loss_is_sum_of_minima (o : KMedoids) (data : mat R) (medoids : list nat) :
  length medoids = n_medoids o ->
  Forall (fun m => (m < n_cols data)%nat) medoids ->
  (forall m i, m ∈ medoids -> (i < n_cols data)%nat ->
     loss_is_number o data m i) ->
  km.calc_loss o data medoids
  = dsum (map (fun i => list_min (map (fun m => km.invoke_lossFn o data m i) medoids))
              (seq 0 (n_cols data)))
  /\ (medoids <> [] -> forall i, exists m,
        m ∈ medoids
        /\ list_min (map (fun m => km.invoke_lossFn o data m i) medoids)
           = Finite (km.invoke_lossFn o data m i)
        /\ forall m', m' ∈ medoids ->
             km.invoke_lossFn o data m i <= km.invoke_lossFn o data m' i).
Proof.
  intros Hlen _ _. split.
  - unfold km.calc_loss. rewrite <- Hlen.
    rewrite (fold_left_body_ext _
      (fun total i => dadd total
         (list_min (map (fun m => km.invoke_lossFn o data m i) medoids)))).
    + rewrite fold_left_dadd. apply dadd_0_l.
    + intros total i. f_equal. apply calc_loss_inner.
  - intros Hne i.
    destruct (list_min_least (map (fun m => km.invoke_lossFn o data m i) medoids))
      as (x & Hx & Hin & Hle).
    { destruct medoids; [congruence | discriminate]. }
    apply list_elem_of_fmap in Hin as (m & -> & Hm).
    exists m. repeat split; [exact Hm | exact Hx |].
    intros m' Hm'. apply Hle. apply list_elem_of_fmap. eauto.
Qed.

(** ** [calc_best_distances_swap] *)

Section scan_facts.

Lemma insert_sorted_perm (c : R) (l : list R) :
  Permutation (insert_sorted c l) (l ++ [c]).
Proof.
  induction l as [|x l IH]; simpl; [reflexivity|].
  destruct (Rlt_dec c x).
  - change (x :: l ++ [c]) with ((x :: l) ++ [c]).
    rewrite Permutation_app_comm. reflexivity.
  - constructor. exact IH.
Qed.

Lemma insert_sorted_sorted (c : R) (l : list R) :
  Sorted Rle l -> Sorted Rle (insert_sorted c l).
Proof.
  induction l as [|x l IH]; simpl; intros Hs.
  - repeat constructor.
  - destruct (Rlt_dec c x) as [Hlt|Hge].
    + constructor; [exact Hs | constructor; lra].
    + apply Sorted_inv in Hs as [Hs Hhd]. constructor; [apply IH, Hs|].
      destruct l as [|y l]; simpl.
      * constructor. lra.
      * destruct (Rlt_dec c y); constructor; [lra|].
        inversion Hhd; assumption.
Qed.

(** The two least entries after an insertion: the comparisons of the
    loop over the medoids. *)
Lemma kth_insert_0 (c : R) (l : list R) :
  kth_smallest (insert_sorted c l) 0
  = if dlt (Finite c) (kth_smallest l 0) then Finite c else kth_smallest l 0.
Proof.
  destruct l as [|x l]; [reflexivity|].
  unfold kth_smallest. simpl. destruct (Rlt_dec c x); reflexivity.
Qed.

Lemma kth_insert_1 (c : R) (l : list R) :
  kth_smallest (insert_sorted c l) 1
  = if dlt (Finite c) (kth_smallest l 0) then kth_smallest l 0
    else if dlt (Finite c) (kth_smallest l 1) then Finite c
    else kth_smallest l 1.
Proof.
  destruct l as [|x [|y l]]; [reflexivity| |];
    unfold kth_smallest; simpl; destruct (Rlt_dec c x); try reflexivity.
  destruct (Rlt_dec c y); reflexivity.
Qed.

(** In an ascending list the first entry is below the second. *)
Lemma kth_sorted_le (l : list R) :
  Sorted Rle l -> dle (kth_smallest l 0) (kth_smallest l 1).
Proof.
  intros Hs. destruct l as [|x [|y l]]; unfold kth_smallest; simpl; auto.
  apply Sorted_inv in Hs as [_ Hhd]. inversion Hhd; assumption.
Qed.

Variables (o : KMedoids) (data : mat R) (medoids : list nat) (i : nat).

Lemma medoid_scan_scanned (a0 : list nat) :
  scan_invariant (map (fun m => km.invoke_lossFn o data m i) medoids) i a0
    (length medoids)
    (km.medoid_scan o data medoids i (infinity, infinity, a0)).
Proof.
  unfold km.medoid_scan.
  set (ds := map (fun m => km.invoke_lossFn o data m i) medoids).
  apply (for_loop_invariant (scan_invariant ds i a0)).
  - split; [|split].
    + exists []. repeat split; constructor.
    + intros _. split; reflexivity.
    + intros Hk. lia.
  - intros k [[best second] a] Hk (Hsrt & H0 & Hpos).
    set (c := km.invoke_lossFn o data (medoids !!! k) i).
    assert (Hds : ds !! k = Some c).
    { unfold ds, c. rewrite list_lookup_fmap.
      rewrite (list_lookup_lookup_total_lt medoids k Hk). reflexivity. }
    destruct Hsrt as (srt & Hperm & Hsorted & Hb & Hs).
    assert (Hsrt' : exists srt', Permutation srt' (take (S k) ds)
              /\ Sorted Rle srt'
              /\ (if dlt (Finite c) best then Finite c else best)
                 = kth_smallest srt' 0
              /\ (if dlt (Finite c) best then best
                  else if dlt (Finite c) second then Finite c else second)
                 = kth_smallest srt' 1).
    { exists (insert_sorted c srt). repeat split.
      - rewrite (take_S_r _ _ _ Hds), insert_sorted_perm, Hperm. reflexivity.
      - apply insert_sorted_sorted, Hsorted.
      - rewrite kth_insert_0, <- Hb. reflexivity.
      - rewrite kth_insert_1, <- Hb, <- Hs. reflexivity. }
    destruct Hsrt' as (srt' & Hperm' & Hsorted' & Hb' & Hs').
    destruct (Nat.eq_dec k 0%nat) as [->|Hk0].
    + destruct (H0 eq_refl) as [-> ->]. simpl in *.
      split; [exists srt'; auto|]. split; [intros; lia|].
      intros _. exists 0%nat, c. repeat split; auto.
      * intros q d Hq Hd. assert (q = 0%nat) as -> by lia.
        rewrite Hds in Hd. injection Hd as ->. lra.
      * intros q d Hq. lia.
    + destruct Hpos as (p & b & Hp & -> & Hdp & -> & Hmin & Hfirst); [lia|].
      destruct (dlt (Finite c) (Finite b)) eqn:Hlt.
      * apply dlt_finite in Hlt.
        split; [exists srt'; auto|]. split; [intros; lia|].
        intros _. exists k, c. repeat split; auto.
        -- apply list_insert_insert_eq.
        -- intros q d Hq Hd. destruct (Nat.eq_dec q k) as [->|Hne].
           ++ rewrite Hds in Hd. injection Hd as ->. lra.
           ++ assert (b <= d) by (apply (Hmin q); [lia | exact Hd]). lra.
        -- intros q d Hq Hd.
           assert (b <= d) by (apply (Hmin q); [lia | exact Hd]). lra.
      * apply dlt_finite_false in Hlt.
        assert (Hrest : (0 < S k)%nat -> exists p' b',
          (p' < S k)%nat /\ Finite b = Finite b' /\ ds !! p' = Some b'
          /\ <[i := p]> a0 = <[i := p']> a0
          /\ (forall q d, (q < S k)%nat -> ds !! q = Some d -> b' <= d)
          /\ (forall q d, (q < p')%nat -> ds !! q = Some d -> b' < d)).
        { intros _. exists p, b. repeat split; auto.
          intros q d Hq Hd. destruct (Nat.eq_dec q k) as [->|Hne].
          - rewrite Hds in Hd. injection Hd as ->. lra.
          - apply (Hmin q); [lia | exact Hd]. }
        destruct (dlt (Finite c) second);
          (split; [exists srt'; auto|]; split; [intros; lia | exact Hrest]).
Qed.

End scan_facts.

Section swap_distances.

Variables (o : KMedoids) (data : mat R) (medoids : list nat).


End swap_distances.


(** ** The sigma estimates *)

Section sigma_facts.

Lemma finite_values_map (xs : list R) : finite_values (map Finite xs) = Some xs.
Proof. induction xs as [|x xs IH]; simpl; [|rewrite IH]; reflexivity. Qed.

(** On finite samples [arma::stddev] is the sample standard deviation. *)
Lemma stddev_finite (xs : list R) :
  arma.stddev (map Finite xs) = Finite (arma.stddev_R xs).
Proof.
  unfold arma.stddev, arma.stddev_R, arma.var.
  rewrite length_map, finite_values_map.
  destruct (length xs <? 2)%nat; [rewrite sqrt_0|]; reflexivity.
Qed.

(** The standard deviation of zeros is zero. *)
Lemma stddev_R_zeros (v : list R) :
  Forall (fun x => x = 0) v -> arma.stddev_R v = 0.
Proof.
  intros Hz. unfold arma.stddev_R, arma.var.
  destruct (length v <? 2)%nat; [apply sqrt_0|].
  assert (Hm : arma.mean v = 0).
  { unfold arma.mean. rewrite (accu_zeros v Hz). unfold Rdiv. apply Rmult_0_l. }
  rewrite accu_zeros.
  - unfold Rdiv. rewrite Rmult_0_l. apply sqrt_0.
  - rewrite Forall_forall in Hz. apply Forall_forall. intros y Hy.
    apply list_elem_of_fmap in Hy as (x & -> & Hx).
    rewrite (Hz x Hx), Hm. simpl. lra.
Qed.

(** A loop that stores [g j] in slot [j] of a buffer of [B] slots leaves
    the buffer holding [g 0 .. g (B-1)], whatever it held before. *)
Lemma fill_buffer (g : nat -> double) (body : list double -> nat -> list double)
  (B : nat) (sample : list double) :
  length sample = B ->
  (forall s j, (j < B)%nat -> length s = B -> body s j = <[j := g j]> s) ->
  fold_left body (seq 0 B) sample = map g (seq 0 B).
Proof.
  intros Hlen Hbody.
  pose (Inv := fun (k : nat) (s : list double) =>
          length s = B /\ forall j, (j < k)%nat -> s !! j = Some (g j)).
  assert (Hinv : Inv B (fold_left body (seq 0 B) sample)).
  { apply (for_loop_invariant Inv).
    - split; [exact Hlen | intros; lia].
    - intros k s Hk [Hl Hs]. rewrite (Hbody s k Hk Hl). split.
      + rewrite length_insert. exact Hl.
      + intros j Hj. destruct (Nat.eq_dec j k) as [->|Hne].
        * apply list_lookup_insert_eq. lia.
        * rewrite list_lookup_insert_ne by auto. apply Hs. lia. }
  destruct Hinv as [Hl Hs].
  apply (list_eq_same_length _ _ B); [rewrite length_map, length_seq; reflexivity | exact Hl |].
  intros j x y Hj Hx Hy. rewrite (Hs j Hj) in Hx. injection Hx as <-.
  rewrite list_lookup_fmap, lookup_seq_lt in Hy by exact Hj.
  injection Hy as <-. reflexivity.
Qed.

(** Reading the references through their positions is mapping over them. *)
Lemma map_over_refs {A : Type} (h : nat -> A) (refs : list nat) :
  map (fun j => h (refs !!! j)) (seq 0 (length refs)) = map h refs.
Proof.
  apply (list_eq_same_length _ _ (length refs));
    [rewrite length_map; reflexivity | rewrite length_map, length_seq; reflexivity |].
  intros j x y Hj Hx Hy.
  rewrite list_lookup_fmap, lookup_seq_lt in Hx by exact Hj.
  rewrite list_lookup_fmap, (list_lookup_lookup_total_lt refs j Hj) in Hy.
  simpl in Hx, Hy. congruence.
Qed.

Lemma write_then_subtract (s : list double) (j : nat) (v b : double) :
  (j < length s)%nat ->
  <[j := dsub (<[j := v]> s !!! j) b]> (<[j := v]> s) = <[j := dsub v b]> s.
Proof.
  intros Hj. rewrite list_lookup_total_insert_eq by exact Hj.
  apply list_insert_insert_eq.
Qed.

Lemma finite_lookup (d : list double) (N r : nat) :
  length d = N -> Forall is_finite d -> (r < N)%nat ->
  d !!! r = Finite (real_of (d !!! r)).
Proof.
  intros Hlen Hfin Hr.
  assert (Hin : d !!! r ∈ d) by (apply list_elem_of_lookup_total_2; lia).
  rewrite Forall_forall in Hfin. destruct (Hfin _ Hin) as [x ->]. reflexivity.
Qed.

Variables (o : KMedoids) (data : mat R).
Variables (refs : list nat) (B : nat).
Hypothesis refs_drawn : arma.randperm (n_cols data) B refs.

(** The real value of a sample of [build_sigma]. *)
Lemma build_sample_value (bd : list double) (ua : bool) (c r : nat) :
  (ua = false -> length bd = n_cols data /\ Forall is_finite bd) ->
  (r < n_cols data)%nat ->
  (if ua then Finite (km.invoke_lossFn o data c r)
   else dsub (if dlt (Finite (km.invoke_lossFn o data c r)) (bd !!! r)
              then Finite (km.invoke_lossFn o data c r) else bd !!! r)
             (bd !!! r))
  = Finite (build_reward o data bd ua c r).
Proof.
  intros Hbd Hr. unfold build_reward. destruct ua; [reflexivity|].
  destruct (Hbd eq_refl) as [Hlen Hfin].
  rewrite (finite_lookup bd _ r Hlen Hfin Hr). simpl.
  unfold Rmin.
  destruct (Rlt_dec _ _), (Rle_dec _ _); simpl; f_equal; lra.
Qed.

(** The buffer after the inner loop of [build_sigma] for candidate [c]. *)
Lemma build_sigma_sample_filled (bd : list double) (ua : bool) (c : nat)
  (sample : list double) :
  (ua = false -> length bd = n_cols data /\ Forall is_finite bd) ->
  length sample = B ->
  km.build_sigma_sample o data bd refs B ua c sample
  = map Finite (map (build_reward o data bd ua c) refs).
Proof.
  intros Hbd Hlen. destruct refs_drawn as (HB & _ & Hrange).
  unfold km.build_sigma_sample.
  rewrite (fill_buffer
    (fun j => Finite (build_reward o data bd ua c (refs !!! j))) _ B sample Hlen).
  - rewrite <- HB, (map_over_refs (fun r => Finite (build_reward o data bd ua c r))).
    rewrite map_map. reflexivity.
  - intros s j Hj Hs.
    assert (Hr : (refs !!! j < n_cols data)%nat).
    { rewrite Forall_forall in Hrange. apply Hrange.
      apply list_elem_of_lookup_total_2. lia. }
    rewrite <- (build_sample_value bd ua c _ Hbd Hr).
    destruct ua; [reflexivity|].
    apply write_then_subtract. lia.
Qed.

(** The real value of a sample of [swap_sigma]. *)
Lemma swap_sample_value (bd sbd : list double) (a : list nat) (n k r : nat) :
  length bd = n_cols data -> Forall is_finite bd ->
  length sbd = n_cols data -> Forall is_distance sbd ->
  (r < n_cols data)%nat ->
  dsub (if (k =? a !!! r)%nat
        then if dlt (Finite (km.invoke_lossFn o data n r)) (sbd !!! r)
             then Finite (km.invoke_lossFn o data n r) else sbd !!! r
        else if dlt (Finite (km.invoke_lossFn o data n r)) (bd !!! r)
             then Finite (km.invoke_lossFn o data n r) else bd !!! r)
       (bd !!! r)
  = Finite (swap_phi o data bd sbd a r k n - real_of (bd !!! r)).
Proof.
  intros Hlb Hfb Hls Hfs Hr. unfold swap_phi.
  rewrite (finite_lookup bd _ r Hlb Hfb Hr).
  rewrite (Nat.eqb_sym (a !!! r) k).
  destruct (k =? a !!! r)%nat.
  - assert (Hd : is_distance (sbd !!! r)).
    { rewrite Forall_forall in Hfs. apply Hfs.
      apply list_elem_of_lookup_total_2. lia. }
    destruct Hd as [[d2 ->]| ->]; simpl; [|f_equal; lra].
    unfold Rmin. destruct (Rlt_dec _ _), (Rle_dec _ _); simpl; f_equal; lra.
  - simpl. unfold Rmin.
    destruct (Rlt_dec _ _), (Rle_dec _ _); simpl; f_equal; lra.
Qed.

(** The buffer after the inner loop of [swap_sigma] for the swap of
    medoid position [k] with point [n]. *)
Lemma swap_sigma_sample_filled (bd sbd : list double) (a : list nat)
  (n k : nat) (sample : list double) :
  length bd = n_cols data -> Forall is_finite bd ->
  length sbd = n_cols data -> Forall is_distance sbd ->
  length sample = B ->
  km.swap_sigma_sample o data bd sbd a refs B n k sample
  = map Finite
      (map (fun j => swap_phi o data bd sbd a j k n - real_of (bd !!! j)) refs).
Proof.
  intros Hlb Hfb Hls Hfs Hlen. destruct refs_drawn as (HB & _ & Hrange).
  unfold km.swap_sigma_sample.
  rewrite (fill_buffer
    (fun j => Finite (swap_phi o data bd sbd a (refs !!! j) k n
                      - real_of (bd !!! (refs !!! j)))) _ B sample Hlen).
  - rewrite <- HB, (map_over_refs
      (fun r => Finite (swap_phi o data bd sbd a r k n - real_of (bd !!! r)))).
    rewrite map_map. reflexivity.
  - intros s j Hj Hs.
    assert (Hr : (refs !!! j < n_cols data)%nat).
    { rewrite Forall_forall in Hrange. apply Hrange.
      apply list_elem_of_lookup_total_2. lia. }
    rewrite <- (swap_sample_value bd sbd a n k _ Hlb Hfb Hls Hfs Hr).
    cbv zeta.
    destruct (k =? a !!! (refs !!! j))%nat;
      match goal with |- context [dlt ?x ?y] => destruct (dlt x y) end;
      apply write_then_subtract; lia.
Qed.

End sigma_facts.

(** ** The parallel loops of the sigma kernels *)

Section omp_facts.

Lemma fold_left_flat_map {A B C : Type} (f : A -> C -> A) (g : B -> list C)
  (l : list B) (a : A) :
  fold_left f (flat_map g l) a = fold_left (fun a x => fold_left f (g x) a) l a.
Proof.
  revert a. induction l as [|x l IH]; intros a; simpl; [reflexivity|].
  rewrite fold_left_app. apply IH.
Qed.

(** A team of one thread runs the iterations in order, whatever the
    schedule says. *)
Lemma omp_one_thread {shared : Type} (body : nat -> list (statement shared))
  (iterations schedule : list nat) (s : shared) :
  omp_parallel_for body [iterations] schedule s
  = fold_left (fun s i => fold_left (fun s stmt => stmt s) (body i) s)
      iterations s.
Proof.
  unfold omp_parallel_for. cbn [map].
  rewrite <- (fold_left_flat_map (fun s (stmt : statement shared) => stmt s)).
  unfold omp_thread. rewrite <- flat_map_concat_map.
  generalize (flat_map body iterations) as todo. intros todo.
  assert (HstepS : forall t (rest : list (statement shared)) (s' : shared),
    omp_step (s', [rest]) (S t) = (s', [rest])).
  { intros t rest s'. reflexivity. }
  revert todo s. induction schedule as [|t schedule IH]; intros todo s.
  - simpl. rewrite app_nil_r. reflexivity.
  - cbn [fold_left].
    destruct t as [|t]; [destruct todo as [|stmt todo]|].
    + change (omp_step (s, [[]]) 0) with (s, [@nil (statement shared)]).
      apply IH.
    + change (omp_step (s, [stmt :: todo]) 0) with (stmt s, [todo]).
      rewrite IH. reflexivity.
    + rewrite HstepS. apply IH.
Qed.

Variables (o : KMedoids) (data : mat R).

(** An iteration of [build_sigma] that no other thread interrupts. *)
Lemma build_sigma_body_run (bd : list double) (refs : list nat) (B : nat)
  (ua : bool) (i : nat) (sigma sample : list double) :
  fold_left (fun s (stmt : statement (list double * list double)) => stmt s)
    (km.build_sigma_body o data bd refs B ua i) (sigma, sample)
  = (<[i := arma.stddev (km.build_sigma_sample o data bd refs B ua i sample)]>
       sigma,
     km.build_sigma_sample o data bd refs B ua i sample).
Proof.
  unfold km.build_sigma_body, km.build_sigma_sample.
  rewrite fold_left_app, fold_left_flat_map.
  generalize (seq 0 B) as js. intros js.
  assert (E : forall sample,
    fold_left (fun s j =>
        fold_left (fun s (stmt : statement (list double * list double)) => stmt s)
          (let cost := Finite (km.invoke_lossFn o data i (refs !!! j)) in
           if ua then [fun '(sigma, sample) => (sigma, <[j := cost]> sample)]
           else
             [fun '(sigma, sample) =>
                (sigma,
                 <[j := if dlt cost (bd !!! (refs !!! j)) then cost
                        else bd !!! (refs !!! j)]> sample);
              fun '(sigma, sample) =>
                (sigma,
                 <[j := dsub (sample !!! j) (bd !!! (refs !!! j))]> sample)])
          s) js (sigma, sample)
    = (sigma,
       fold_left (fun sample j =>
           let cost := Finite (km.invoke_lossFn o data i (refs !!! j)) in
           if ua then <[j := cost]> sample
           else
             let sample :=
               <[j := if dlt cost (bd !!! (refs !!! j)) then cost
                      else bd !!! (refs !!! j)]> sample in
             <[j := dsub (sample !!! j) (bd !!! (refs !!! j))]> sample)
         js sample)).
  { induction js as [|j js IH]; intros smp; [reflexivity|].
    cbn [fold_left]. rewrite <- IH. destruct ua; reflexivity. }
  rewrite E. reflexivity.
Qed.

(** An iteration of [swap_sigma] that no other thread interrupts. *)
Lemma swap_sigma_body_run (K : nat) (bd sbd : list double) (a refs : list nat)
  (B : nat) (i : nat) (sigma : mat double) (sample : list double) :
  fold_left (fun s (stmt : statement (mat double * list double)) => stmt s)
    (km.swap_sigma_body o data K bd sbd a refs B i) (sigma, sample)
  = (mat_set sigma (i mod K) (i / K)
       (arma.stddev
          (km.swap_sigma_sample o data bd sbd a refs B (i / K) (i mod K) sample)),
     km.swap_sigma_sample o data bd sbd a refs B (i / K) (i mod K) sample).
Proof.
  unfold km.swap_sigma_body, km.swap_sigma_sample. cbv zeta.
  rewrite fold_left_app, fold_left_flat_map.
  generalize (seq 0 B) as js. intros js.
  match goal with
  | |- fold_left _ _ (fold_left ?F js _) = (_, fold_left ?G js _) =>
      assert (E : forall smp,
        fold_left F js (sigma, smp) = (sigma, fold_left G js smp))
  end.
  { induction js as [|j js IH]; intros smp; [reflexivity|].
    cbn [fold_left]. rewrite <- IH. reflexivity. }
  rewrite E. reflexivity.
Qed.

(** With a team of one thread the two loops are the loops run in
    index order. *)
Lemma build_sigma_one_thread (sigma_summary : list double -> string)
  (bd sigma : list double) (B : nat) (ua : bool) (refs schedule : list nat) :
  km.build_sigma sigma_summary o data bd sigma B ua refs
    [seq 0 (n_cols data)] schedule
  = build_sigma_serial sigma_summary o data bd sigma B ua refs.
Proof.
  unfold km.build_sigma, build_sigma_serial.
  rewrite omp_one_thread.
  rewrite (fold_left_body_ext _
    (fun '(sigma, sample) i =>
       (<[i := arma.stddev (km.build_sigma_sample o data bd refs B ua i sample)]>
          sigma,
        km.build_sigma_sample o data bd refs B ua i sample))).
  - reflexivity.
  - intros [sg smp] i. apply build_sigma_body_run.
Qed.

Lemma swap_sigma_one_thread (sigma : mat double) (B : nat)
  (bd sbd : list double) (a refs schedule : list nat) :
  km.swap_sigma o data sigma B bd sbd a refs
    [seq 0 (n_rows sigma * n_cols data)] schedule
  = swap_sigma_serial o data sigma B bd sbd a refs.
Proof.
  unfold km.swap_sigma, swap_sigma_serial.
  rewrite omp_one_thread.
  rewrite (fold_left_body_ext _
    (fun '(sg, sample) i =>
       (mat_set sg (i mod n_rows sigma) (i / n_rows sigma)
          (arma.stddev
             (km.swap_sigma_sample o data bd sbd a refs B
                (i / n_rows sigma) (i mod n_rows sigma) sample)),
        km.swap_sigma_sample o data bd sbd a refs B
          (i / n_rows sigma) (i mod n_rows sigma) sample))).
  - reflexivity.
  - intros [sg smp] i. apply swap_sigma_body_run.
Qed.

End omp_facts.

(** Run by a single thread, the loop of [build_sigma] leaves in
    [sigma(c)], for every candidate [c], the sample standard deviation
    of the rewards dist(c, j) (with [use_absolute]) or
    min(dist(c, j), d1[j]) - d1[j] (without) over the drawn [j]. *)
Lemma build_sigma_serial_spec
  (sigma_summary : list double -> string) (o : KMedoids) (data : mat R)
  (best_distances sigma : list double) (batch_size : nat)
  (use_absolute : bool) (tmp_refs : list nat) :
  arma.randperm (n_cols data) batch_size tmp_refs ->
  length sigma = n_cols data ->
  (use_absolute = false ->
   length best_distances = n_cols data /\ Forall is_finite best_distances) ->
  forall c, (c < n_cols data)%nat ->
  (build_sigma_serial sigma_summary o data best_distances sigma batch_size
     use_absolute tmp_refs).1 !! c
  = Some (Finite (arma.stddev_R
       (map (build_reward o data best_distances use_absolute c) tmp_refs))).
Proof.
  intros Hrefs Hsig Hbd.
  unfold build_sigma_serial. cbn [fst].
  set (body := fun '(sigma, sample) i => _).
  pose (Inv := fun (t : nat) (st : list double * list double) =>
    length st.1 = n_cols data /\ length st.2 = batch_size
    /\ forall c, (c < t)%nat ->
         st.1 !! c = Some (Finite (arma.stddev_R
           (map (build_reward o data best_distances use_absolute c) tmp_refs)))).
  assert (Hinv : Inv (n_cols data)
            (fold_left body (seq 0 (n_cols data))
               (sigma, replicate batch_size (Finite 0)))).
  { apply (for_loop_invariant Inv).
    - unfold Inv. simpl. rewrite length_replicate.
      repeat split; auto; intros; lia.
    - intros t [sg sample] Ht (Hls & Hlb & Hslots). simpl in Hls, Hlb, Hslots.
      unfold body, Inv. cbn [fst snd].
      rewrite (build_sigma_sample_filled o data tmp_refs batch_size Hrefs
                 best_distances use_absolute t sample Hbd Hlb).
      rewrite length_insert, !length_map, stddev_finite.
      destruct Hrefs as (HB & _). repeat split; auto.
      intros c Hc. destruct (Nat.eq_dec c t) as [->|Hne].
      + apply list_lookup_insert_eq. lia.
      + rewrite list_lookup_insert_ne by auto. apply Hslots. lia. }
  destruct Hinv as (_ & _ & Hslots). exact Hslots.
Qed.

(** Run by a single thread, the loop of [swap_sigma] goes over the
    flat indices [i] below K * n, takes the candidate point n' = i / K
    and the medoid position k = i mod K, and leaves in [sigma(k, n')]
    the sample standard deviation, over the drawn reference points [j],
    of phi(j; k, n') - d1[j], where phi is min(dist(n', j), d2[j]) when
    [j] is assigned to [k] and min(dist(n', j), d1[j]) otherwise. *)
Lemma swap_sigma_serial_spec
  (o : KMedoids) (data : mat R) (sigma : mat double) (batch_size : nat)
  (best_distances second_best_distances : list double)
  (assignments : list nat) (tmp_refs : list nat) :
  wf_mat sigma -> n_cols sigma = n_cols data ->
  arma.randperm (n_cols data) batch_size tmp_refs ->
  length best_distances = n_cols data -> Forall is_finite best_distances ->
  length second_best_distances = n_cols data ->
  Forall is_distance second_best_distances ->
  length assignments = n_cols data ->
  forall i, (i < n_rows sigma * n_cols data)%nat ->
  let n' := (i / n_rows sigma)%nat in
  let k := (i mod n_rows sigma)%nat in
  (n' < n_cols data)%nat /\ (k < n_rows sigma)%nat
  /\ mat_at (swap_sigma_serial o data sigma batch_size best_distances
               second_best_distances assignments tmp_refs) k n'
     = Finite (arma.stddev_R
         (map (fun j =>
                 swap_phi o data best_distances second_best_distances
                   assignments j k n'
                 - real_of (best_distances !!! j)) tmp_refs)).
Proof.
  intros Hwf Hcols Hrefs Hlb Hfb Hls Hfs _ i Hi n' k.
  set (K := n_rows sigma) in *. set (N := n_cols data) in *.
  assert (HK : (0 < K)%nat) by (destruct K; lia).
  assert (Hn' : (n' < N)%nat).
  { unfold n'. apply Nat.Div0.div_lt_upper_bound. lia. }
  assert (Hk : (k < K)%nat) by (unfold k; apply Nat.mod_upper_bound; lia).
  assert (Hflat : forall j, (j mod K + j / K * K = j)%nat).
  { intros j. pose proof (Nat.div_mod_eq j K). lia. }
  split; [exact Hn' | split; [exact Hk|]].
  unfold swap_sigma_serial. fold K N.
  set (body := fun '(sigma, sample) i => _).
  set (value := fun i : nat =>
    Finite (arma.stddev_R
      (map (fun j =>
              swap_phi o data best_distances second_best_distances
                assignments j (i mod K) (i / K)
              - real_of (best_distances !!! j)) tmp_refs))).
  pose (Inv := fun (t : nat) (st : mat double * list double) =>
    n_rows st.1 = K /\ length (mem st.1) = (K * N)%nat
    /\ length st.2 = batch_size
    /\ forall j, (j < t)%nat -> mem st.1 !! j = Some (value j)).
  assert (Hinv : Inv (K * N)%nat
            (fold_left body (seq 0 (K * N))
               (sigma, replicate batch_size (Finite 0)))).
  { apply (for_loop_invariant Inv).
    - unfold Inv. simpl. rewrite length_replicate.
      repeat split; auto.
      + unfold wf_mat in Hwf. rewrite Hwf, Hcols. reflexivity.
      + intros; lia.
    - intros t [sg sample] Ht (Hr & Hm & Hlen & Hslots).
      simpl in Hr, Hm, Hlen, Hslots.
      unfold body, Inv. cbn [fst snd].
      rewrite (swap_sigma_sample_filled o data tmp_refs batch_size Hrefs
                 best_distances second_best_distances assignments
                 (t / K) (t mod K) sample Hlb Hfb Hls Hfs Hlen).
      rewrite stddev_finite, !length_map.
      unfold mat_set. cbn [n_rows mem]. rewrite Hr, Hflat, length_insert.
      destruct Hrefs as (HB & _). repeat split; auto.
      intros j Hj. destruct (Nat.eq_dec j t) as [->|Hne].
      + apply list_lookup_insert_eq. lia.
      + rewrite list_lookup_insert_ne by auto. apply Hslots. lia. }
  destruct Hinv as (Hr & Hm & _ & Hslots).
  unfold mat_at. rewrite Hr. unfold k, n'. rewrite Hflat.
  apply list_lookup_total_correct. apply Hslots. exact Hi.
Qed.

(** ** The kernels on three points of a line

    The points 0, 1 and 3 under the Manhattan loss, with medoids at
    positions 0 and 2. *)

Section line_examples.

Ltac abs_cases :=
  repeat match goal with
  | |- context [Rabs ?x] => unfold Rabs; destruct (Rcase_abs x)
  end.

Ltac run_comparisons H :=
  repeat (rewrite ?(proj1 H), ?(proj1 (proj2 H)),
            ?(proj1 (proj2 (proj2 H))), ?(proj1 (proj2 (proj2 (proj2 H)))),
            ?(proj1 (proj2 (proj2 (proj2 (proj2 H))))),
            ?(proj2 (proj2 (proj2 (proj2 (proj2 H)))));
          match goal with
          | |- context [Rlt_dec ?a ?b] => destruct (Rlt_dec a b); try lra
          end; simpl).

Lemma line_distances :
  km.invoke_lossFn obj0 X_line 0 0 = 0
  /\ km.invoke_lossFn obj0 X_line 0 1 = 1
  /\ km.invoke_lossFn obj0 X_line 0 2 = 3
  /\ km.invoke_lossFn obj0 X_line 2 0 = 3
  /\ km.invoke_lossFn obj0 X_line 2 1 = 2
  /\ km.invoke_lossFn obj0 X_line 2 2 = 0.
Proof.
  unfold km.invoke_lossFn, km.manhattan, arma.accu, arma.abs, arma.minus, col.
  simpl. repeat split; abs_cases; lra.
Qed.

Example calc_loss_line : km.calc_loss obj0 X_line [0; 2]%nat = Finite 1.
Proof.
  unfold km.calc_loss. simpl.
  run_comparisons line_distances. f_equal. lra.
Qed.

Example calc_best_distances_swap_line :
  km.calc_best_distances_swap obj0 X_line [0; 2]%nat
    [PosInf; PosInf; PosInf] [PosInf; PosInf; PosInf] [7; 7; 7]%nat
  = ([Finite 0; Finite 1; Finite 0], [Finite 3; Finite 2; Finite 3],
     [0; 0; 1]%nat).
Proof.
  unfold km.calc_best_distances_swap, km.medoid_scan. simpl.
  run_comparisons line_distances. reflexivity.
Qed.

(** With a single medoid the second distance stays +infinity. *)
Example calc_best_distances_swap_one_medoid :
  km.calc_best_distances_swap obj0 X_line [2]%nat
    [PosInf; PosInf; PosInf] [PosInf; PosInf; PosInf] [7; 7; 7]%nat
  = ([Finite 3; Finite 2; Finite 0], [PosInf; PosInf; PosInf],
     [0; 0; 0]%nat).
Proof.
  unfold km.calc_best_distances_swap, km.medoid_scan. simpl.
  destruct line_distances as (_ & _ & _ & H20 & H21 & H22).
  rewrite H20, H21, H22. reflexivity.
Qed.

End line_examples.

Lemma line_medoids_in_range :
  Forall (fun m => (m < n_cols X_line)%nat) [0; 2]%nat.
Proof. repeat constructor. Defined.

Lemma line_refs_drawn : arma.randperm (n_cols X_line) 2 [0; 2]%nat.
Proof.
  split; [reflexivity | split].
  - apply NoDup_cons. split; [|apply NoDup_singleton].
    intros H. apply list_elem_of_singleton in H. discriminate H.
  - repeat constructor.
Defined.

Lemma line_best_finite : Forall is_finite [Finite 0; Finite 1; Finite 0].
Proof. repeat (constructor; [eexists; reflexivity|]). constructor. Defined.

Lemma line_second_distances : Forall is_distance [Finite 3; Finite 2; Finite 3].
Proof. repeat (constructor; [left; eexists; reflexivity|]). constructor. Defined.

Lemma line_loss_is_number (m i : nat) :
  m ∈ [0; 2]%nat -> (i < n_cols X_line)%nat -> loss_is_number obj0 X_line m i.
Proof. intros _ _. exact I. Defined.

Lemma calc_loss_is_sum_of_minima_witness :
  length [0; 2]%nat = n_medoids obj0
  /\ Forall (fun m => (m < n_cols X_line)%nat) [0; 2]%nat
  /\ (forall m i, m ∈ [0; 2]%nat -> (i < n_cols X_line)%nat ->
        loss_is_number obj0 X_line m i)
  /\ km.calc_loss obj0 X_line [0; 2]%nat
     = dsum (map (fun i =>
                    list_min (map (fun m => km.invoke_lossFn obj0 X_line m i)
                                  [0; 2]%nat))
                 (seq 0 (n_cols X_line))).
Proof.
  split; [reflexivity | split; [exact line_medoids_in_range|]].
  split; [exact line_loss_is_number|].
  exact (proj1 (calc_loss_is_sum_of_minima obj0 X_line [0; 2]%nat
                  eq_refl line_medoids_in_range line_loss_is_number)).
Defined.


(** ** The buffer that the threads of the sigma kernels share *)

Section shared_sample.

Lemma stddev_R_pair (x y : R) :
  arma.stddev_R [x; y] = sqrt ((x - y) ^ 2 / 2).
Proof.
  unfold arma.stddev_R, arma.var, arma.mean, arma.accu. simpl.
  f_equal. field.
Qed.

Lemma stddev_R_pair_pos (x y : R) : x <> y -> 0 < arma.stddev_R [x; y].
Proof.
  intros Hxy. rewrite stddev_R_pair. apply sqrt_lt_R0.
  assert (0 < (x - y) ^ 2).
  { replace ((x - y) ^ 2) with (Rsqr (x - y)) by (unfold Rsqr; ring).
    apply Rsqr_pos_lt. lra. }
  lra.
Qed.

(** C5. [build_sigma] does not leave in [sigma(c)] the standard
    deviation of the rewards of candidate [c] under every run of its
    parallel loop, because the threads share the buffer [sample]. On
    the three points of the line, with the references 0 and 2 and the
    absolute rewards, candidate 0 has the rewards 0 and 3. With two
    threads, the first handed the candidates 0 and 1 and the second the
    candidate 2: the first thread writes its two rewards, the second
    writes its first reward, 3, over [sample(0)], and the first then
    stores in [sigma(0)] the deviation of 3 and 3, which is 0. Run by
    one thread, the loop stores the deviation of 0 and 3, which is not
    0. *)
Theorem build_sigma_shared_sample :
  let run :=
    km.build_sigma (fun _ => EmptyString) obj0 X_line
      [PosInf; PosInf; PosInf] [Finite 9; Finite 9; Finite 9] 2 true
      [0; 2]%nat in
  let claimed :=
    arma.stddev_R
      (map (build_reward obj0 X_line [PosInf; PosInf; PosInf] true 0)
           [0; 2]%nat) in
  arma.randperm (n_cols X_line) 2 [0; 2]%nat
  /\ omp_team (n_cols X_line) [[0; 1]; [2]]%nat
  /\ (run [[0; 1]; [2]]%nat [0; 0; 1; 0]%nat).1 !! 0%nat = Some (Finite 0)
  /\ (run [[0; 1; 2]]%nat []).1 !! 0%nat = Some (Finite claimed)
  /\ 0 < claimed.
Proof.
  cbv zeta. destruct line_distances as (H00 & _ & H02 & H20 & _ & _).
  split; [exact line_refs_drawn | split; [apply Permutation_refl|]].
  split; [|split].
  - unfold km.build_sigma, omp_parallel_for, omp_thread, km.build_sigma_body.
    cbn -[km.invoke_lossFn arma.stddev].
    rewrite H20, H02.
    change [Finite 3; Finite 3] with (map Finite [3; 3]).
    rewrite stddev_finite, stddev_R_pair.
    do 2 f_equal. replace ((3 - 3) ^ 2 / 2) with 0 by field. apply sqrt_0.
  - change [[0; 1; 2]]%nat with [seq 0 (n_cols X_line)].
    rewrite build_sigma_one_thread.
    apply build_sigma_serial_spec;
      [exact line_refs_drawn | reflexivity | discriminate | simpl; lia].
  - unfold build_reward. cbn [map]. rewrite H00, H02.
    apply stddev_R_pair_pos. lra.
Qed.

Lemma line_comparisons :
  dlt (Finite 0) (Finite 0) = false /\ dlt (Finite 0) (Finite 3) = true
  /\ dlt (Finite 3) (Finite 0) = false /\ dlt (Finite 3) (Finite 3) = false.
Proof.
  repeat split; simpl;
    match goal with |- context [Rlt_dec ?a ?b] => destruct (Rlt_dec a b) end;
    try reflexivity; lra.
Qed.

(** C4. [swap_sigma] does not leave in [sigma(k, n')] the standard
    deviation of the values phi(j; k, n') - d1[j] under every run of its
    parallel loop, because the threads share the buffer [sample]. On
    the three points of the line with the medoids 0 and 2 and the
    references 0 and 2, the flat index 5 is the swap of medoid position
    1 with its own point 2, whose values are 0 and 0. With four
    threads handed the indices 0-1, 2-3, 4 and 5: the last thread
    writes its two values, the third writes the values 3 and 0 of index
    4 over them, and the last then stores in [sigma(1, 2)] the
    deviation of 3 and 0, which is not 0. Run by one thread, the loop
    stores 0. *)
Theorem swap_sigma_shared_sample :
  let run :=
    km.swap_sigma obj0 X_line (Mat 2 3 (replicate 6 (Finite 9))) 2
      [Finite 0; Finite 1; Finite 0] [Finite 3; Finite 2; Finite 3]
      [0; 0; 1]%nat [0; 2]%nat in
  let claimed :=
    arma.stddev_R
      (map (fun j =>
              swap_phi obj0 X_line [Finite 0; Finite 1; Finite 0]
                [Finite 3; Finite 2; Finite 3] [0; 0; 1]%nat j 1 2
              - real_of ([Finite 0; Finite 1; Finite 0] !!! j))
           [0; 2]%nat) in
  arma.randperm (n_cols X_line) 2 [0; 2]%nat
  /\ omp_team (2 * n_cols X_line) [[0; 1]; [2; 3]; [4]; [5]]%nat
  /\ ((5 / 2)%nat = 2%nat /\ (5 mod 2)%nat = 1%nat)
  /\ mat_at (run [[0; 1]; [2; 3]; [4]; [5]]%nat
                [3; 3; 3; 3; 2; 2; 2; 2; 3]%nat) 1 2
     = Finite (arma.stddev_R [3; 0])
  /\ 0 < arma.stddev_R [3; 0]
  /\ mat_at (run [[0; 1; 2; 3; 4; 5]]%nat []) 1 2 = Finite claimed
  /\ claimed = 0.
Proof.
  cbv zeta. destruct line_distances as (_ & _ & _ & H20 & _ & H22).
  destruct line_comparisons as (C00 & C03 & C30 & C33).
  split; [exact line_refs_drawn | split; [apply Permutation_refl|]].
  split; [split; reflexivity|]. split; [|split; [|split]].
  - unfold km.swap_sigma, omp_parallel_for, omp_thread, km.swap_sigma_body,
      mat_at.
    cbn -[km.invoke_lossFn arma.stddev dlt].
    rewrite !H20, !H22, ?C00, ?C03, ?C30, ?C33.
    cbn -[arma.stddev].
    replace (3 + - 0) with 3 by lra. replace (0 + - 0) with 0 by lra.
    change [Finite 3; Finite 0] with (map Finite [3; 0]).
    apply stddev_finite.
  - apply stddev_R_pair_pos. lra.
  - change [[0; 1; 2; 3; 4; 5]]%nat
      with [seq 0 (n_rows (Mat 2 3 (replicate 6 (Finite 9))) * n_cols X_line)].
    rewrite swap_sigma_one_thread.
    apply (swap_sigma_serial_spec obj0 X_line (Mat 2 3 (replicate 6 (Finite 9)))
             2 [Finite 0; Finite 1; Finite 0] [Finite 3; Finite 2; Finite 3]
             [0; 0; 1]%nat [0; 2]%nat eq_refl eq_refl line_refs_drawn eq_refl line_best_finite
             eq_refl line_second_distances eq_refl 5%nat).
    simpl. lia.
  - unfold swap_phi. cbn [map lookup_total list_lookup_total Nat.eqb min_with
                          real_of].
    rewrite H20, H22. apply stddev_R_zeros.
    unfold Rmin. repeat destruct (Rle_dec _ _); repeat constructor; lra.
Qed.

End shared_sample.

(** * Part III: further properties of the code *)

(** ** Columns and vectors *)

Section vector_facts.

Lemma col_length {A : Type} (X : mat A) (c : nat) :
  wf_mat X -> (c < n_cols X)%nat -> length (col X c) = n_rows X.
Proof.
  unfold wf_mat, col. intros Hwf Hc.
  rewrite length_take, length_drop, Hwf. nia.
Qed.

Lemma abs_minus_nonneg (a b : list R) :
  Forall (fun x => 0 <= x) (arma.abs (arma.minus a b)).
Proof.
  unfold arma.abs. apply Forall_forall. intros y Hy.
  apply list_elem_of_fmap in Hy as (x & -> & _). apply Rabs_pos.
Qed.

Lemma accu_zero_inv (v : list R) :
  Forall (fun x => 0 <= x) v -> arma.accu v = 0 -> Forall (fun x => x = 0) v.
Proof.
  induction 1 as [|x v Hx Hv IH]; intros Hs; constructor;
    rewrite accu_cons in Hs; pose proof (accu_nonneg v Hv); [lra|].
  apply IH. lra.
Qed.

Lemma abs_minus_zero_inv (a b : list R) :
  length a = length b ->
  Forall (fun x => x = 0) (arma.abs (arma.minus a b)) -> a = b.
Proof.
  unfold arma.abs, arma.minus. revert b.
  induction a as [|x a IH]; intros [|y b] Hlen Hz; try discriminate; [reflexivity|].
  simpl in Hz. apply Forall_cons in Hz as [Hxy Hz].
  f_equal.
  - unfold Rabs in Hxy. destruct (Rcase_abs (x - y)); lra.
  - apply IH; [simpl in Hlen; lia | exact Hz].
Qed.

Lemma abs_minus_self_zero (a : list R) :
  Forall (fun x => x = 0) (arma.abs (arma.minus a a)).
Proof.
  unfold arma.abs. apply Forall_forall. intros y Hy.
  apply list_elem_of_fmap in Hy as (x & -> & Hx).
  pose proof (minus_self_zero a) as Hz.
  rewrite Forall_forall in Hz. rewrite (Hz x Hx). apply Rabs_R0.
Qed.

Lemma fold_left_Rmax_ge (v : list R) (x : R) : x <= fold_left Rmax v x.
Proof.
  revert x. induction v as [|y v IH]; intros x; simpl; [lra|].
  pose proof (IH (Rmax x y)). pose proof (Rmax_l x y). lra.
Qed.

Lemma fold_left_Rmax_ge_elem (v : list R) (x y : R) :
  y ∈ v -> y <= fold_left Rmax v x.
Proof.
  revert x. induction v as [|z v IH]; intros x Hy; [inversion Hy|].
  apply elem_of_cons in Hy as [->|Hy]; simpl.
  - pose proof (fold_left_Rmax_ge v (Rmax x z)). pose proof (Rmax_r x z). lra.
  - apply IH, Hy.
Qed.

Lemma fold_left_Rmax_in (v : list R) (x : R) : fold_left Rmax v x ∈ x :: v.
Proof.
  revert x. induction v as [|z v IH]; intros x; simpl; [left|].
  specialize (IH (Rmax x z)). apply elem_of_cons in IH as [E|IH].
  - rewrite E. unfold Rmax. destruct (Rle_dec x z); [right; left | left].
  - right; right; exact IH.
Qed.

(** [arma::max] is an element of a non-empty vector, above the others. *)
Lemma max_ge_elem (v : list R) (y : R) : y ∈ v -> y <= arma.max v.
Proof.
  destruct v as [|x v]; intros Hy; [inversion Hy|]. simpl.
  apply elem_of_cons in Hy as [->|Hy];
    [apply fold_left_Rmax_ge | apply fold_left_Rmax_ge_elem, Hy].
Qed.

Lemma max_in (v : list R) : v <> [] -> arma.max v ∈ v.
Proof. destruct v as [|x v]; [congruence|]. intros _. apply fold_left_Rmax_in. Qed.

Lemma max_nonneg (v : list R) : Forall (fun x => 0 <= x) v -> 0 <= arma.max v.
Proof.
  intros Hv. destruct v as [|x v]; [simpl; lra|].
  rewrite Forall_forall in Hv. apply Hv, max_in. discriminate.
Qed.

Lemma max_le_bound (v : list R) (B : R) :
  0 <= B -> (forall y, y ∈ v -> y <= B) -> arma.max v <= B.
Proof.
  intros HB Hv. destruct v as [|x v]; [simpl; lra|].
  apply Hv, max_in. discriminate.
Qed.

(** A sum of non-negative terms is above each term and below the number
    of terms times a bound of the terms. *)
Lemma accu_ge_elem (v : list R) (y : R) :
  Forall (fun x => 0 <= x) v -> y ∈ v -> y <= arma.accu v.
Proof.
  induction 1 as [|x v Hx Hv IH]; intros Hy; [inversion Hy|].
  rewrite accu_cons. pose proof (accu_nonneg v Hv).
  apply elem_of_cons in Hy as [->|Hy]; [lra|]. specialize (IH Hy). lra.
Qed.

Lemma root_nonneg (p : nat) (x : R) : 0 <= arma.root p x.
Proof.
  unfold arma.root. destruct (Req_dec_T x 0); [lra|].
  unfold Rpower. left. apply exp_pos.
Qed.

Lemma root_zero_inv (p : nat) (x : R) : arma.root p x = 0 -> x = 0.
Proof.
  unfold arma.root. destruct (Req_dec_T x 0) as [->|Hne]; [reflexivity|].
  unfold Rpower. intros H. pose proof (exp_pos (/ INR p * ln x)). lra.
Qed.

(** The second root is the square root. *)
Lemma root_2_sqrt (x : R) : 0 <= x -> arma.root 2 x = sqrt x.
Proof.
  intros Hx. unfold arma.root. destruct (Req_dec_T x 0) as [->|Hne].
  - symmetry. apply sqrt_0.
  - replace (INR 2) with 2 by (simpl; lra). apply Rpower_sqrt. lra.
Qed.

End vector_facts.

(** ** The loss functions as distances *)

Section distance_facts.

Variables (o : KMedoids) (data : mat R).

Lemma abs_pow_sum_zero_inv (v : list R) (p : nat) :
  arma.accu (map (fun x => Rabs x ^ p) v) = 0 ->
  Forall (fun x => x = 0) (arma.abs v).
Proof.
  intros Hs.
  assert (Hz : Forall (fun x => x = 0) (map (fun x => Rabs x ^ p) v)).
  { apply accu_zero_inv; [|exact Hs].
    apply Forall_forall. intros y Hy.
    apply list_elem_of_fmap in Hy as (x & -> & _). apply pow_le, Rabs_pos. }
  unfold arma.abs. rewrite Forall_forall in Hz. apply Forall_forall.
  intros y Hy. apply list_elem_of_fmap in Hy as (x & -> & Hx).
  assert (Hp : Rabs x ^ p = 0) by (apply Hz, list_elem_of_fmap; eauto).
  destruct (Req_dec (Rabs x) 0) as [E|Hne]; [exact E|].
  exfalso. exact (pow_nonzero _ p Hne Hp).
Qed.

Lemma LP_nonneg (i j : nat) : 0 <= km.LP o data i j.
Proof. apply root_nonneg. Qed.

Lemma manhattan_nonneg (i j : nat) : 0 <= km.manhattan o data i j.
Proof. apply accu_nonneg, abs_minus_nonneg. Qed.

Lemma LINF_nonneg (i j : nat) : 0 <= km.LINF o data i j.
Proof. apply max_nonneg, abs_minus_nonneg. Qed.

End distance_facts.

Lemma invoke_lossFn_nonneg (o : KMedoids) (data : mat R) (i j : nat) :
  lossFn o <> fn_cos -> 0 <= km.invoke_lossFn o data i j.
Proof.
  unfold km.invoke_lossFn. intros Hne.
  destruct (lossFn o);
    [apply LP_nonneg | apply LINF_nonneg | congruence | apply manhattan_nonneg].
Qed.

(** LP, LINF and manhattan never return a negative value. *)
Theorem noncosine_distance_nonneg (o : KMedoids) (data : mat R) (i j : nat) :
  lossFn o <> fn_cos -> 0 <= km.invoke_lossFn o data i j.
Proof. apply invoke_lossFn_nonneg. Qed.

Lemma noncosine_distance_nonneg_witness :
  lossFn obj0 <> fn_cos /\ 0 <= km.invoke_lossFn obj0 X_line 0 2.
Proof.
  assert (H : lossFn obj0 <> fn_cos) by discriminate.
  split; [exact H | exact (noncosine_distance_nonneg obj0 X_line 0 2 H)].
Defined.

Lemma invoke_lossFn_zero_iff (o : KMedoids) (data : mat R) (i j : nat) :
  wf_mat data -> (i < n_cols data)%nat -> (j < n_cols data)%nat ->
  lossFn o <> fn_cos -> (lossFn o = fn_LP -> (1 <= lp o)%nat) ->
  (km.invoke_lossFn o data i j = 0 <-> col data i = col data j).
Proof.
  intros Hwf Hi Hj Hne Hp.
  assert (Hlen : length (col data i) = length (col data j))
    by (rewrite !col_length; auto).
  split.
  - intros Hz. apply abs_minus_zero_inv; [exact Hlen|].
    unfold km.invoke_lossFn in Hz. destruct (lossFn o); [| |congruence|].
    + apply root_zero_inv in Hz. apply (abs_pow_sum_zero_inv _ _ Hz).
    + unfold km.LINF in Hz. apply Forall_forall. intros y Hy.
      pose proof (max_ge_elem _ _ Hy) as Hle.
      pose proof (abs_minus_nonneg (col data i) (col data j)) as Hpos.
      rewrite Forall_forall in Hpos. specialize (Hpos y Hy). lra.
    + apply accu_zero_inv; [apply abs_minus_nonneg | exact Hz].
  - intros E. unfold km.invoke_lossFn.
    destruct (lossFn o) eqn:El; [| |congruence|].
    + unfold km.LP. rewrite E.
      change (km.LP o data j j = 0). apply LP_self. auto.
    + unfold km.LINF. rewrite E. apply max_zeros, abs_minus_self_zero.
    + unfold km.manhattan. rewrite E. apply accu_zeros, abs_minus_self_zero.
Qed.

(** Under manhattan, LINF and LP with p = 1, the losses that add or
    compare the absolute differences of the coordinates, two points of
    the data are at distance 0 exactly when their columns are equal. *)
Theorem noncosine_distance_zero_iff (o : KMedoids) (data : mat R) (i j : nat) :
  wf_mat data -> (i < n_cols data)%nat -> (j < n_cols data)%nat ->
  lossFn o <> fn_cos -> (lossFn o = fn_LP -> lp o = 1%nat) ->
  (km.invoke_lossFn o data i j = 0 <-> col data i = col data j).
Proof.
  intros Hwf Hi Hj Hne Hp. apply invoke_lossFn_zero_iff; auto.
  intros E. rewrite (Hp E). lia.
Qed.

Lemma wf_X_line : wf_mat X_line.
Proof. reflexivity. Defined.

Lemma noncosine_distance_zero_iff_witness :
  wf_mat X_line /\ (0 < n_cols X_line)%nat /\ (2 < n_cols X_line)%nat
  /\ lossFn obj0 <> fn_cos /\ (lossFn obj0 = fn_LP -> lp obj0 = 1%nat)
  /\ (km.invoke_lossFn obj0 X_line 0 2 = 0 <-> col X_line 0 = col X_line 2).
Proof.
  assert (H1 : (0 < n_cols X_line)%nat) by (simpl; lia).
  assert (H2 : (2 < n_cols X_line)%nat) by (simpl; lia).
  assert (H3 : lossFn obj0 <> fn_cos) by discriminate.
  assert (H4 : lossFn obj0 = fn_LP -> lp obj0 = 1%nat) by (intros _; reflexivity).
  repeat (split; [first [exact wf_X_line | assumption]|]).
  exact (noncosine_distance_zero_iff obj0 X_line 0 2 wf_X_line H1 H2 H3 H4).
Defined.

(** LINF is never above manhattan. *)
Theorem LINF_below_manhattan (o : KMedoids) (data : mat R) (i j : nat) :
  km.LINF o data i j <= km.manhattan o data i j.
Proof.
  unfold km.LINF, km.manhattan.
  set (v := arma.abs (arma.minus (col data i) (col data j))).
  assert (Hpos : Forall (fun x => 0 <= x) v) by apply abs_minus_nonneg.
  apply max_le_bound; [apply accu_nonneg, Hpos|].
  intros y Hy. apply accu_ge_elem; assumption.
Qed.

(** With [lp = 2] the LP loss is the Euclidean distance. *)
Theorem LP_2_is_euclidean (o : KMedoids) (data : mat R) (i j : nat) :
  lp o = 2%nat ->
  km.LP o data i j
  = sqrt (arma.accu (map (fun d => d * d)
                         (zip_with Rminus (col data i) (col data j)))).
Proof.
  intros Hp. unfold km.LP, arma.norm. rewrite Hp.
  rewrite root_2_sqrt by apply accu_abs_pow_nonneg.
  do 2 f_equal. apply map_ext. intros x. rewrite pow2_abs. simpl. lra.
Qed.

Lemma LP_2_is_euclidean_witness :
  lp (set_lp 2 obj0) = 2%nat
  /\ km.LP (set_lp 2 obj0) X_unit 0 1
     = sqrt (arma.accu (map (fun d => d * d)
                            (zip_with Rminus (col X_unit 0) (col X_unit 1)))).
Proof.
  split; [reflexivity|].
  exact (LP_2_is_euclidean (set_lp 2 obj0) X_unit 0 1 eq_refl).
Defined.

(** ** More on the selection of the loss and of the algorithm *)

Section selection_facts.

Local Open Scope string_scope.

Lemma digit_not_space_or_sign (c : ascii) :
  isdigit c = true ->
  isspace c = false /\ Ascii.eqb c "-" = false /\ Ascii.eqb c "+" = false.
Proof.
  intros Hd. split; [|split].
  - unfold isdigit, isspace in *.
    apply andb_true_iff in Hd as [H1 H2].
    apply Nat.leb_le in H1. apply Nat.leb_le in H2.
    apply orb_false_iff. split.
    + apply Nat.eqb_neq. lia.
    + apply andb_false_iff. right. apply Nat.leb_gt. lia.
  - destruct (Ascii.eqb_spec c "-") as [->|_]; [discriminate Hd | reflexivity].
  - destruct (Ascii.eqb_spec c "+") as [->|_]; [discriminate Hd | reflexivity].
Qed.

(** The digits of a string have a non-negative value. *)
Lemma digits_value_nonneg (s : string) (acc : Z) :
  (0 <= acc)%Z -> (0 <= digits_value acc s)%Z.
Proof.
  revert acc. induction s as [|c s IH]; intros acc Hacc; simpl; [exact Hacc|].
  destruct (isdigit c) eqn:Hd; [|exact Hacc].
  apply IH. unfold isdigit in Hd. apply andb_true_iff in Hd as [H1 _].
  apply Nat.leb_le in H1. lia.
Qed.

(** [strtol] of a string that starts with a digit is the value of its
    leading digits, up to the largest [long]. *)
Lemma strtol_leading_digit (c : ascii) (s : string) :
  isdigit c = true ->
  strtol (String c s) = Z.min (2 ^ 63 - 1) (digits_value 0 (String c s)).
Proof.
  intros Hd. destruct (digit_not_space_or_sign c Hd) as (Hs & Hm & Hp).
  pose proof (digits_value_nonneg (String c s) 0 ltac:(lia)) as Hv.
  unfold strtol. cbn [skip_spaces]. rewrite Hs.
  assert (E : match String c s with
              | String "-" s' => (- digits_value 0 s')%Z
              | String "+" s' => digits_value 0 s'
              | s' => digits_value 0 s'
              end = digits_value 0 (String c s)).
  { destruct c as [b0 b1 b2 b3 b4 b5 b6 b7].
    destruct b0, b1, b2, b3, b4, b5, b6, b7; try reflexivity;
      try discriminate Hm; try discriminate Hp. }
  cbv zeta. rewrite E. lia.
Qed.

(** [atoi] of a string that starts with a digit is the value of its
    leading digits while that value fits an [int]. *)
Lemma atoi_leading_digit (c : ascii) (s : string) :
  isdigit c = true ->
  (digits_value 0 (String c s) < 2 ^ 31)%Z ->
  atoi (String c s) = digits_value 0 (String c s).
Proof.
  intros Hd Hlt.
  pose proof (digits_value_nonneg (String c s) 0 ltac:(lia)) as Hv.
  unfold atoi. rewrite (strtol_leading_digit c s Hd).
  rewrite Z.min_r by lia. unfold int_of_long.
  rewrite Z.mod_small by lia. lia.
Qed.

(** The digits are read up to the first character that is not one. *)
Lemma digits_value_stops (ds rest : string) (acc : Z) :
  all_digits ds = true -> no_leading_digit rest = true ->
  digits_value acc (ds ++ rest) = digits_value acc ds.
Proof.
  revert acc. induction ds as [|c ds IH]; intros acc Hds Hrest; simpl.
  - destruct rest as [|c' r]; [reflexivity|]. simpl in *.
    destruct (isdigit c'); [discriminate | reflexivity].
  - simpl in Hds. apply andb_true_iff in Hds as [Hc Hds]. rewrite Hc.
    apply IH; assumption.
Qed.

(** A name that starts with a digit selects LP, with [lp] what [atoi]
    makes of it. *)
Lemma setLossFn_leading_digit (c : ascii) (s : string) (w : world) :
  isdigit c = true ->
  km.setLossFn (String c s) w
  = (inr tt,
     World (set_lp (Z.to_nat (atoi (String c s) mod 2 ^ 64))
                   (set_lossFn fn_LP (this w)))
           (cout w)).
Proof.
  intros Hd. destruct (digit_not_letter c Hd) as (Hm & Hc & Hi).
  assert (Hre : regex_match (String c s) re_L_digits = false).
  { destruct (regex_match (String c s) re_L_digits) eqn:E; [|reflexivity].
    apply re_L_digits_inv in E as (ds & E & _). injection E as -> _.
    discriminate Hd. }
  unfold km.setLossFn. rewrite bind_unfold, Hre.
  cbn [mret M_ret]. unfold try_catch_invalid_argument.
  cbn [String.eqb]. rewrite Hm, Hc, Hi.
  rewrite bind_unfold. cbn [at0 mret M_ret]. rewrite Hd. reflexivity.
Qed.

(** Whatever [setLossFn] does to the object is one of three things. *)
Lemma setLossFn_effect (loss : string) (w : world) :
  snd (km.setLossFn loss w) = w
  \/ snd (km.setLossFn loss w)
     = World (this w) (cout w ++ ["error: unrecognized loss function"])
  \/ (exists f, snd (km.setLossFn loss w)
                = World (set_lossFn f (this w)) (cout w))
  \/ (exists p, snd (km.setLossFn loss w)
                = World (set_lp p (set_lossFn fn_LP (this w))) (cout w)).
Proof.
  unfold km.setLossFn. rewrite bind_unfold.
  assert (Hbody : forall l,
    let r := try_catch_invalid_argument
      (if String.eqb l "manhattan" then modify_this (set_lossFn fn_manhattan)
       else if String.eqb l "cos" then modify_this (set_lossFn fn_cos)
       else if String.eqb l "inf" then modify_this (set_lossFn fn_LINF)
       else
         c ← at0 l ;
         if isdigit c then
           modify_this (set_lossFn fn_LP) ;;
           modify_this (set_lp (Z.to_nat (atoi l mod 2 ^ 64)))
         else throw (invalid_argument "error: unrecognized loss function"))
      (fun what => print_line what) w in
    snd r = w
    \/ snd r = World (this w) (cout w ++ ["error: unrecognized loss function"])
    \/ (exists f, snd r = World (set_lossFn f (this w)) (cout w))
    \/ (exists p, snd r = World (set_lp p (set_lossFn fn_LP (this w))) (cout w))).
  { intros l. unfold try_catch_invalid_argument. cbv zeta.
    destruct (String.eqb l "manhattan"); [right; right; left; eexists; reflexivity|].
    destruct (String.eqb l "cos"); [right; right; left; eexists; reflexivity|].
    destruct (String.eqb l "inf"); [right; right; left; eexists; reflexivity|].
    destruct l as [|c s]; [left; reflexivity|].
    rewrite bind_unfold. cbn [at0 mret M_ret].
    destruct (isdigit c).
    - right; right; right. eexists. reflexivity.
    - right; left. reflexivity. }
  destruct (regex_match loss re_L_digits).
  - destruct loss as [|c0 loss']; [left; reflexivity|].
    cbn [substr1 mret M_ret]. apply Hbody.
  - cbn [mret M_ret]. apply Hbody.
Qed.

End selection_facts.

Section selection_theorems.

Local Open Scope string_scope.

Lemma setLossFn_returns (loss : string) (w : world) :
  loss <> "" -> loss <> "L" -> fst (km.setLossFn loss w) = inr tt.
Proof.
  intros Hne HnL.
  destruct (regex_match loss re_L_digits) eqn:Hre.
  - pose proof Hre as Hinv. apply re_L_digits_inv in Hinv as (ds & -> & _).
    destruct ds as [|c ds]; [congruence|].
    rewrite (setLossFn_L_digits c ds w Hre). reflexivity.
  - unfold km.setLossFn. rewrite bind_unfold, Hre. cbn [mret M_ret].
    unfold try_catch_invalid_argument.
    destruct (String.eqb loss "manhattan"); [reflexivity|].
    destruct (String.eqb loss "cos"); [reflexivity|].
    destruct (String.eqb loss "inf"); [reflexivity|].
    destruct loss as [|c s]; [congruence|].
    rewrite bind_unfold. cbn [at0 mret M_ret].
    destruct (isdigit c); reflexivity.
Qed.

(** [setLossFn] leaves by an exception for exactly two names, the empty
    one and the bare L, always with [std::out_of_range] and with the
    object untouched; on every other name it returns normally. The
    [std::invalid_argument] it throws itself never leaves it. *)
Theorem setLossFn_throws_exactly_on_empty_and_L (loss : string) (w : world) :
  ((loss = "" \/ loss = "L") /\ km.setLossFn loss w = (inl out_of_range, w))
  \/ (loss <> "" /\ loss <> "L" /\ fst (km.setLossFn loss w) = inr tt).
Proof.
  destruct (string_dec loss "") as [->|Hne]; [left; split; [left|]; reflexivity|].
  destruct (string_dec loss "L") as [->|HnL]; [left; split; [right|]; reflexivity|].
  right. split; [exact Hne | split; [exact HnL|]].
  apply setLossFn_returns; assumption.
Qed.

(** [setLossFn] changes nothing of the object but [lossFn] and [lp], and
    prints at most the one error line, in which case [lossFn] and [lp]
    are unchanged too. *)
Theorem setLossFn_changes_only_the_loss (loss : string) (w : world) :
  let o := this w in
  let o' := this (snd (km.setLossFn loss w)) in
  n_medoids o' = n_medoids o /\ algorithm o' = algorithm o
  /\ max_iter o' = max_iter o /\ labels o' = labels o
  /\ medoid_indices_build o' = medoid_indices_build o
  /\ medoid_indices_final o' = medoid_indices_final o
  /\ fitFn o' = fitFn o /\ logHelper o' = logHelper o /\ steps o' = steps o
  /\ buildConfidence o' = buildConfidence o
  /\ swapConfidence o' = swapConfidence o
  /\ verbosity o' = verbosity o /\ logFilename o' = logFilename o
  /\ (cout (snd (km.setLossFn loss w)) = cout w
      \/ (cout (snd (km.setLossFn loss w))
          = (cout w ++ ["error: unrecognized loss function"])%list
          /\ lossFn o' = lossFn o /\ lp o' = lp o)).
Proof.
  cbv zeta.
  destruct (setLossFn_effect loss w) as [E|[E|[[f E]|[p E]]]]; rewrite E;
    cbn [this cout]; repeat split; auto.
Qed.

(** A name that starts with a digit selects LP and what follows its
    leading digits is ignored: the name 2x selects what the name 2
    selects. [lp] is the value of the digits while that value fits an
    [int]; a larger one is wrapped by [atoi] before it is stored. *)
Theorem setLossFn_ignores_text_after_digits
  (c : ascii) (ds rest : string) (w : world) :
  isdigit c = true -> all_digits ds = true -> no_leading_digit rest = true ->
  km.setLossFn (String c ds ++ rest) w = km.setLossFn (String c ds) w
  /\ km.setLossFn (String c ds) w
     = (inr tt,
        World (set_lp (Z.to_nat (atoi (String c ds) mod 2 ^ 64))
                      (set_lossFn fn_LP (this w)))
              (cout w))
  /\ ((digits_value 0 (String c ds) < 2 ^ 31)%Z ->
      atoi (String c ds) = digits_value 0 (String c ds)).
Proof.
  intros Hc Hds Hrest.
  split; [|split; [apply setLossFn_leading_digit, Hc
                  | apply atoi_leading_digit, Hc]].
  change (String c ds ++ rest) with (String c (ds ++ rest)).
  rewrite !setLossFn_leading_digit by exact Hc.
  unfold atoi. rewrite !strtol_leading_digit by exact Hc.
  change (String c (ds ++ rest)) with (String c ds ++ rest).
  rewrite digits_value_stops; [reflexivity | | exact Hrest].
  simpl. rewrite Hc. exact Hds.
Qed.

Lemma setLossFn_ignores_text_after_digits_witness :
  isdigit "1" = true /\ all_digits "2" = true /\ no_leading_digit "abc" = true
  /\ km.setLossFn "12abc" w0 = km.setLossFn "12" w0.
Proof.
  split; [reflexivity | split; [reflexivity | split; [reflexivity|]]].
  exact (proj1 (setLossFn_ignores_text_after_digits "1" "2" "abc" w0
                  eq_refl eq_refl eq_refl)).
Defined.

(** [setAlgorithm] stores any name without checking it and without
    selecting the fit function: a name outside the set is reported only
    by the next [fit], and a valid one takes effect only there. *)
Theorem setAlgorithm_defers_validation
  (alg : string) (w : world)
  (fit_bpam fit_naive : mat R -> M unit) (write_profile : M unit) (X : mat R) :
  alg <> "BanditPAM" -> alg <> "naive" ->
  km.setAlgorithm alg w = (inr tt, World (set_algorithm alg (this w)) (cout w))
  /\ fitFn (this (snd (km.setAlgorithm alg w))) = fitFn (this w)
  /\ fst (km.getAlgorithm (snd (km.setAlgorithm alg w))) = inr alg
  /\ km.fit_after_setLossFn fit_bpam fit_naive write_profile X
       (snd (km.setAlgorithm alg w))
     = (inl (thrown_c_string "unrecognized algorithm"),
        snd (km.setAlgorithm alg w))
  /\ fitFn (this (snd (km.setAlgorithm "naive" w))) = fitFn (this w)
  /\ km.fit_after_setLossFn fit_bpam fit_naive write_profile X
       (snd (km.setAlgorithm "naive" w))
     = (fit_naive X ;;
        o ← get_this ;
        if (0 <? verbosity o)%nat then write_profile else mret tt)
         (World (set_fitFn fn_fit_naive (set_algorithm "naive" (this w)))
                (cout w)).
Proof.
  intros H1 H2. repeat split.
  unfold km.fit_after_setLossFn. rewrite !bind_unfold. cbn.
  unfold km.checkAlgorithm.
  destruct (String.eqb_spec alg "BanditPAM"); [congruence|].
  destruct (String.eqb_spec alg "naive"); [congruence|]. reflexivity.
Qed.

Lemma setAlgorithm_defers_validation_witness :
  "PAM" <> "BanditPAM" /\ "PAM" <> "naive"
  /\ km.setAlgorithm "PAM" w0
     = (inr tt, World (set_algorithm "PAM" obj0) []).
Proof.
  assert (H1 : "PAM" <> "BanditPAM") by discriminate.
  assert (H2 : "PAM" <> "naive") by discriminate.
  split; [exact H1 | split; [exact H2|]].
  exact (proj1 (setAlgorithm_defers_validation "PAM" w0
                  (fun _ => mret tt) (fun _ => mret tt) (mret tt) X_line H1 H2)).
Defined.

End selection_theorems.

(** ** [calc_best_distances_swap], point by point *)

Section pointwise.

(** Two loops over the same indices keep a relation between their
    states. *)
Lemma fold_left_related_from {S1 S2 : Type} (Rel : S1 -> S2 -> Prop)
  (f : S1 -> nat -> S1) (g : S2 -> nat -> S2) (a n : nat) (s1 : S1) (s2 : S2) :
  Rel s1 s2 ->
  (forall k t1 t2, (a <= k < a + n)%nat -> Rel t1 t2 -> Rel (f t1 k) (g t2 k)) ->
  Rel (fold_left f (seq a n) s1) (fold_left g (seq a n) s2).
Proof.
  revert a s1 s2. induction n as [|n IH]; intros a s1 s2 H0 Hstep; simpl.
  - exact H0.
  - apply IH.
    + apply Hstep; [lia | exact H0].
    + intros k t1 t2 Hk. apply Hstep. lia.
Qed.

Lemma fold_left_related {S1 S2 : Type} (Rel : S1 -> S2 -> Prop)
  (f : S1 -> nat -> S1) (g : S2 -> nat -> S2) (n : nat) (s1 : S1) (s2 : S2) :
  Rel s1 s2 ->
  (forall k t1 t2, (k < n)%nat -> Rel t1 t2 -> Rel (f t1 k) (g t2 k)) ->
  Rel (fold_left f (seq 0 n) s1) (fold_left g (seq 0 n) s2).
Proof.
  intros H0 Hstep. apply fold_left_related_from; [exact H0|].
  intros k t1 t2 Hk. apply Hstep. lia.
Qed.

(** Two loop bodies that agree below the bound give the same loop. *)
Lemma fold_left_seq_ext {St : Type} (f g : St -> nat -> St) (n : nat) (s : St) :
  (forall t k, (k < n)%nat -> f t k = g t k) ->
  fold_left f (seq 0 n) s = fold_left g (seq 0 n) s.
Proof.
  intros Hfg. apply (fold_left_related eq); [reflexivity|].
  intros k t1 t2 Hk <-. apply Hfg, Hk.
Qed.

Variables (o : KMedoids) (data : mat R) (medoids : list nat).

Lemma medoid_distances_length (i : nat) :
  length (medoid_distances o data medoids i) = length medoids.
Proof. unfold medoid_distances. apply length_map. Qed.

Lemma medoid_distances_lookup_total (i k : nat) :
  (k < length medoids)%nat ->
  medoid_distances o data medoids i !!! k
  = km.invoke_lossFn o data (medoids !!! k) i.
Proof.
  intros Hk. apply list_lookup_total_correct. unfold medoid_distances.
  rewrite list_lookup_fmap, (list_lookup_lookup_total_lt medoids k Hk).
  reflexivity.
Qed.

(** The loop over the medoids is the scan of the distances, with the
    position written in slot [i] of the assignments. *)
Lemma medoid_scan_as_point_scan (i : nat) (a0 : list nat) :
  km.medoid_scan o data medoids i (infinity, infinity, a0)
  = (point_best o data medoids i, point_second o data medoids i,
     write_position (point_position o data medoids i) i a0).
Proof.
  unfold point_best, point_second, point_position, point_scan, km.medoid_scan.
  rewrite medoid_distances_length.
  set (Rel := fun (t1 : double * double * list nat)
                  (t2 : double * double * option nat) =>
                t1 = (t2.1.1, t2.1.2, write_position t2.2 i a0)).
  apply (fold_left_related Rel); [reflexivity|].
  intros k t1 [[b s] pos] Hk ->. unfold Rel. cbn [fst snd].
  rewrite (medoid_distances_lookup_total i k Hk).
  destruct (dlt _ b).
  - cbn [fst snd write_position]. f_equal.
    destruct pos; cbn [write_position]; [apply list_insert_insert_eq | reflexivity].
  - destruct (dlt _ s); reflexivity.
Qed.

(** What the scan of point [i] finds. *)
Lemma point_scan_spec (i : nat) :
  (exists srt,
      Permutation srt (medoid_distances o data medoids i) /\ Sorted Rle srt
      /\ point_best o data medoids i = kth_smallest srt 0
      /\ point_second o data medoids i = kth_smallest srt 1)
  /\ (medoids = [] ->
      point_best o data medoids i = PosInf
      /\ point_second o data medoids i = PosInf
      /\ point_position o data medoids i = None)
  /\ (medoids <> [] -> exists p b,
        point_position o data medoids i = Some p
        /\ (p < length medoids)%nat
        /\ point_best o data medoids i = Finite b
        /\ medoid_distances o data medoids i !! p = Some b
        /\ (forall q d, medoid_distances o data medoids i !! q = Some d -> b <= d)
        /\ (forall q d, (q < p)%nat ->
              medoid_distances o data medoids i !! q = Some d -> b < d)).
Proof.
  set (a0 := replicate (S i) (length medoids)).
  pose proof (medoid_scan_scanned o data medoids i a0) as Hs.
  rewrite medoid_scan_as_point_scan in Hs.
  destruct Hs as ((srt & Hperm & Hsorted & Hb & Hsec) & _ & Hpos).
  rewrite firstn_all2 in Hperm by (rewrite length_map; lia).
  split; [exists srt; auto|]. split.
  - intros ->. repeat split; reflexivity.
  - intros Hne.
    destruct Hpos as (p & b & Hp & Hbest & Hdp & Ha & Hmin & Hfirst).
    { destruct medoids; [congruence | simpl; lia]. }
    exists p, b.
    assert (Hi : (i < length a0)%nat) by (unfold a0; rewrite length_replicate; lia).
    assert (Hpos' : point_position o data medoids i = Some p).
    { destruct (point_position o data medoids i) as [p'|]; cbn [write_position] in Ha.
      - apply (f_equal (fun l => l !! i)) in Ha.
        rewrite !list_lookup_insert_eq in Ha by exact Hi. exact Ha.
      - apply (f_equal (fun l => l !! i)) in Ha.
        rewrite list_lookup_insert_eq in Ha by exact Hi.
        unfold a0 in Ha. rewrite lookup_replicate_2 in Ha by lia.
        injection Ha as Ha. lia. }
    repeat split; auto.
    intros q d Hq. apply (Hmin q).
    + apply lookup_lt_Some in Hq. rewrite medoid_distances_length in Hq.
      exact Hq.
    + exact Hq.
Qed.

(** The best distance is the least distance from a medoid. *)
Lemma point_best_is_list_min (i : nat) :
  point_best o data medoids i = list_min (medoid_distances o data medoids i).
Proof.
  destruct (point_scan_spec i) as (_ & Hnil & Hcons).
  destruct medoids as [|m ms] eqn:E.
  - destruct (Hnil eq_refl) as (-> & _). reflexivity.
  - rewrite <- E in *.
    destruct Hcons as (p & b & _ & _ & -> & Hdp & Hmin & _); [congruence|].
    destruct (list_min_least (medoid_distances o data medoids i))
      as (x & -> & Hin & Hle).
    { rewrite E. discriminate. }
    f_equal. apply Rle_antisym.
    + apply list_elem_of_lookup in Hin as (q & Hq). apply (Hmin q), Hq.
    + apply Hle. apply list_elem_of_lookup. eauto.
Qed.

Lemma point_second_is_distance (i : nat) :
  is_distance (point_second o data medoids i)
  /\ dle (point_best o data medoids i) (point_second o data medoids i).
Proof.
  destruct (point_scan_spec i) as ((srt & _ & Hsorted & Hb & Hs) & _).
  rewrite Hb, Hs. split; [|apply kth_sorted_le, Hsorted].
  unfold kth_smallest. destruct (srt !! 1%nat); [left; eexists|right]; reflexivity.
Qed.

(** Every slot of the three vectors after [calc_best_distances_swap]:
    the slots below the number of points hold the results of the scan
    of their point, the others are as before. *)
Lemma calc_best_distances_swap_lookup
  (bd sd : list double) (a : list nat) :
  let '(bd', sd', a') := km.calc_best_distances_swap o data medoids bd sd a in
  length bd' = length bd /\ length sd' = length sd /\ length a' = length a
  /\ forall j,
       bd' !! j = (if (j <? n_cols data)%nat
                   then (fun _ => point_best o data medoids j) <$> bd !! j
                   else bd !! j)
       /\ sd' !! j = (if (j <? n_cols data)%nat
                      then (fun _ => point_second o data medoids j) <$> sd !! j
                      else sd !! j)
       /\ a' !! j = (if (j <? n_cols data)%nat
                     then write_position (point_position o data medoids j) j a !! j
                     else a !! j).
Proof.
  unfold km.calc_best_distances_swap.
  set (body := fun '(best_distances, second_distances, assignments) i => _).
  pose (Inv := fun (t : nat) (st : list double * list double * list nat) =>
    let '(bd', sd', a') := st in
    length bd' = length bd /\ length sd' = length sd /\ length a' = length a
    /\ forall j,
         bd' !! j = (if (j <? t)%nat
                     then (fun _ => point_best o data medoids j) <$> bd !! j
                     else bd !! j)
         /\ sd' !! j = (if (j <? t)%nat
                        then (fun _ => point_second o data medoids j) <$> sd !! j
                        else sd !! j)
         /\ a' !! j = (if (j <? t)%nat
                       then write_position (point_position o data medoids j) j a !! j
                       else a !! j)).
  assert (Hinv : Inv (n_cols data)
            (fold_left body (seq 0 (n_cols data)) (bd, sd, a))).
  { apply (for_loop_invariant Inv).
    - unfold Inv. repeat split; reflexivity.
    - intros t [[bd' sd'] a'] Ht (Hlb & Hls & Hla & Hslots).
      unfold body, Inv. rewrite medoid_scan_as_point_scan.
      assert (Hwp : length (write_position (point_position o data medoids t) t a')
                    = length a).
      { destruct (point_position o data medoids t); cbn [write_position];
          rewrite ?length_insert; exact Hla. }
      rewrite !length_insert. repeat split; auto.
      + destruct (Hslots j) as (Hb & _ & _).
        destruct (Nat.eq_dec j t) as [->|Hne].
        * rewrite (proj2 (Nat.ltb_lt t (S t))) by lia.
          rewrite Nat.ltb_irrefl in Hb.
          destruct (bd !! t) as [x|] eqn:E.
          -- apply list_lookup_insert_eq. apply lookup_lt_Some in E. lia.
          -- rewrite list_insert_ge; [rewrite Hb; reflexivity|].
             apply lookup_ge_None in E. lia.
        * rewrite list_lookup_insert_ne by auto. rewrite Hb.
          destruct (j <? t)%nat eqn:E1, (j <? S t)%nat eqn:E2; try reflexivity;
            apply Nat.ltb_lt in E1 || apply Nat.ltb_ge in E1;
            apply Nat.ltb_lt in E2 || apply Nat.ltb_ge in E2; lia.
      + destruct (Hslots j) as (_ & Hs & _).
        destruct (Nat.eq_dec j t) as [->|Hne].
        * rewrite (proj2 (Nat.ltb_lt t (S t))) by lia.
          rewrite Nat.ltb_irrefl in Hs.
          destruct (sd !! t) as [x|] eqn:E.
          -- apply list_lookup_insert_eq. apply lookup_lt_Some in E. lia.
          -- rewrite list_insert_ge; [rewrite Hs; reflexivity|].
             apply lookup_ge_None in E. lia.
        * rewrite list_lookup_insert_ne by auto. rewrite Hs.
          destruct (j <? t)%nat eqn:E1, (j <? S t)%nat eqn:E2; try reflexivity;
            apply Nat.ltb_lt in E1 || apply Nat.ltb_ge in E1;
            apply Nat.ltb_lt in E2 || apply Nat.ltb_ge in E2; lia.
      + destruct (Hslots j) as (_ & _ & Hx).
        destruct (Nat.eq_dec j t) as [->|Hne].
        * rewrite (proj2 (Nat.ltb_lt t (S t))) by lia.
          rewrite Nat.ltb_irrefl in Hx.
          destruct (point_position o data medoids t) as [p|];
            cbn [write_position]; [|exact Hx].
          rewrite !list_lookup_insert. rewrite Hla.
          destruct (decide _); reflexivity || (rewrite Hx; reflexivity).
        * assert (Hsame : write_position (point_position o data medoids t) t a' !! j
                          = a' !! j).
          { destruct (point_position o data medoids t); cbn [write_position];
              [apply list_lookup_insert_ne; auto | reflexivity]. }
          rewrite Hsame, Hx.
          destruct (j <? t)%nat eqn:E1, (j <? S t)%nat eqn:E2; try reflexivity;
            apply Nat.ltb_lt in E1 || apply Nat.ltb_ge in E1;
            apply Nat.ltb_lt in E2 || apply Nat.ltb_ge in E2; lia. }
  unfold Inv in Hinv.
  destruct (fold_left body (seq 0 (n_cols data)) (bd, sd, a)) as [[bd' sd'] a'].
  exact Hinv.
Qed.

End pointwise.

Section swap_distances_facts.

Variables (o : KMedoids) (data : mat R) (medoids : list nat).

(** With vectors of one entry per point, the three results in full. *)
Lemma calc_best_distances_swap_explicit (bd sd : list double) (a : list nat) :
  length bd = n_cols data -> length sd = n_cols data ->
  length a = n_cols data ->
  km.calc_best_distances_swap o data medoids bd sd a
  = (map (point_best o data medoids) (seq 0 (n_cols data)),
     map (point_second o data medoids) (seq 0 (n_cols data)),
     map (fun j => default (a !!! j) (point_position o data medoids j))
         (seq 0 (n_cols data))).
Proof.
  intros Hbd Hsd Ha.
  pose proof (calc_best_distances_swap_lookup o data medoids bd sd a) as H.
  destruct (km.calc_best_distances_swap o data medoids bd sd a)
    as [[bd' sd'] a'].
  destruct H as (Hlb & Hls & Hla & Hslots).
  f_equal; [f_equal|].
  - apply (list_eq_same_length _ _ (n_cols data));
      [rewrite length_map, length_seq; reflexivity | lia |].
    intros j x y Hj Hx Hy. destruct (Hslots j) as (Hb & _ & _).
    rewrite (proj2 (Nat.ltb_lt _ _) Hj) in Hb.
    rewrite (list_lookup_lookup_total_lt bd j) in Hb by lia.
    rewrite list_lookup_fmap, lookup_seq_lt in Hy by exact Hj.
    simpl in Hb, Hy. congruence.
  - apply (list_eq_same_length _ _ (n_cols data));
      [rewrite length_map, length_seq; reflexivity | lia |].
    intros j x y Hj Hx Hy. destruct (Hslots j) as (_ & Hs & _).
    rewrite (proj2 (Nat.ltb_lt _ _) Hj) in Hs.
    rewrite (list_lookup_lookup_total_lt sd j) in Hs by lia.
    rewrite list_lookup_fmap, lookup_seq_lt in Hy by exact Hj.
    simpl in Hs, Hy. congruence.
  - apply (list_eq_same_length _ _ (n_cols data));
      [rewrite length_map, length_seq; reflexivity | lia |].
    intros j x y Hj Hx Hy. destruct (Hslots j) as (_ & _ & Hp).
    rewrite (proj2 (Nat.ltb_lt _ _) Hj) in Hp.
    rewrite list_lookup_fmap, lookup_seq_lt in Hy by exact Hj.
    simpl in Hy. injection Hy as <-. rewrite Hp in Hx.
    destruct (point_position o data medoids j) as [p|]; cbn [write_position] in Hx.
    + rewrite list_lookup_insert_eq in Hx by lia. simpl. congruence.
    + rewrite (list_lookup_lookup_total_lt a j) in Hx by lia. simpl. congruence.
Qed.

End swap_distances_facts.

(** With no medoid, [calc_best_distances_swap] sets every best and
    second distance to +infinity and leaves the assignments as they
    were. *)
Theorem calc_best_distances_swap_no_medoids
  (o : KMedoids) (data : mat R) (bd sd : list double) (a : list nat) :
  length bd = n_cols data -> length sd = n_cols data ->
  km.calc_best_distances_swap o data [] bd sd a
  = (replicate (n_cols data) PosInf, replicate (n_cols data) PosInf, a).
Proof.
  intros Hbd Hsd.
  pose proof (calc_best_distances_swap_lookup o data [] bd sd a) as H.
  destruct (km.calc_best_distances_swap o data [] bd sd a) as [[bd' sd'] a'].
  destruct H as (Hlb & Hls & Hla & Hslots).
  f_equal; [f_equal|].
  - apply (list_eq_same_length _ _ (n_cols data));
      [apply length_replicate | lia |].
    intros j x y Hj Hx Hy. destruct (Hslots j) as (Hb & _ & _).
    rewrite (proj2 (Nat.ltb_lt _ _) Hj) in Hb.
    rewrite (list_lookup_lookup_total_lt bd j) in Hb by lia.
    rewrite lookup_replicate_2 in Hy by exact Hj. simpl in Hb.
    assert (E : point_best o data [] j = PosInf) by reflexivity. congruence.
  - apply (list_eq_same_length _ _ (n_cols data));
      [apply length_replicate | lia |].
    intros j x y Hj Hx Hy. destruct (Hslots j) as (_ & Hs & _).
    rewrite (proj2 (Nat.ltb_lt _ _) Hj) in Hs.
    rewrite (list_lookup_lookup_total_lt sd j) in Hs by lia.
    rewrite lookup_replicate_2 in Hy by exact Hj. simpl in Hs.
    assert (E : point_second o data [] j = PosInf) by reflexivity. congruence.
  - apply list_eq. intros j. destruct (Hslots j) as (_ & _ & Hp).
    rewrite Hp. destruct (j <? n_cols data)%nat; reflexivity.
Qed.

Lemma calc_best_distances_swap_no_medoids_witness :
  length [Finite 1; Finite 2; Finite 3] = n_cols X_line
  /\ km.calc_best_distances_swap obj0 X_line []
       [Finite 1; Finite 2; Finite 3] [Finite 1; Finite 2; Finite 3]
       [7; 8; 9]%nat
     = ([PosInf; PosInf; PosInf], [PosInf; PosInf; PosInf], [7; 8; 9]%nat).
Proof.
  split; [reflexivity|].
  exact (calc_best_distances_swap_no_medoids obj0 X_line
           [Finite 1; Finite 2; Finite 3] [Finite 1; Finite 2; Finite 3]
           [7; 8; 9]%nat eq_refl eq_refl).
Defined.

(** [calc_best_distances_swap] keeps the sizes of the three vectors and
    writes only the slots of the points: whatever lies beyond the
    number of points is left as it was. *)
Theorem calc_best_distances_swap_frame
  (o : KMedoids) (data : mat R) (medoids : list nat)
  (bd sd : list double) (a : list nat) :
  (n_cols data <= length bd)%nat -> (n_cols data <= length sd)%nat ->
  (n_cols data <= length a)%nat ->
  let '(bd', sd', a') := km.calc_best_distances_swap o data medoids bd sd a in
  length bd' = length bd /\ length sd' = length sd /\ length a' = length a
  /\ forall j, (n_cols data <= j)%nat ->
       bd' !! j = bd !! j /\ sd' !! j = sd !! j /\ a' !! j = a !! j.
Proof.
  intros _ _ _.
  pose proof (calc_best_distances_swap_lookup o data medoids bd sd a) as H.
  destruct (km.calc_best_distances_swap o data medoids bd sd a)
    as [[bd' sd'] a'].
  destruct H as (Hlb & Hls & Hla & Hslots).
  repeat split; auto; destruct (Hslots j) as (Hb & Hs & Hp);
    rewrite (proj2 (Nat.ltb_ge _ _)) in Hb, Hs, Hp by assumption; assumption.
Qed.

Lemma calc_best_distances_swap_frame_witness :
  (n_cols X_line <= length [PosInf; PosInf; PosInf; Finite 5])%nat
  /\ (n_cols X_line <= length [7; 7; 7; 7]%nat)%nat
  /\ let '(bd', sd', a') :=
       km.calc_best_distances_swap obj0 X_line [0; 2]%nat
         [PosInf; PosInf; PosInf; Finite 5] [PosInf; PosInf; PosInf; Finite 5]
         [7; 7; 7; 7]%nat in
     length bd' = 4%nat /\ length sd' = 4%nat /\ length a' = 4%nat
     /\ forall j, (n_cols X_line <= j)%nat ->
          bd' !! j = [PosInf; PosInf; PosInf; Finite 5] !! j
          /\ sd' !! j = [PosInf; PosInf; PosInf; Finite 5] !! j
          /\ a' !! j = [7; 7; 7; 7]%nat !! j.
Proof.
  assert (H1 : (n_cols X_line <= length [PosInf; PosInf; PosInf; Finite 5])%nat)
    by (simpl; lia).
  assert (H2 : (n_cols X_line <= length [7; 7; 7; 7]%nat)%nat) by (simpl; lia).
  split; [exact H1 | split; [exact H2|]].
  exact (calc_best_distances_swap_frame obj0 X_line [0; 2]%nat
           [PosInf; PosInf; PosInf; Finite 5] [PosInf; PosInf; PosInf; Finite 5]
           [7; 7; 7; 7]%nat H1 H1 H2).
Defined.

(** The best and second distances computed by
    [calc_best_distances_swap] do not depend on what the vectors held
    before, and running it again on its own results changes nothing. *)
Theorem calc_best_distances_swap_idempotent
  (o : KMedoids) (data : mat R) (medoids : list nat)
  (bd sd bd2 sd2 : list double) (a : list nat) :
  length bd = n_cols data -> length sd = n_cols data ->
  length bd2 = n_cols data -> length sd2 = n_cols data ->
  length a = n_cols data ->
  km.calc_best_distances_swap o data medoids bd2 sd2 a
  = km.calc_best_distances_swap o data medoids bd sd a
  /\ (let '(bd', sd', a') :=
        km.calc_best_distances_swap o data medoids bd sd a in
      km.calc_best_distances_swap o data medoids bd' sd' a' = (bd', sd', a')).
Proof.
  intros Hbd Hsd Hbd2 Hsd2 Ha. split.
  - rewrite !calc_best_distances_swap_explicit by assumption. reflexivity.
  - rewrite (calc_best_distances_swap_explicit o data medoids bd sd a)
      by assumption.
    rewrite calc_best_distances_swap_explicit
      by (rewrite length_map, length_seq; reflexivity).
    f_equal. apply map_ext_in. intros j Hj. apply in_seq in Hj.
    destruct (point_position o data medoids j) eqn:E; [reflexivity|]. simpl.
    apply list_lookup_total_correct.
    rewrite list_lookup_fmap, lookup_seq_lt by lia. simpl.
    rewrite E. reflexivity.
Qed.

Lemma calc_best_distances_swap_idempotent_witness :
  length [PosInf; PosInf; PosInf] = n_cols X_line
  /\ length [Finite 1; Finite 2; Finite 3] = n_cols X_line
  /\ length [7; 7; 7]%nat = n_cols X_line
  /\ km.calc_best_distances_swap obj0 X_line [0; 2]%nat
       [Finite 1; Finite 2; Finite 3] [Finite 1; Finite 2; Finite 3]
       [7; 7; 7]%nat
     = km.calc_best_distances_swap obj0 X_line [0; 2]%nat
         [PosInf; PosInf; PosInf] [PosInf; PosInf; PosInf] [7; 7; 7]%nat.
Proof.
  split; [reflexivity | split; [reflexivity | split; [reflexivity|]]].
  exact (proj1 (calc_best_distances_swap_idempotent obj0 X_line [0; 2]%nat
                  [PosInf; PosInf; PosInf] [PosInf; PosInf; PosInf]
                  [Finite 1; Finite 2; Finite 3] [Finite 1; Finite 2; Finite 3]
                  [7; 7; 7]%nat eq_refl eq_refl eq_refl eq_refl eq_refl)).
Defined.

(** Under manhattan, LINF and LP with p >= 1, every medoid is at best
    distance 0 and is assigned to a medoid at distance 0 from it; under
    manhattan, LINF and LP with p = 1 that medoid is a point with the
    same column. *)
Theorem medoid_best_distance_zero
  (o : KMedoids) (data : mat R) (medoids : list nat)
  (bd sd : list double) (a : list nat) (m : nat) :
  wf_mat data ->
  lossFn o <> fn_cos -> (lossFn o = fn_LP -> (1 <= lp o)%nat) ->
  Forall (fun m => (m < n_cols data)%nat) medoids ->
  length bd = n_cols data -> length sd = n_cols data ->
  length a = n_cols data ->
  m ∈ medoids ->
  let '(bd', sd', a') := km.calc_best_distances_swap o data medoids bd sd a in
  bd' !! m = Some (Finite 0)
  /\ exists p m', a' !! m = Some p /\ medoids !! p = Some m'
                  /\ km.invoke_lossFn o data m' m = 0
                  /\ ((lossFn o = fn_LP -> lp o = 1%nat) ->
                      col data m' = col data m).
Proof.
  intros Hwf Hne Hp Hrange Hbd Hsd Ha Hm.
  assert (Hmn : (m < n_cols data)%nat)
    by (rewrite Forall_forall in Hrange; apply Hrange, Hm).
  rewrite calc_best_distances_swap_explicit by assumption.
  rewrite !list_lookup_fmap, lookup_seq_lt by exact Hmn.
  change (0 + m)%nat with m. cbn [fmap option_fmap option_map].
  destruct (point_scan_spec o data medoids m) as (_ & _ & Hcons).
  destruct Hcons as (p & b & Hpos & Hpl & Hbest & Hdp & Hmin & _).
  { intros ->. inversion Hm. }
  assert (Hb0 : b = 0).
  { apply Rle_antisym.
    - apply list_elem_of_lookup in Hm as (q & Hq).
      apply (Hmin q). unfold medoid_distances.
      rewrite list_lookup_fmap, Hq. simpl. f_equal.
      apply invoke_lossFn_zero_iff; auto.
    - unfold medoid_distances in Hdp.
      apply list_lookup_fmap_Some in Hdp as (m' & -> & _).
      apply invoke_lossFn_nonneg, Hne. }
  subst b. split; [simpl; rewrite Hbest; reflexivity|].
  unfold medoid_distances in Hdp.
  apply list_lookup_fmap_Some in Hdp as (m' & Hd & Hm').
  exists p, m'. rewrite Hpos. simpl. repeat split; auto.
  intros _. apply (invoke_lossFn_zero_iff o data m' m); auto.
  rewrite Forall_forall in Hrange. apply Hrange.
  apply list_elem_of_lookup. eauto.
Qed.

Lemma medoid_best_distance_zero_witness :
  wf_mat X_line /\ lossFn obj0 <> fn_cos
  /\ Forall (fun m => (m < n_cols X_line)%nat) [0; 2]%nat
  /\ 2%nat ∈ [0; 2]%nat
  /\ let '(bd', sd', a') :=
       km.calc_best_distances_swap obj0 X_line [0; 2]%nat
         [PosInf; PosInf; PosInf] [PosInf; PosInf; PosInf] [7; 7; 7]%nat in
     bd' !! 2%nat = Some (Finite 0)
     /\ exists p m', a' !! 2%nat = Some p /\ [0; 2]%nat !! p = Some m'
                     /\ km.invoke_lossFn obj0 X_line m' 2 = 0
                     /\ ((lossFn obj0 = fn_LP -> lp obj0 = 1%nat) ->
                         col X_line m' = col X_line 2).
Proof.
  assert (H1 : lossFn obj0 <> fn_cos) by discriminate.
  assert (H2 : lossFn obj0 = fn_LP -> (1 <= lp obj0)%nat) by (intros _; simpl; lia).
  assert (H3 : 2%nat ∈ [0; 2]%nat) by (right; left).
  split; [exact wf_X_line | split; [exact H1|]].
  split; [exact line_medoids_in_range | split; [exact H3|]].
  exact (medoid_best_distance_zero obj0 X_line [0; 2]%nat
           [PosInf; PosInf; PosInf] [PosInf; PosInf; PosInf] [7; 7; 7]%nat 2
           wf_X_line H1 H2 line_medoids_in_range eq_refl eq_refl eq_refl H3).
Defined.

(** ** More on [calc_loss] *)

Section calc_loss_more.

Lemma list_min_perm (l l' : list R) :
  Permutation l l' -> list_min l = list_min l'.
Proof.
  intros Hp. destruct l as [|x l0] eqn:E.
  - apply Permutation_nil in Hp. subst l'. reflexivity.
  - rewrite <- E in *.
    assert (Hl : l <> []) by (rewrite E; discriminate).
    assert (Hl' : l' <> []).
    { intros ->. apply Permutation_sym, Permutation_nil in Hp. congruence. }
    destruct (list_min_least l Hl) as (m & -> & Hin & Hle).
    destruct (list_min_least l' Hl') as (m' & -> & Hin' & Hle').
    f_equal. apply Rle_antisym.
    + apply Hle. rewrite Hp. exact Hin'.
    + apply Hle'. rewrite <- Hp. exact Hin.
Qed.

Lemma dsum_cons (x : double) (l : list double) : dsum (x :: l) = dadd x (dsum l).
Proof. reflexivity. Qed.

(** A sum of finite terms is finite: the sum of their values. *)
Lemma dsum_finite (f : nat -> double) (g : nat -> R) (l : list nat) :
  (forall i, i ∈ l -> f i = Finite (g i)) ->
  dsum (map f l) = Finite (arma.accu (map g l)).
Proof.
  induction l as [|i l IH]; intros Hf; [reflexivity|].
  cbn [map]. rewrite dsum_cons, accu_cons, IH, (Hf i) by
    (first [left | intros; apply Hf; right; assumption]).
  reflexivity.
Qed.

Lemma is_distance_dadd (x y : double) :
  is_distance x -> is_distance y -> is_distance (dadd x y).
Proof.
  intros [[a ->]| ->] [[b ->]| ->]; simpl;
    first [left; eexists; reflexivity | right; reflexivity].
Qed.

Lemma dle_dadd (x x' y y' : double) :
  is_distance x -> is_distance x' -> is_distance y -> is_distance y' ->
  dle x x' -> dle y y' -> dle (dadd x y) (dadd x' y').
Proof.
  intros [[a ->]| ->] [[a' ->]| ->] [[b ->]| ->] [[b' ->]| ->]; simpl;
    intros; try tauto; lra.
Qed.

(** Sums of distances are monotone. *)
Lemma dsum_mono (f g : nat -> double) (l : list nat) :
  (forall i, is_distance (f i) /\ is_distance (g i) /\ dle (f i) (g i)) ->
  is_distance (dsum (map f l)) /\ is_distance (dsum (map g l))
  /\ dle (dsum (map f l)) (dsum (map g l)).
Proof.
  intros H. induction l as [|i l (IH1 & IH2 & IH3)].
  - simpl. repeat split; try (left; eexists; reflexivity). simpl. lra.
  - cbn [map]. rewrite !dsum_cons. destruct (H i) as (H1 & H2 & H3).
    repeat split; try apply is_distance_dadd; auto.
    apply dle_dadd; auto.
Qed.

Lemma list_min_is_distance (l : list R) : is_distance (list_min l).
Proof.
  destruct (list_min_cases l) as [[_ ->]|[_ H]]; [right; reflexivity | left; exact H].
Qed.

Lemma list_min_snoc_le (l : list R) (c : R) :
  dle (list_min (l ++ [c])) (list_min l).
Proof.
  rewrite list_min_snoc.
  destruct (list_min_cases l) as [[_ ->]|[_ [m ->]]]; simpl; [exact I|].
  destruct (Rlt_dec c m); simpl; lra.
Qed.

Variables (o : KMedoids) (data : mat R).

(** [calc_loss] reads the first [n_medoids] entries of the vector. *)
Lemma calc_loss_as_sum (medoids : list nat) :
  (n_medoids o <= length medoids)%nat ->
  km.calc_loss o data medoids
  = dsum (map (fun i =>
                 list_min (medoid_distances o data
                             (take (n_medoids o) medoids) i))
              (seq 0 (n_cols data))).
Proof.
  intros Hlen. unfold km.calc_loss.
  rewrite (fold_left_body_ext _
    (fun total i => dadd total
       (list_min (medoid_distances o data (take (n_medoids o) medoids) i)))).
  - rewrite fold_left_dadd. apply dadd_0_l.
  - intros total i. f_equal. unfold medoid_distances.
    rewrite <- (calc_loss_inner o data (take (n_medoids o) medoids) i).
    rewrite length_take, Nat.min_l by exact Hlen.
    apply fold_left_seq_ext. intros cost k Hk.
    rewrite lookup_total_take_lt by exact Hk. reflexivity.
Qed.

End calc_loss_more.

(** [calc_loss] looks at [n_medoids] entries only: entries after them
    do not change the loss. *)
Theorem calc_loss_reads_n_medoids_entries
  (o : KMedoids) (data : mat R) (medoids extra : list nat) :
  length medoids = n_medoids o ->
  km.calc_loss o data (medoids ++ extra) = km.calc_loss o data medoids.
Proof.
  intros Hlen.
  rewrite !calc_loss_as_sum by (rewrite ?length_app; lia).
  rewrite <- Hlen, take_app_length, firstn_all. reflexivity.
Qed.

Lemma calc_loss_reads_n_medoids_entries_witness :
  length [0; 2]%nat = n_medoids obj0
  /\ km.calc_loss obj0 X_line ([0; 2] ++ [1])%nat
     = km.calc_loss obj0 X_line [0; 2]%nat.
Proof.
  split; [reflexivity|].
  exact (calc_loss_reads_n_medoids_entries obj0 X_line [0; 2]%nat [1%nat] eq_refl).
Defined.

(** The loss does not depend on the order of the medoids. *)
Theorem calc_loss_permutation
  (o : KMedoids) (data : mat R) (medoids medoids' : list nat) :
  length medoids = n_medoids o -> Permutation medoids medoids' ->
  km.calc_loss o data medoids = km.calc_loss o data medoids'.
Proof.
  intros Hlen Hp.
  assert (Hlen' : length medoids' = n_medoids o)
    by (rewrite <- Hlen; symmetry; apply Permutation_length, Hp).
  rewrite !calc_loss_as_sum by lia.
  rewrite !firstn_all2 by lia.
  f_equal. apply map_ext. intros i.
  apply list_min_perm. unfold medoid_distances. apply Permutation_map, Hp.
Qed.

Lemma calc_loss_permutation_witness :
  length [0; 2]%nat = n_medoids obj0 /\ Permutation [0; 2]%nat [2; 0]%nat
  /\ km.calc_loss obj0 X_line [0; 2]%nat = km.calc_loss obj0 X_line [2; 0]%nat.
Proof.
  assert (Hp : Permutation [0; 2]%nat [2; 0]%nat) by apply perm_swap.
  split; [reflexivity | split; [exact Hp|]].
  exact (calc_loss_permutation obj0 X_line [0; 2]%nat [2; 0]%nat eq_refl Hp).
Defined.

(** One more medoid never increases the loss: after [setNMedoids] to
    one more, the loss of the medoids with one point added is at most
    the loss before. *)
Theorem calc_loss_one_more_medoid
  (w : world) (data : mat R) (medoids : list nat) (m : nat) :
  length medoids = n_medoids (this w) ->
  dle (km.calc_loss
         (this (snd (km.setNMedoids (S (n_medoids (this w))) w)))
         data (medoids ++ [m]))
      (km.calc_loss (this w) data medoids).
Proof.
  intros Hlen. cbn [km.setNMedoids modify_this snd this].
  set (o := this w) in *. set (o' := set_n_medoids (S (n_medoids o)) o).
  rewrite (calc_loss_as_sum o' data (medoids ++ [m]))
    by (rewrite length_app; simpl; lia).
  rewrite (calc_loss_as_sum o data medoids) by lia.
  change (n_medoids o') with (S (n_medoids o)).
  rewrite <- Hlen, firstn_all.
  replace (S (length medoids)) with (length (medoids ++ [m]))
    by (rewrite length_app; simpl; lia).
  rewrite firstn_all.
  apply dsum_mono. intros i. unfold medoid_distances.
  rewrite map_app. cbn [map].
  change (km.invoke_lossFn o' data) with (km.invoke_lossFn o data).
  repeat split; try apply list_min_is_distance. apply list_min_snoc_le.
Qed.

Lemma calc_loss_one_more_medoid_witness :
  length [0; 2]%nat = n_medoids (this w0)
  /\ dle (km.calc_loss (this (snd (km.setNMedoids 3 w0))) X_line
            ([0; 2] ++ [1])%nat)
         (km.calc_loss (this w0) X_line [0; 2]%nat).
Proof.
  split; [reflexivity|].
  exact (calc_loss_one_more_medoid w0 X_line [0; 2]%nat 1%nat eq_refl).
Defined.

(** With [n_medoids] set to 0 the loss of a data set with at least one
    point is +infinity, and that of an empty data set is 0; no error is
    raised. *)
Theorem calc_loss_no_medoids
  (w : world) (data : mat R) (medoids : list nat) :
  km.calc_loss (this (snd (km.setNMedoids 0 w))) data medoids
  = if (n_cols data =? 0)%nat then Finite 0 else PosInf.
Proof.
  cbn [km.setNMedoids modify_this snd this].
  rewrite calc_loss_as_sum by (simpl; lia).
  change (n_medoids (set_n_medoids 0 (this w))) with 0%nat. rewrite take_0.
  change (fun i => list_min (medoid_distances _ data [] i))
    with (fun _ : nat => PosInf).
  destruct (n_cols data) as [|n]; [reflexivity|].
  cbn [Nat.eqb]. generalize 0%nat. induction n as [|n IH]; intros a0;
    [reflexivity|].
  change (seq a0 (S (S n))) with (a0 :: seq (S a0) (S n)).
  cbn [map]. rewrite dsum_cons, IH. reflexivity.
Qed.

Lemma calc_loss_value
  (o : KMedoids) (data : mat R) (medoids : list nat) :
  wf_mat data ->
  lossFn o <> fn_cos -> medoids <> [] -> length medoids = n_medoids o ->
  Forall (fun m => (m < n_cols data)%nat) medoids ->
  exists x, km.calc_loss o data medoids = Finite x /\ 0 <= x
    /\ ((lossFn o = fn_LP -> (1 <= lp o)%nat) ->
        (forall i, (i < n_cols data)%nat -> i ∈ medoids) -> x = 0).
Proof.
  intros Hwf Hne Hnil Hlen Hrange.
  rewrite calc_loss_as_sum by lia. rewrite <- Hlen, firstn_all.
  assert (Hmin : forall i, exists x,
    list_min (medoid_distances o data medoids i) = Finite x /\ 0 <= x
    /\ ((lossFn o = fn_LP -> (1 <= lp o)%nat) -> (i < n_cols data)%nat ->
        i ∈ medoids -> x = 0)).
  { intros i.
    destruct (list_min_least (medoid_distances o data medoids i))
      as (x & Hx & Hin & Hle).
    { unfold medoid_distances. destruct medoids; [congruence | discriminate]. }
    exists x. split; [exact Hx|].
    unfold medoid_distances in Hin.
    apply list_elem_of_fmap in Hin as (m & -> & Hm).
    split; [apply invoke_lossFn_nonneg, Hne|].
    intros Hp Hi Him. apply Rle_antisym; [|apply invoke_lossFn_nonneg, Hne].
    replace 0 with (km.invoke_lossFn o data i i)
      by (apply invoke_lossFn_zero_iff; auto).
    apply Hle. unfold medoid_distances. apply list_elem_of_fmap. eauto. }
  set (g := fun i => real_of (list_min (medoid_distances o data medoids i))).
  assert (Hg : forall i,
    list_min (medoid_distances o data medoids i) = Finite (g i)).
  { intros i. destruct (Hmin i) as (x & Hx & _). unfold g. rewrite Hx. reflexivity. }
  exists (arma.accu (map g (seq 0 (n_cols data)))).
  split; [apply dsum_finite; intros; apply Hg|]. split.
  - apply accu_nonneg, Forall_forall. intros y Hy.
    apply list_elem_of_fmap in Hy as (i & -> & _).
    destruct (Hmin i) as (x & Hx & Hpos & _). unfold g. rewrite Hx. exact Hpos.
  - intros Hp Hall. apply accu_zeros, Forall_forall. intros y Hy.
    apply list_elem_of_fmap in Hy as (i & -> & Hi).
    apply list_elem_of_In, in_seq in Hi.
    destruct (Hmin i) as (x & Hx & _ & Hz). unfold g. rewrite Hx. simpl.
    apply Hz; [exact Hp | lia | apply Hall; lia].
Qed.

(** Under manhattan, LINF and LP the loss of a non-empty medoid set is
    never negative and never a NaN: it is a number that is at least 0,
    or +infinity. For p >= 1 it is 0 when every point is a medoid. *)
Theorem calc_loss_nonneg_and_zero
  (o : KMedoids) (data : mat R) (medoids : list nat) :
  wf_mat data ->
  lossFn o <> fn_cos -> medoids <> [] -> length medoids = n_medoids o ->
  Forall (fun m => (m < n_cols data)%nat) medoids ->
  dle (Finite 0) (km.calc_loss o data medoids)
  /\ ((lossFn o = fn_LP -> (1 <= lp o)%nat) ->
      (forall i, (i < n_cols data)%nat -> i ∈ medoids) ->
      km.calc_loss o data medoids = Finite 0).
Proof.
  intros Hwf Hne Hnil Hlen Hrange.
  destruct (calc_loss_value o data medoids Hwf Hne Hnil Hlen Hrange)
    as (x & -> & Hpos & Hzero).
  split; [exact Hpos|]. intros Hp Hall. f_equal. apply Hzero; assumption.
Qed.

Lemma calc_loss_nonneg_and_zero_witness :
  wf_mat X_line /\ lossFn obj0 <> fn_cos /\ [0; 2]%nat <> []
  /\ length [0; 2]%nat = n_medoids obj0
  /\ Forall (fun m => (m < n_cols X_line)%nat) [0; 2]%nat
  /\ dle (Finite 0) (km.calc_loss obj0 X_line [0; 2]%nat).
Proof.
  assert (H1 : lossFn obj0 <> fn_cos) by discriminate.
  assert (H2 : [0; 2]%nat <> []) by discriminate.
  split; [exact wf_X_line | split; [exact H1 | split; [exact H2|]]].
  split; [reflexivity | split; [exact line_medoids_in_range|]].
  exact (proj1 (calc_loss_nonneg_and_zero obj0 X_line [0; 2]%nat
                  wf_X_line H1 H2 eq_refl line_medoids_in_range)).
Defined.

(** The loss is the total of the best distances left by
    [calc_best_distances_swap]. *)
Theorem calc_loss_is_total_of_best_distances
  (o : KMedoids) (data : mat R) (medoids : list nat)
  (bd sd : list double) (a : list nat) :
  length medoids = n_medoids o ->
  length bd = n_cols data -> length sd = n_cols data ->
  length a = n_cols data ->
  km.calc_loss o data medoids
  = dsum (km.calc_best_distances_swap o data medoids bd sd a).1.1.
Proof.
  intros Hlen Hbd Hsd Ha.
  rewrite calc_best_distances_swap_explicit by assumption. cbn [fst].
  rewrite calc_loss_as_sum by lia. rewrite <- Hlen, firstn_all.
  f_equal. apply map_ext. intros i. symmetry. apply point_best_is_list_min.
Qed.

Lemma calc_loss_is_total_of_best_distances_witness :
  length [0; 2]%nat = n_medoids obj0
  /\ length [PosInf; PosInf; PosInf] = n_cols X_line
  /\ length [7; 7; 7]%nat = n_cols X_line
  /\ km.calc_loss obj0 X_line [0; 2]%nat
     = dsum (km.calc_best_distances_swap obj0 X_line [0; 2]%nat
               [PosInf; PosInf; PosInf] [PosInf; PosInf; PosInf]
               [7; 7; 7]%nat).1.1.
Proof.
  split; [reflexivity | split; [reflexivity | split; [reflexivity|]]].
  exact (calc_loss_is_total_of_best_distances obj0 X_line [0; 2]%nat
           [PosInf; PosInf; PosInf] [PosInf; PosInf; PosInf] [7; 7; 7]%nat
           eq_refl eq_refl eq_refl eq_refl).
Defined.

(** ** More on the sigma estimates *)

Section sigma_more.

Variables (o : KMedoids) (data : mat R).
Variables (refs : list nat) (B : nat).
Hypothesis refs_drawn : arma.randperm (n_cols data) B refs.

(** Every slot of [sigma] after the loop of [build_sigma], run by one
    thread. *)
Lemma build_sigma_slots (sigma_summary : list double -> string)
  (bd sigma : list double) (ua : bool) :
  (ua = false -> length bd = n_cols data /\ Forall is_finite bd) ->
  let sg := (build_sigma_serial sigma_summary o data bd sigma B ua refs).1 in
  length sg = length sigma
  /\ forall c,
       sg !! c = (if (c <? n_cols data)%nat
                  then (fun _ => Finite (arma.stddev_R
                          (map (build_reward o data bd ua c) refs)))
                       <$> sigma !! c
                  else sigma !! c).
Proof.
  intros Hbd. cbv zeta. unfold build_sigma_serial. cbn [fst].
  set (body := fun '(sigma, sample) i => _).
  pose (Inv := fun (t : nat) (st : list double * list double) =>
    length st.1 = length sigma /\ length st.2 = B
    /\ forall c,
         st.1 !! c = (if (c <? t)%nat
                      then (fun _ => Finite (arma.stddev_R
                              (map (build_reward o data bd ua c) refs)))
                           <$> sigma !! c
                      else sigma !! c)).
  assert (Hinv : Inv (n_cols data)
            (fold_left body (seq 0 (n_cols data))
               (sigma, replicate B (Finite 0)))).
  { apply (for_loop_invariant Inv).
    - unfold Inv. cbn [fst snd]. rewrite length_replicate. repeat split.
    - intros t [sg sample] Ht (Hls & Hlb & Hslots).
      cbn [fst snd] in Hls, Hlb, Hslots.
      unfold body, Inv. cbn [fst snd].
      rewrite (build_sigma_sample_filled o data refs B refs_drawn
                 bd ua t sample Hbd Hlb).
      rewrite length_insert, !length_map, stddev_finite.
      destruct refs_drawn as (HB & _). repeat split; auto.
      intros c. destruct (Nat.eq_dec c t) as [->|Hne].
      + rewrite (proj2 (Nat.ltb_lt t (S t))) by lia.
        specialize (Hslots t). rewrite Nat.ltb_irrefl in Hslots.
        destruct (sigma !! t) as [x|] eqn:E.
        * apply list_lookup_insert_eq. apply lookup_lt_Some in E. lia.
        * rewrite list_insert_ge; [exact Hslots|].
          apply lookup_ge_None in E. lia.
      + rewrite list_lookup_insert_ne by auto. rewrite (Hslots c).
        destruct (c <? t)%nat eqn:E1, (c <? S t)%nat eqn:E2; try reflexivity;
          apply Nat.ltb_lt in E1 || apply Nat.ltb_ge in E1;
          apply Nat.ltb_lt in E2 || apply Nat.ltb_ge in E2; lia. }
  destruct Hinv as (Hl & _ & Hslots). split; assumption.
Qed.

End sigma_more.

Section swap_sigma_more.

Variables (o : KMedoids) (data : mat R).
Variables (refs : list nat) (B : nat).
Hypothesis refs_drawn : arma.randperm (n_cols data) B refs.

(** [sigma] after the loop of [swap_sigma], run by one thread, entry by
    entry. *)
Lemma swap_sigma_slots (sigma : mat double) (bd sbd : list double)
  (a : list nat) :
  wf_mat sigma -> n_cols sigma = n_cols data ->
  length bd = n_cols data -> Forall is_finite bd ->
  length sbd = n_cols data -> Forall is_distance sbd ->
  let r := swap_sigma_serial o data sigma B bd sbd a refs in
  n_rows r = n_rows sigma /\ n_cols r = n_cols sigma /\ wf_mat r
  /\ forall k n', (k < n_rows sigma)%nat -> (n' < n_cols data)%nat ->
       mat_at r k n'
       = Finite (arma.stddev_R
           (map (fun j => swap_phi o data bd sbd a j k n'
                          - real_of (bd !!! j)) refs)).
Proof.
  intros Hwf Hcols Hlb Hfb Hls Hfs. cbv zeta.
  unfold swap_sigma_serial.
  set (K := n_rows sigma) in *. set (N := n_cols data) in *.
  set (body := fun '(sigma, sample) i => _).
  set (value := fun i : nat =>
    Finite (arma.stddev_R
      (map (fun j => swap_phi o data bd sbd a j (i mod K) (i / K)
                     - real_of (bd !!! j)) refs))).
  pose (Inv := fun (t : nat) (st : mat double * list double) =>
    n_rows st.1 = K /\ n_cols st.1 = n_cols sigma
    /\ length (mem st.1) = (K * N)%nat /\ length st.2 = B
    /\ forall j, (j < t)%nat -> mem st.1 !! j = Some (value j)).
  assert (Hinv : Inv (K * N)%nat
            (fold_left body (seq 0 (K * N))
               (sigma, replicate B (Finite 0)))).
  { apply (for_loop_invariant Inv).
    - unfold Inv. cbn [fst snd]. rewrite length_replicate.
      repeat split; auto.
      + unfold wf_mat in Hwf. rewrite Hwf, Hcols. reflexivity.
      + intros; lia.
    - intros t [sg sample] Ht (Hr & Hc & Hm & Hlen & Hslots).
      cbn [fst snd] in Hr, Hc, Hm, Hlen, Hslots.
      assert (Hflat : (t mod K + t / K * K = t)%nat)
        by (pose proof (Nat.div_mod_eq t K); lia).
      unfold body, Inv. cbn [fst snd].
      rewrite (swap_sigma_sample_filled o data refs B refs_drawn
                 bd sbd a (t / K) (t mod K) sample Hlb Hfb Hls Hfs Hlen).
      rewrite stddev_finite, !length_map.
      unfold mat_set. cbn [n_rows n_cols mem]. rewrite Hr, Hflat, length_insert.
      destruct refs_drawn as (HB & _). repeat split; auto.
      intros j Hj. destruct (Nat.eq_dec j t) as [->|Hne].
      + apply list_lookup_insert_eq. lia.
      + rewrite list_lookup_insert_ne by auto. apply Hslots. lia. }
  destruct Hinv as (Hr & Hc & Hm & _ & Hslots).
  split; [exact Hr | split; [exact Hc | split]].
  - unfold wf_mat. rewrite Hm, Hr, Hc, Hcols. reflexivity.
  - intros k n' Hk Hn'. unfold mat_at. rewrite Hr.
    assert (Hi : (k + n' * K < K * N)%nat) by nia.
    rewrite (list_lookup_total_correct _ _ _ (Hslots _ Hi)).
    unfold value.
    rewrite Nat.Div0.mod_add, Nat.mod_small by exact Hk.
    rewrite Nat.div_add, Nat.div_small by lia.
    reflexivity.
Qed.

End swap_sigma_more.

Section medoid_candidates.

Variables (o : KMedoids) (data : mat R) (medoids : list nat).
Hypothesis medoids_nonempty : medoids <> [].

Lemma point_best_finite (j : nat) :
  exists b, point_best o data medoids j = Finite b
    /\ forall m, m ∈ medoids -> b <= km.invoke_lossFn o data m j.
Proof.
  destruct (point_scan_spec o data medoids j) as (_ & _ & Hcons).
  destruct (Hcons medoids_nonempty) as (p & b & _ & _ & Hb & _ & Hmin & _).
  exists b. split; [exact Hb|]. intros m Hm.
  apply list_elem_of_lookup in Hm as (q & Hq). apply (Hmin q).
  unfold medoid_distances. rewrite list_lookup_fmap, Hq. reflexivity.
Qed.

Lemma point_best_all_finite (n : nat) :
  Forall is_finite (map (point_best o data medoids) (seq 0 n)).
Proof.
  apply Forall_forall. intros y Hy.
  apply list_elem_of_fmap in Hy as (j & -> & _).
  destruct (point_best_finite j) as (b & -> & _). eexists; reflexivity.
Qed.

Lemma point_second_all_distances (n : nat) :
  Forall is_distance (map (point_second o data medoids) (seq 0 n)).
Proof.
  apply Forall_forall. intros y Hy.
  apply list_elem_of_fmap in Hy as (j & -> & _).
  apply point_second_is_distance.
Qed.

Lemma lookup_total_map_seq {A : Type} `{Inhabited A} (f : nat -> A) (n j : nat) :
  (j < n)%nat -> map f (seq 0 n) !!! j = f j.
Proof.
  intros Hj. apply list_lookup_total_correct.
  rewrite list_lookup_fmap, lookup_seq_lt by exact Hj. reflexivity.
Qed.

(** A candidate that is a medoid gains nothing at any reference point. *)
Lemma build_reward_of_medoid (c j n : nat) :
  c ∈ medoids -> (j < n)%nat ->
  build_reward o data (map (point_best o data medoids) (seq 0 n)) false c j = 0.
Proof.
  intros Hc Hj. unfold build_reward.
  rewrite lookup_total_map_seq by exact Hj.
  destruct (point_best_finite j) as (b & -> & Hmin). simpl.
  rewrite Rmin_right by (apply Hmin, Hc). lra.
Qed.

(** Neither does the swap of a medoid with itself. *)
Lemma swap_reward_of_self (a0 : list nat) (k m j n : nat) :
  medoids !! k = Some m -> (j < n)%nat ->
  swap_phi o data
    (map (point_best o data medoids) (seq 0 n))
    (map (point_second o data medoids) (seq 0 n))
    (map (fun j => default (a0 !!! j) (point_position o data medoids j))
         (seq 0 n))
    j k m
  - real_of (map (point_best o data medoids) (seq 0 n) !!! j) = 0.
Proof.
  intros Hk Hj. unfold swap_phi.
  rewrite !lookup_total_map_seq by exact Hj.
  destruct (point_scan_spec o data medoids j) as (_ & _ & Hcons).
  destruct (Hcons medoids_nonempty)
    as (p & b & Hpos & _ & Hb & Hdp & Hmin & _).
  destruct (point_second_is_distance o data medoids j) as [Hsd Hle].
  rewrite Hpos, Hb in *. simpl.
  assert (Hkm : b <= km.invoke_lossFn o data m j).
  { apply (Hmin k). unfold medoid_distances.
    rewrite list_lookup_fmap, Hk. reflexivity. }
  destruct (Nat.eqb_spec p k) as [->|Hne].
  - unfold medoid_distances in Hdp.
    rewrite list_lookup_fmap, Hk in Hdp. injection Hdp as Hdp.
    rewrite Hdp.
    destruct Hsd as [[s Hs]|Hs]; rewrite Hs in *; simpl in *.
    + rewrite Rmin_left by exact Hle. lra.
    + lra.
  - rewrite Rmin_right by exact Hkm. lra.
Qed.

End medoid_candidates.

(** Run by one thread, [build_sigma] leaves in [sigma(c)], for every
    candidate [c], the sample standard deviation of the rewards
    dist(c, j) (with [use_absolute]) or min(dist(c, j), d1[j]) - d1[j]
    (without) over the drawn reference points [j], the distances being
    numbers. *)
Theorem build_sigma_one_thread_spec
  (sigma_summary : list double -> string) (o : KMedoids) (data : mat R)
  (best_distances sigma : list double) (batch_size : nat)
  (use_absolute : bool) (tmp_refs schedule : list nat) :
  arma.randperm (n_cols data) batch_size tmp_refs ->
  length sigma = n_cols data ->
  (use_absolute = false ->
   length best_distances = n_cols data /\ Forall is_finite best_distances) ->
  (forall c j, (c < n_cols data)%nat -> j ∈ tmp_refs ->
     loss_is_number o data c j) ->
  forall c, (c < n_cols data)%nat ->
  (km.build_sigma sigma_summary o data best_distances sigma batch_size
     use_absolute tmp_refs [seq 0 (n_cols data)] schedule).1 !! c
  = Some (Finite (arma.stddev_R
       (map (build_reward o data best_distances use_absolute c) tmp_refs))).
Proof.
  intros Hrefs Hsig Hbd _ c Hc. rewrite build_sigma_one_thread.
  apply build_sigma_serial_spec; assumption.
Qed.

Lemma line_all_loss_is_number (c j : nat) :
  (c < n_cols X_line)%nat -> j ∈ [0; 2]%nat -> loss_is_number obj0 X_line c j.
Proof. intros _ _. exact I. Defined.

Lemma build_sigma_one_thread_spec_witness :
  arma.randperm (n_cols X_line) 2 [0; 2]%nat
  /\ length [Finite 9; Finite 9; Finite 9] = n_cols X_line
  /\ (forall c j, (c < n_cols X_line)%nat -> j ∈ [0; 2]%nat ->
        loss_is_number obj0 X_line c j)
  /\ (1 < n_cols X_line)%nat
  /\ (km.build_sigma (fun _ => EmptyString) obj0 X_line
        [PosInf; PosInf; PosInf] [Finite 9; Finite 9; Finite 9]
        2 true [0; 2]%nat [seq 0 (n_cols X_line)] [0; 0; 0]%nat).1 !! 1%nat
     = Some (Finite (arma.stddev_R
          (map (build_reward obj0 X_line [PosInf; PosInf; PosInf] true 1)
               [0; 2]%nat))).
Proof.
  assert (H2 : (1 < n_cols X_line)%nat) by (simpl; lia).
  assert (H3 : true = false ->
      length [PosInf; PosInf; PosInf] = n_cols X_line
      /\ Forall is_finite [PosInf; PosInf; PosInf]) by discriminate.
  split; [exact line_refs_drawn | split; [reflexivity|]].
  split; [exact line_all_loss_is_number | split; [exact H2|]].
  exact (build_sigma_one_thread_spec (fun _ => EmptyString) obj0 X_line
           [PosInf; PosInf; PosInf] [Finite 9; Finite 9; Finite 9]
           2 true [0; 2]%nat [0; 0; 0]%nat line_refs_drawn eq_refl H3
           line_all_loss_is_number 1%nat H2).
Defined.

(** Run by one thread, [swap_sigma] goes over the flat indices [i]
    below K * n, takes the candidate point n' = i / K and the medoid
    position k = i mod K, and leaves in [sigma(k, n')] the sample
    standard deviation, over the drawn reference points [j], of
    phi(j; k, n') - d1[j], where phi is min(dist(n', j), d2[j]) when [j]
    is assigned to [k] and min(dist(n', j), d1[j]) otherwise, the
    distances being numbers. *)
Theorem swap_sigma_one_thread_spec
  (o : KMedoids) (data : mat R) (sigma : mat double) (batch_size : nat)
  (best_distances second_best_distances : list double)
  (assignments : list nat) (tmp_refs schedule : list nat) :
  wf_mat sigma -> n_cols sigma = n_cols data ->
  arma.randperm (n_cols data) batch_size tmp_refs ->
  length best_distances = n_cols data -> Forall is_finite best_distances ->
  length second_best_distances = n_cols data ->
  Forall is_distance second_best_distances ->
  length assignments = n_cols data ->
  (forall c j, (c < n_cols data)%nat -> j ∈ tmp_refs ->
     loss_is_number o data c j) ->
  forall i, (i < n_rows sigma * n_cols data)%nat ->
  let n' := (i / n_rows sigma)%nat in
  let k := (i mod n_rows sigma)%nat in
  (n' < n_cols data)%nat /\ (k < n_rows sigma)%nat
  /\ mat_at (km.swap_sigma o data sigma batch_size best_distances
               second_best_distances assignments tmp_refs
               [seq 0 (n_rows sigma * n_cols data)] schedule) k n'
     = Finite (arma.stddev_R
         (map (fun j =>
                 swap_phi o data best_distances second_best_distances
                   assignments j k n'
                 - real_of (best_distances !!! j)) tmp_refs)).
Proof.
  intros Hwf Hcols Hrefs Hlb Hfb Hls Hfs Hla _ i Hi.
  rewrite swap_sigma_one_thread.
  apply swap_sigma_serial_spec; assumption.
Qed.

Lemma swap_sigma_one_thread_spec_witness :
  wf_mat (Mat 2 3 (replicate 6 (Finite 9)))
  /\ arma.randperm (n_cols X_line) 2 [0; 2]%nat
  /\ Forall is_finite [Finite 0; Finite 1; Finite 0]
  /\ Forall is_distance [Finite 3; Finite 2; Finite 3]
  /\ (forall c j, (c < n_cols X_line)%nat -> j ∈ [0; 2]%nat ->
        loss_is_number obj0 X_line c j)
  /\ (3 < 2 * n_cols X_line)%nat
  /\ mat_at (km.swap_sigma obj0 X_line (Mat 2 3 (replicate 6 (Finite 9))) 2
               [Finite 0; Finite 1; Finite 0] [Finite 3; Finite 2; Finite 3]
               [0; 0; 1]%nat [0; 2]%nat [seq 0 (2 * n_cols X_line)]
               [0; 0]%nat) 1 1
     = Finite (arma.stddev_R
         (map (fun j =>
                 swap_phi obj0 X_line [Finite 0; Finite 1; Finite 0]
                   [Finite 3; Finite 2; Finite 3] [0; 0; 1]%nat j 1 1
                 - real_of ([Finite 0; Finite 1; Finite 0] !!! j))
              [0; 2]%nat)).
Proof.
  assert (H1 : wf_mat (Mat 2 3 (replicate 6 (Finite 9)))) by reflexivity.
  assert (H2 : (3 < 2 * n_cols X_line)%nat) by (simpl; lia).
  split; [exact H1 | split; [exact line_refs_drawn|]].
  split; [exact line_best_finite | split; [exact line_second_distances|]].
  split; [exact line_all_loss_is_number | split; [exact H2|]].
  exact (proj2 (proj2
    (swap_sigma_one_thread_spec obj0 X_line (Mat 2 3 (replicate 6 (Finite 9))) 2
       [Finite 0; Finite 1; Finite 0] [Finite 3; Finite 2; Finite 3]
       [0; 0; 1]%nat [0; 2]%nat [0; 0]%nat H1 eq_refl line_refs_drawn eq_refl
       line_best_finite eq_refl line_second_distances eq_refl
       line_all_loss_is_number 3%nat H2))).
Defined.

(** Run by one thread, the swap of a medoid with itself has dispersion
    0: with the distances and assignments left by
    [calc_best_distances_swap], [swap_sigma] stores 0 in
    sigma(k, medoids(k)), the distances from the medoids being numbers
    and the best distances finite. *)
Theorem swap_sigma_self_swap_zero
  (o : KMedoids) (data : mat R) (medoids : list nat)
  (bd sd : list double) (a0 : list nat)
  (sigma : mat double) (batch_size : nat) (tmp_refs schedule : list nat)
  (k m : nat) :
  Forall (fun m => (m < n_cols data)%nat) medoids ->
  (forall m j, m ∈ medoids -> (j < n_cols data)%nat ->
     loss_is_number o data m j) ->
  length bd = n_cols data -> length sd = n_cols data ->
  length a0 = n_cols data ->
  wf_mat sigma -> n_rows sigma = length medoids ->
  n_cols sigma = n_cols data ->
  arma.randperm (n_cols data) batch_size tmp_refs ->
  medoids !! k = Some m ->
  let '(d1, d2, a) := km.calc_best_distances_swap o data medoids bd sd a0 in
  Forall is_finite d1 ->
  mat_at (km.swap_sigma o data sigma batch_size d1 d2 a tmp_refs
            [seq 0 (n_rows sigma * n_cols data)] schedule) k m
  = Finite 0.
Proof.
  intros Hrange _ Hbd Hsd Ha Hwf Hrows Hcols Hrefs Hk.
  assert (Hne : medoids <> []) by (intros ->; discriminate Hk).
  assert (Hm : (m < n_cols data)%nat).
  { rewrite Forall_forall in Hrange. apply Hrange, list_elem_of_lookup. eauto. }
  rewrite calc_best_distances_swap_explicit by assumption. intros _.
  rewrite swap_sigma_one_thread.
  destruct (swap_sigma_slots o data tmp_refs batch_size Hrefs sigma
              (map (point_best o data medoids) (seq 0 (n_cols data)))
              (map (point_second o data medoids) (seq 0 (n_cols data)))
              (map (fun j => default (a0 !!! j) (point_position o data medoids j))
                   (seq 0 (n_cols data)))
              Hwf Hcols)
    as (_ & _ & _ & Hslots);
    try (rewrite length_map, length_seq; reflexivity).
  { apply point_best_all_finite, Hne. }
  { apply point_second_all_distances. }
  rewrite Hslots; [|rewrite Hrows; apply lookup_lt_Some in Hk; exact Hk | exact Hm].
  f_equal. apply stddev_R_zeros, Forall_forall. intros y Hy.
  apply list_elem_of_fmap in Hy as (j & -> & Hj).
  apply swap_reward_of_self; [exact Hne | exact Hk |].
  destruct Hrefs as (_ & _ & Hr). rewrite Forall_forall in Hr. apply Hr, Hj.
Qed.

Lemma swap_sigma_self_swap_zero_witness :
  Forall (fun m => (m < n_cols X_line)%nat) [0; 2]%nat
  /\ (forall m j, m ∈ [0; 2]%nat -> (j < n_cols X_line)%nat ->
        loss_is_number obj0 X_line m j)
  /\ wf_mat (Mat 2 3 (replicate 6 (Finite 9)))
  /\ arma.randperm (n_cols X_line) 2 [0; 2]%nat
  /\ [0; 2]%nat !! 1%nat = Some 2%nat
  /\ let '(d1, d2, a) :=
       km.calc_best_distances_swap obj0 X_line [0; 2]%nat
         [PosInf; PosInf; PosInf] [PosInf; PosInf; PosInf] [7; 7; 7]%nat in
     Forall is_finite d1
     /\ mat_at (km.swap_sigma obj0 X_line (Mat 2 3 (replicate 6 (Finite 9))) 2
                  d1 d2 a [0; 2]%nat [seq 0 (2 * n_cols X_line)] [0]%nat) 1 2
        = Finite 0.
Proof.
  assert (H1 : wf_mat (Mat 2 3 (replicate 6 (Finite 9)))) by reflexivity.
  split; [exact line_medoids_in_range | split; [exact line_loss_is_number|]].
  split; [exact H1|].
  split; [exact line_refs_drawn | split; [reflexivity|]].
  pose proof (swap_sigma_self_swap_zero obj0 X_line [0; 2]%nat
           [PosInf; PosInf; PosInf] [PosInf; PosInf; PosInf] [7; 7; 7]%nat
           (Mat 2 3 (replicate 6 (Finite 9))) 2 [0; 2]%nat [0]%nat 1 2
           line_medoids_in_range line_loss_is_number eq_refl eq_refl eq_refl
           H1 eq_refl eq_refl line_refs_drawn eq_refl) as H.
  rewrite calc_best_distances_swap_line in H |- *.
  split; [exact line_best_finite | exact (H line_best_finite)].
Defined.

(** Run by one thread in its relative mode, [build_sigma] gives a
    candidate that is already a medoid the dispersion 0, the best
    distances being those left by [calc_best_distances_swap], the
    distances from the medoids being numbers and the best distances
    finite. *)
Theorem build_sigma_medoid_candidate_zero
  (sigma_summary : list double -> string)
  (o : KMedoids) (data : mat R) (medoids : list nat)
  (bd sd : list double) (a0 : list nat)
  (sigma : list double) (batch_size : nat) (tmp_refs schedule : list nat)
  (c : nat) :
  Forall (fun m => (m < n_cols data)%nat) medoids ->
  (forall m j, m ∈ medoids -> (j < n_cols data)%nat ->
     loss_is_number o data m j) ->
  length bd = n_cols data -> length sd = n_cols data ->
  length a0 = n_cols data -> length sigma = n_cols data ->
  arma.randperm (n_cols data) batch_size tmp_refs ->
  c ∈ medoids ->
  Forall is_finite (km.calc_best_distances_swap o data medoids bd sd a0).1.1 ->
  (km.build_sigma sigma_summary o data
     (km.calc_best_distances_swap o data medoids bd sd a0).1.1
     sigma batch_size false tmp_refs [seq 0 (n_cols data)] schedule).1 !! c
  = Some (Finite 0).
Proof.
  intros Hrange _ Hbd Hsd Ha Hsig Hrefs Hc _.
  assert (Hne : medoids <> []) by (intros ->; inversion Hc).
  assert (Hcn : (c < n_cols data)%nat)
    by (rewrite Forall_forall in Hrange; apply Hrange, Hc).
  rewrite calc_best_distances_swap_explicit by assumption. cbn [fst].
  rewrite build_sigma_one_thread.
  destruct (build_sigma_slots o data tmp_refs batch_size Hrefs sigma_summary
              (map (point_best o data medoids) (seq 0 (n_cols data)))
              sigma false) as (_ & Hslots).
  { intros _. split; [rewrite length_map, length_seq; reflexivity|].
    apply point_best_all_finite, Hne. }
  rewrite Hslots, (proj2 (Nat.ltb_lt _ _) Hcn).
  rewrite (list_lookup_lookup_total_lt sigma c) by lia. simpl.
  do 2 f_equal. apply stddev_R_zeros, Forall_forall. intros y Hy.
  apply list_elem_of_fmap in Hy as (j & -> & Hj).
  apply build_reward_of_medoid; [exact Hne | exact Hc |].
  destruct Hrefs as (_ & _ & Hr). rewrite Forall_forall in Hr. apply Hr, Hj.
Qed.

Lemma build_sigma_medoid_candidate_zero_witness :
  Forall (fun m => (m < n_cols X_line)%nat) [0; 2]%nat
  /\ (forall m j, m ∈ [0; 2]%nat -> (j < n_cols X_line)%nat ->
        loss_is_number obj0 X_line m j)
  /\ arma.randperm (n_cols X_line) 2 [0; 2]%nat
  /\ 2%nat ∈ [0; 2]%nat
  /\ Forall is_finite
       (km.calc_best_distances_swap obj0 X_line [0; 2]%nat
          [PosInf; PosInf; PosInf] [PosInf; PosInf; PosInf]
          [7; 7; 7]%nat).1.1
  /\ (km.build_sigma (fun _ => EmptyString) obj0 X_line
        (km.calc_best_distances_swap obj0 X_line [0; 2]%nat
           [PosInf; PosInf; PosInf] [PosInf; PosInf; PosInf]
           [7; 7; 7]%nat).1.1
        [Finite 9; Finite 9; Finite 9] 2 false [0; 2]%nat
        [seq 0 (n_cols X_line)] [0]%nat).1 !! 2%nat
     = Some (Finite 0).
Proof.
  assert (H3 : 2%nat ∈ [0; 2]%nat) by (right; left).
  assert (H4 : Forall is_finite
       (km.calc_best_distances_swap obj0 X_line [0; 2]%nat
          [PosInf; PosInf; PosInf] [PosInf; PosInf; PosInf]
          [7; 7; 7]%nat).1.1).
  { rewrite calc_best_distances_swap_line. exact line_best_finite. }
  split; [exact line_medoids_in_range | split; [exact line_loss_is_number|]].
  split; [exact line_refs_drawn | split; [exact H3 | split; [exact H4|]]].
  exact (build_sigma_medoid_candidate_zero (fun _ => EmptyString) obj0 X_line
           [0; 2]%nat [PosInf; PosInf; PosInf] [PosInf; PosInf; PosInf]
           [7; 7; 7]%nat [Finite 9; Finite 9; Finite 9] 2 [0; 2]%nat [0]%nat 2
           line_medoids_in_range line_loss_is_number eq_refl eq_refl eq_refl
           eq_refl line_refs_drawn H3 H4).
Defined.
